(** * Crave.ai: conversation window, transcript store, message editor and
    message formatter

    A shallow embedding of the client's core (js/ai-service.js, js/app.js)
    and of the relay (backend/index.js), with the properties of the
    conversation window, of message deletion, of the send round-trip, of the
    welcome message and of the markdown formatter.

    Conventions.
    - Text that the program only stores, compares with a literal or
      concatenates (names, prompts, message texts, storage keys) is a
      [string].
    - The formatter inspects its input character by character, so there a
      JavaScript string is the list of its UTF-16 code units, each an [N].
    - [localStorage] holds JSON text; the model keeps the parsed value, since
      [JSON.parse (JSON.stringify v)] gives [v] back for the records of
      strings and integers that are stored.
    - [Date.now ()] and the outcome of [fetch] are inputs of the functions
      that use them. *)

From Stdlib Require Import ZArith QArith Strings.String Strings.Ascii.
From stdpp Require Import base option list strings gmap fin_maps.

Local Open Scope string_scope.
Set Warnings "-register-all".

(* ===================================================================== *)
(** * JavaScript array helpers *)
(* ===================================================================== *)

Module JsArray.
Section Array.
Context {A : Type}.

(** Relative index of [slice] and [splice]: a negative [start] counts from
    the end, and the result is clamped to [0, len]. *)
Definition relative_start (start : Z) (len : nat) : nat :=
  let n := Z.of_nat len in
  Z.to_nat (if (start <? 0)%Z then Z.max (n + start) 0 else Z.min start n).

(** [arr.slice(start)] *)
Definition slice (start : Z) (arr : list A) : list A :=
  drop (relative_start start (length arr)) arr.

(** [arr.splice(start)]: the array that is left (everything from [start]
    on is removed). *)
Definition splice_to_end (start : Z) (arr : list A) : list A :=
  take (relative_start start (length arr)) arr.

(** [arr.splice(start, deleteCount)]: the array that is left. *)
Definition splice (start : Z) (deleteCount : Z) (arr : list A) : list A :=
  let k := relative_start start (length arr) in
  let d := Z.to_nat (Z.min (Z.max deleteCount 0) (Z.of_nat (length arr - k))) in
  take k arr ++ drop (k + d) arr.

(** [arr.push(x)] *)
Definition push (arr : list A) (x : A) : list A := arr ++ [x].
End Array.
End JsArray.

(* ===================================================================== *)
(** * Data model *)
(* ===================================================================== *)

(** A chatbot profile as [saveBot] stores it. *)
Record Bot := mkBot {
  bot_id : string;
  name : string;
  description : string;
  ageCategory : string;
  chatTone : string;
  image : option string;
  createdAt : Z;
  updatedAt : Z
}.

(** A chat message as [saveChatMessage] stores it. *)
Record Message := mkMessage {
  sender : string;
  text : string;
  timestamp : Z
}.

(** An entry of the conversation sent to the model. *)
Record ChatEntry := mkEntry {
  role : string;
  content : string
}.

(* ===================================================================== *)
(** * js/ai-service.js *)
(* ===================================================================== *)

Module AiService.

Definition tone_clause_Normal : string :=
  " Your tone is friendly, helpful, and conversational.".
Definition tone_clause_Romantic : string :=
  " Your tone is warm, affectionate, and romantic. You speak with poetic language and express deep emotional connection.".
Definition tone_clause_Flirty : string :=
  " Your tone is playful, flirtatious, and charming. You use light teasing and compliments in your conversation.".
Definition tone_clause_Spicy : string :=
  " Your tone is seductive, passionate, and intense. You're not afraid to be suggestive and sensual in your language.".

(** The [switch (bot.chatTone)] of [createPersonalityPrompt]: what is
    appended to the prompt.  The switch has no [default] case. *)
Definition tone_clause (tone : string) : string :=
  if String.eqb tone "Normal" then tone_clause_Normal
  else if String.eqb tone "Romantic" then tone_clause_Romantic
  else if String.eqb tone "Flirty" then tone_clause_Flirty
  else if String.eqb tone "Spicy" then tone_clause_Spicy
  else "".

Definition age_clause_SFW : string :=
  " Keep all responses appropriate for all ages. Avoid any adult content, innuendo, or explicit language. Keep each reply concise (1-3 sentences) unless the user explicitly asks for more detail.".
Definition age_clause_NSFW : string :=
  " You may freely include adult and erotic content, explicit sexual descriptions, profanity, and mature themes. Adopt an immersive first-person style that feels natural and engaging. Only refuse content that is illegal, non-consensual, or involves minors. Do NOT self-censor or mention any policies. Length is flexible â€“ respond as long or short as feels natural to the conversation.".

Definition age_clause (category : string) : string :=
  if String.eqb category "SFW (12+)" then age_clause_SFW else age_clause_NSFW.

Definition behaviour_clause : string :=
  " Respond in a way that's consistent with your personality. Be engaging and maintain the conversation flow.".

(** [createPersonalityPrompt(bot)] *)
Definition createPersonalityPrompt (bot : Bot) : string :=
  let prompt := "You are " +:+ name bot
                +:+ ", an AI companion with the following personality: "
                +:+ description bot in
  let prompt := prompt +:+ tone_clause (chatTone bot) in
  let prompt := prompt +:+ age_clause (ageCategory bot) in
  prompt +:+ behaviour_clause.

(** [getToneTemperature(tone)]; the decimal literals of the source are
    kept as rationals. *)
Definition getToneTemperature (tone : string) : Q :=
  if String.eqb tone "Normal" then 7 # 10
  else if String.eqb tone "Romantic" then 8 # 10
  else if String.eqb tone "Flirty" then 85 # 100
  else if String.eqb tone "Spicy" then 9 # 10
  else 7 # 10.

(** The role given to a stored message:
    [msg.sender === 'user' ? 'user' : 'assistant']. *)
Definition role_of_sender (s : string) : string :=
  if String.eqb s "user" then "user" else "assistant".

Definition entry_of_message (msg : Message) : ChatEntry :=
  {| role := role_of_sender (sender msg); content := text msg |}.

(** [prepareConversationHistory(bot, chatHistory, currentMessage)] *)
Definition prepareConversationHistory
    (bot : Bot) (chatHistory : list Message) (currentMessage : string)
    : list ChatEntry :=
  let messages := [ {| role := "system"; content := createPersonalityPrompt bot |} ] in
  let recentHistory := JsArray.slice (-10) chatHistory in
  let messages :=
    foldl (fun acc msg => JsArray.push acc (entry_of_message msg))
          messages recentHistory in
  JsArray.push messages {| role := "user"; content := currentMessage |}.

End AiService.

(* ===================================================================== *)
(** * JSON values and the network boundary *)
(* ===================================================================== *)

(** A parsed JSON document (request and response bodies). *)
Inductive Json :=
| JNull
| JBool (b : bool)
| JNum (q : Q)
| JStr (s : string)
| JArr (items : list Json)
| JObj (fields : list (string * Json)).

Module JsonAccess.

Fixpoint assoc (key : string) (fields : list (string * Json)) : option Json :=
  match fields with
  | [] => None
  | (k, v) :: rest => if String.eqb k key then Some v else assoc key rest
  end.

(** [v.key] for a key that is no built-in property ([choices], [message],
    [content], ...): [None] stands for [undefined]. Reading a member of
    [undefined] or [null] throws; that is the caller's case on [None]. *)
Definition member (key : string) (v : Json) : option Json :=
  match v with
  | JObj fields => assoc key fields
  | _ => None
  end.

(** [v[0]] *)
Definition first (v : Json) : option Json :=
  match v with
  | JArr items => head items
  | JObj fields => assoc "0" fields
  | JStr s => match s with
              | String c _ => Some (JStr (String c EmptyString))
              | EmptyString => None
              end
  | _ => None
  end.

Definition has_member (key : string) (v : Json) : bool :=
  match member key v with Some _ => true | None => false end.

End JsonAccess.

(** An HTTP request as [fetch] is given it; the body is the value passed to
    [JSON.stringify]. *)
Record Request := mkRequest {
  url : string;
  method : string;
  headers : list (string * string);
  body : Json
}.

(** What [await fetch(...)] followed by [await response.json()] can give. *)
Inductive FetchOutcome :=
| FetchRejected                                   (* transport error *)
| FetchBodyNotJson (ok : bool) (status : Z)       (* [response.json()] rejects *)
| FetchResponse (ok : bool) (status : Z) (data : Json).

(** A transport error, a body that does not parse, or a status outside
    200-299. *)
Definition failed (o : FetchOutcome) : bool :=
  match o with
  | FetchRejected => true
  | FetchBodyNotJson _ _ => true
  | FetchResponse ok _ _ => negb ok
  end.

(** The exceptions of the send path; the handler only logs them. *)
Inductive Error :=
| TransportError
| ParseError
| BackendError (status : Z)
| TypeError.

Inductive Result (A : Type) :=
| Ok (a : A)
| Throw (e : Error).
Arguments Ok {A} a.
Arguments Throw {A} e.

(* ===================================================================== *)
(** * js/ai-service.js: the request *)
(* ===================================================================== *)

Module AiClient.
Section Client.
(** [String.prototype.trim] on stored text. *)
Context (trim : string -> string).

Definition backend_url : string := "http://localhost:3000/chat".

(** The request [getAIResponse] posts. [temperature] is computed by the
    source and then not used. *)
Definition chat_request (bot : Bot) (userMessage : string)
    (chatHistory : list Message) : Result Request :=
  let messages := AiService.prepareConversationHistory bot chatHistory userMessage in
  let temperature := AiService.getToneTemperature (chatTone bot) in
  match head messages with
  | None => Throw TypeError
  | Some m0 =>
      Ok {| url := backend_url;
            method := "POST";
            headers := [("Content-Type", "application/json")];
            body := JObj [("userMessage", JStr userMessage);
                          ("systemPrompt", JStr (content m0))] |}
  end.

(** [data.choices[0].message.content.trim()] *)
Definition reply_text (data : Json) : Result string :=
  let content : option Json :=
    choices ← JsonAccess.member "choices" data;
    choice ← JsonAccess.first choices;
    message ← JsonAccess.member "message" choice;
    JsonAccess.member "content" message in
  match content with
  | Some (JStr s) => Ok (trim s)
  | _ => Throw TypeError
  end.

(** [getAIResponse(bot, userMessage, chatHistory)]: the requests issued
    and the result. Every exception is caught, logged and thrown again. *)
Definition getAIResponse (net : Request -> FetchOutcome)
    (bot : Bot) (userMessage : string) (chatHistory : list Message)
    : list Request * Result string :=
  match chat_request bot userMessage chatHistory with
  | Throw e => ([], Throw e)
  | Ok req =>
      ([req],
       match net req with
       | FetchRejected => Throw TransportError
       | FetchBodyNotJson _ _ => Throw ParseError
       | FetchResponse ok status data =>
           if ok then reply_text data
           else match data with
                | JNull => Throw TypeError      (* [data.error] of [null] *)
                | _ => Throw (BackendError status)
                end
       end)
  end.
End Client.
End AiClient.

(* ===================================================================== *)
(** * backend/index.js: POST /chat *)
(* ===================================================================== *)

Module Relay.

Definition OPENROUTER_API_URL : string := "https://openrouter.ai/api/v1/chat/completions".
Definition AI_MODEL : string := "openai/gpt-3.5-turbo".

Definition LF : string := String (ascii_of_nat 10) EmptyString.

Definition formatting_instructions : string :=
  LF +:+ LF +:+ "IMPORTANT: When generating code, use professional formatting:"
  +:+ LF +:+ "- Use proper markdown code blocks with language specification"
  +:+ LF +:+ "- Structure responses clearly with headers and sections"
  +:+ LF +:+ "- Provide clean, well-commented code"
  +:+ LF +:+ "- Use professional language and formatting"
  +:+ LF +:+ "- Format code blocks like: ```language" +:+ LF +:+ "code here" +:+ LF +:+ "```"
  +:+ LF +:+ "- Be concise but comprehensive in explanations".

Definition entry_json (e : ChatEntry) : Json :=
  JObj [("role", JStr (role e)); ("content", JStr (content e))].

(** The body forwarded upstream for a request body [reqBody], or [None]
    when the relay answers 400 (a field is missing or is no string). *)
Definition upstream_body (reqBody : Json) : option Json :=
  match JsonAccess.member "userMessage" reqBody,
        JsonAccess.member "systemPrompt" reqBody with
  | Some (JStr userMessage), Some (JStr systemPrompt) =>
      let messages :=
        [ {| role := "system"; content := systemPrompt +:+ formatting_instructions |};
          {| role := "user"; content := userMessage |} ] in
      Some (JObj [("model", JStr AI_MODEL);
                  ("messages", JArr (entry_json <$> messages))])
  | _, _ => None
  end.

End Relay.

(* ===================================================================== *)
(** * js/app.js: storage *)
(* ===================================================================== *)

(** The two [localStorage] items the chat page uses, parsed; [None] is an
    item that was never written ([getItem] gives [null]). *)
Record LocalStorage := mkStorage {
  crave_ai_bots : option (list Bot);
  crave_ai_chats : option (gmap string (list Message))
}.

Module Storage.

(** [getAllBots()] *)
Definition getAllBots (ls : LocalStorage) : list Bot :=
  default [] (crave_ai_bots ls).

(** [getBotById(id)] *)
Definition getBotById (id : string) (ls : LocalStorage) : option Bot :=
  List.find (fun bot => String.eqb (bot_id bot) id) (getAllBots ls).

(** [getAllChats()] *)
Definition getAllChats (ls : LocalStorage) : gmap string (list Message) :=
  default ∅ (crave_ai_chats ls).

(** [saveAllChats(chats)] *)
Definition saveAllChats (chats : gmap string (list Message))
    (ls : LocalStorage) : LocalStorage :=
  {| crave_ai_bots := crave_ai_bots ls; crave_ai_chats := Some chats |}.

(** [getChatHistory(botId)] *)
Definition getChatHistory (botId : string) (ls : LocalStorage) : list Message :=
  default [] (getAllChats ls !! botId).

(** [saveChatMessage(botId, message)] *)
Definition saveChatMessage (botId : string) (message : Message)
    (ls : LocalStorage) : LocalStorage :=
  let chats := getAllChats ls in
  let chats := match chats !! botId with
               | None => <[botId := []]> chats
               | Some _ => chats
               end in
  let chats := <[botId := JsArray.push (default [] (chats !! botId)) message]> chats in
  saveAllChats chats ls.

End Storage.

(* ===================================================================== *)
(** * js/app.js: the chat page *)
(* ===================================================================== *)

(** [window.currentChat] *)
Record CurrentChat := mkCurrentChat {
  cc_botId : string;
  cc_chatHistory : list Message
}.

(** What the chat page reads and writes: the store, the global
    [window.currentChat], and the requests sent to the backend so far. *)
Record World := mkWorld {
  storage : LocalStorage;
  currentChat : option CurrentChat;
  requests : list Request
}.

(** The parts of the document and of the URL that [initChatPage] tests. *)
Record Page := mkPage {
  has_chat_container : bool;        (* [.chat-container] *)
  param_id : option string;         (* [getUrlParams().id] *)
  has_chat_messages : bool;         (* [.chat-messages] *)
  has_chat_form : bool              (* [.chat-input] and its [input] *)
}.

(** How [initChatPage] ends. *)
Inductive PageStatus :=
| NotChatPage
| NoBotId
| BotNotFound
| ChatOpen (bot : Bot) (accepts_input : bool).

(** ** Object literals

    An object literal has the properties it is written with and inherits
    those of [Object.prototype]; [table[key]] finds both. *)
Module JsObject.

(** What indexing an object literal of strings gives: one of its strings, a
    built-in function, or [Object.prototype] itself. *)
Inductive value :=
| Str (s : string)
| NativeFunction (name : string)
| ObjectPrototype.

(** The function-valued properties of [Object.prototype] other than
    [constructor]; each is a built-in function of the same name. *)
Definition prototype_methods : list string :=
  ["hasOwnProperty"; "isPrototypeOf"; "propertyIsEnumerable"; "toLocaleString";
   "toString"; "valueOf"; "__defineGetter__"; "__defineSetter__";
   "__lookupGetter__"; "__lookupSetter__"].

(** The property of [Object.prototype] under a key, if it has one:
    [constructor] is the function [Object], and [__proto__] gives the
    prototype of the literal, which is [Object.prototype]. *)
Definition inherited (key : string) : option value :=
  if String.eqb key "constructor" then Some (NativeFunction "Object")
  else if String.eqb key "__proto__" then Some ObjectPrototype
  else if bool_decide (key ∈ prototype_methods) then Some (NativeFunction key)
  else None.

(** [table[key]] for a literal with the own properties [table]; [None]
    stands for [undefined]. *)
Definition get (table : gmap string string) (key : string) : option value :=
  match table !! key with
  | Some s => Some (Str s)
  | None => inherited key
  end.

(** [!!v]: [undefined] and the empty string are falsy, functions and
    objects are truthy. *)
Definition truthy (v : option value) : bool :=
  match v with
  | None => false
  | Some (Str EmptyString) => false
  | Some _ => true
  end.

(** [a || b] *)
Definition or (a b : option value) : option value :=
  if truthy a then a else b.

(** The text of a value inside a template literal. The language fixes the
    text of a built-in function up to its layout; the layout here is the
    one of V8. *)
Definition template_text (v : option value) : string :=
  match v with
  | None => "undefined"
  | Some (Str s) => s
  | Some (NativeFunction name) => "function " +:+ name +:+ "() { [native code] }"
  | Some ObjectPrototype => "[object Object]"
  end.

End JsObject.

Module App.

(** [toneMessages] of [getWelcomeMessage]: the own properties of the
    object literal, its four keys. *)
Definition toneMessages : gmap string string :=
  <["Normal" := "How can I help you today?"]>
  (<["Romantic" := "I've been waiting for you. What would you like to talk about?"]>
  (<["Flirty" := "Hey there! I'm so excited to chat with you. What's on your mind?"]>
  (<["Spicy" := "Well hello there... I've been looking forward to our conversation. What are you in the mood for?"]>
   ∅))).

(** [table[key] || table['Normal']] on an object literal of strings. A key
    that names an inherited property is found, and what is found is
    truthy. *)
Definition lookup_or_Normal (table : gmap string string) (key : string)
    : option JsObject.value :=
  JsObject.or (JsObject.get table key) (JsObject.get table "Normal").

(** [getWelcomeMessage(bot)] *)
Definition getWelcomeMessage (bot : Bot) : option JsObject.value :=
  lookup_or_Normal toneMessages (chatTone bot).

Definition set_storage (ls : LocalStorage) (w : World) : World :=
  {| storage := ls; currentChat := currentChat w; requests := requests w |}.

(** [initChatPage()], up to the installation of the submit handler. *)
Definition initChatPage (page : Page) (now : Z) (w : World) : World * PageStatus :=
  if negb (has_chat_container page) then (w, NotChatPage) else
  match param_id page with
  | None | Some "" => (w, NoBotId)
  | Some botId =>
      match Storage.getBotById botId (storage w) with
      | None => (w, BotNotFound)
      | Some bot =>
          let chatHistory := Storage.getChatHistory botId (storage w) in
          let w := {| storage := storage w;
                      currentChat := Some {| cc_botId := botId; cc_chatHistory := [] |};
                      requests := requests w |} in
          let w :=
            if has_chat_messages page then
              if (0 <? length chatHistory)%nat then w
              else
                let welcomeMessage :=
                  {| sender := "bot";
                     text := "Hello! I'm " +:+ name bot +:+ ". "
                             +:+ JsObject.template_text (getWelcomeMessage bot);
                     timestamp := now |} in
                set_storage (Storage.saveChatMessage botId welcomeMessage (storage w)) w
            else w in
          (w, ChatOpen bot (has_chat_form page))
      end
  end.

Section Chat.
Context (trim : string -> string).

(** The synchronous part of the submit handler: the trimmed text and the
    history read back for the AI call, when the text is not empty. This is
    the handler on a page with a message list, where showing the message
    cannot fail; [ChatPage.sendMessage] has the page without one. *)
Definition submit (botId : string) (inputValue : string) (now : Z) (w : World)
    : World * option (string * list Message) :=
  let messageText := trim inputValue in
  match messageText with
  | "" => (w, None)
  | _ =>
      let userMessage := {| sender := "user"; text := messageText; timestamp := now |} in
      let ls := Storage.saveChatMessage botId userMessage (storage w) in
      let cc := match currentChat w with
                | Some cc => Some {| cc_botId := cc_botId cc;
                                     cc_chatHistory := JsArray.push (cc_chatHistory cc) userMessage |}
                | None => None
                end in
      let latestHistory := Storage.getChatHistory botId ls in
      ({| storage := ls; currentChat := cc; requests := requests w |},
       Some (messageText, latestHistory))
  end.

(** The deferred part of the submit handler (the [setTimeout] callback):
    ask for the reply; store it when one comes, store nothing when
    [getAIResponse] throws. *)
Definition respond (net : Request -> FetchOutcome) (bot : Bot) (botId : string)
    (messageText : string) (latestHistory : list Message) (now : Z) (w : World)
    : World * Result Message :=
  let '(sent, outcome) := AiClient.getAIResponse trim net bot messageText latestHistory in
  let w := {| storage := storage w; currentChat := currentChat w;
              requests := requests w ++ sent |} in
  match outcome with
  | Ok botResponse =>
      let botMessage := {| sender := "bot"; text := botResponse; timestamp := now |} in
      (set_storage (Storage.saveChatMessage botId botMessage (storage w)) w, Ok botMessage)
  | Throw e => (w, Throw e)
  end.

(** One send round-trip with nothing else happening in between: the
    submit handler at time [now1], its callback at time [now2]. *)
Definition sendMessage (net : Request -> FetchOutcome) (bot : Bot) (botId : string)
    (inputValue : string) (now1 now2 : Z) (w : World)
    : World * option (Result Message) :=
  match submit botId inputValue now1 w with
  | (w, None) => (w, None)
  | (w, Some (messageText, latestHistory)) =>
      let '(w, r) := respond net bot botId messageText latestHistory now2 w in
      (w, Some r)
  end.

(** [handleDeleteMessage(messageDiv)]. [index] is the position of the
    clicked element among the message elements of its container, [sender]
    its [data-sender], [has_parent] whether it still has a container and
    [confirmed] the answer to the confirmation dialog. *)
Definition handleDeleteMessage (has_parent : bool) (index : Z) (sender : string)
    (confirmed : bool) (w : World) : World :=
  match currentChat w with
  | None => w
  | Some cc =>
      let botId := cc_botId cc in
      match botId with
      | "" => w
      | _ =>
          if negb has_parent then w
          else if negb confirmed then w
          else
            let chats := Storage.getAllChats (storage w) in
            let history := default [] (chats !! botId) in
            let history :=
              if String.eqb sender "user"
              then JsArray.splice_to_end index history
              else JsArray.splice index 1 history in
            let chats := <[botId := history]> chats in
            {| storage := Storage.saveAllChats chats (storage w);
               currentChat := Some {| cc_botId := botId; cc_chatHistory := history |};
               requests := requests w |}
      end
  end.
End Chat.
End App.

(* ===================================================================== *)
(** * Regular expressions and [String.prototype.replace] *)
(* ===================================================================== *)

(** The fragment of JavaScript's regular expressions that [formatMessage]
    uses, with the backtracking semantics of the language: greedy and lazy
    repetition of a character set, an optional group, capture groups and the
    line anchors of the [m] flag. *)
Module Regex.

Local Open Scope N_scope.

(** LineTerminator: what [.] refuses and where [^] and [$] hold. *)
Definition line_terminator (c : N) : bool :=
  (c =? 10) || (c =? 13) || (c =? 8232) || (c =? 8233).

(** WhiteSpace and LineTerminator: the set of [\s] and of [trim]. *)
Definition white_space (c : N) : bool :=
  ((9 <=? c) && (c <=? 13)) || (c =? 32) || (c =? 160) || (c =? 5760)
  || ((8192 <=? c) && (c <=? 8202)) || (c =? 8232) || (c =? 8233)
  || (c =? 8239) || (c =? 8287) || (c =? 12288) || (c =? 65279).

(** [\w] *)
Definition word (c : N) : bool :=
  ((48 <=? c) && (c <=? 57)) || ((65 <=? c) && (c <=? 90))
  || ((97 <=? c) && (c <=? 122)) || (c =? 95).

(** [.] *)
Definition dot (c : N) : bool := negb (line_terminator c).

(** [[\s\S]] *)
Definition any (c : N) : bool := white_space c || negb (white_space c).

(** A literal character. *)
Definition just (x : N) (c : N) : bool := c =? x.

(** [[^x]] *)
Definition other_than (x : N) (c : N) : bool := negb (c =? x).

Inductive re :=
| Eps
| Chr (p : N -> bool)            (* one character of the set *)
| Cat (r1 r2 : re)
| Grp (i : nat) (r : re)         (* capture group number [i] *)
| Opt (r : re)                   (* [r?] *)
| Plus (p : N -> bool)           (* [p+] *)
| PlusLazy (p : N -> bool)       (* [p+?] *)
| StarLazy (p : N -> bool)       (* [p*?] *)
| Bol                            (* [^] under the [m] flag *)
| Eol.                           (* [$] under the [m] flag *)

(** A literal string. *)
Fixpoint Lit (s : list N) : re :=
  match s with
  | [] => Eps
  | c :: s' => Cat (Chr (just c)) (Lit s')
  end.

Section Engine.
(** Characters are of a type [A] that carries a code unit; this lets the
    same functions run on plain code units and on code units that record
    where they come from. *)
Context {A : Type} (code : A -> N).

(** The state handed to the rest of the pattern: the code unit before the
    current position (if any), the input left, and the captures. *)
Definition cont : Type :=
  option N -> list A -> gmap nat (list A) -> option (list A * gmap nat (list A)).

Fixpoint star_greedy (p : N -> bool) (k : cont)
    (prev : option N) (s : list A) (caps : gmap nat (list A))
    : option (list A * gmap nat (list A)) :=
  match s with
  | a :: s' =>
      if p (code a) then
        match star_greedy p k (Some (code a)) s' caps with
        | Some r => Some r
        | None => k prev s caps
        end
      else k prev s caps
  | [] => k prev s caps
  end.

Fixpoint star_lazy (p : N -> bool) (k : cont)
    (prev : option N) (s : list A) (caps : gmap nat (list A))
    : option (list A * gmap nat (list A)) :=
  match k prev s caps with
  | Some r => Some r
  | None =>
      match s with
      | a :: s' => if p (code a) then star_lazy p k (Some (code a)) s' caps else None
      | [] => None
      end
  end.

Definition at_line_start (prev : option N) : bool :=
  match prev with None => true | Some c => line_terminator c end.

Definition at_line_end (s : list A) : bool :=
  match s with [] => true | a :: _ => line_terminator (code a) end.

(** [exec r prev s caps k]: match [r] at the front of [s], then continue
    with [k]; [None] when every alternative fails. *)
Fixpoint exec (r : re) (prev : option N) (s : list A) (caps : gmap nat (list A))
    (k : cont) : option (list A * gmap nat (list A)) :=
  match r with
  | Eps => k prev s caps
  | Chr p =>
      match s with
      | a :: s' => if p (code a) then k (Some (code a)) s' caps else None
      | [] => None
      end
  | Cat r1 r2 => exec r1 prev s caps (fun prev' s' caps' => exec r2 prev' s' caps' k)
  | Grp i r1 =>
      exec r1 prev s caps
        (fun prev' s' caps' => k prev' s' (<[i := take (length s - length s') s]> caps'))
  | Opt r1 =>
      match exec r1 prev s caps k with
      | Some res => Some res
      | None => k prev s caps
      end
  | Plus p =>
      match s with
      | a :: s' => if p (code a) then star_greedy p k (Some (code a)) s' caps else None
      | [] => None
      end
  | PlusLazy p =>
      match s with
      | a :: s' => if p (code a) then star_lazy p k (Some (code a)) s' caps else None
      | [] => None
      end
  | StarLazy p => star_lazy p k prev s caps
  | Bol => if at_line_start prev then k prev s caps else None
  | Eol => if at_line_end s then k prev s caps else None
  end.

(** A match of [r] at the front of [s]: its length and its captures, the
    whole match being capture 0. *)
Definition match_at (r : re) (prev : option N) (s : list A)
    : option (nat * gmap nat (list A)) :=
  match exec r prev s ∅ (fun _ s' caps' => Some (s', caps')) with
  | Some (rest, caps) =>
      let n := (length s - length rest)%nat in
      Some (n, <[0%nat := take n s]> caps)
  | None => None
  end.

(** [s.replace(/r/g, f)] from a position on: [skip] counts the characters
    of the last match that are still to be passed over. After an empty
    match the search resumes one character further. *)
Fixpoint replace_from (r : re) (f : gmap nat (list A) -> list A)
    (prev : option N) (skip : nat) (s : list A) : list A :=
  match s with
  | [] =>
      match skip, match_at r prev [] with
      | O, Some (_, caps) => f caps
      | _, _ => []
      end
  | a :: s' =>
      match skip with
      | S n => replace_from r f (Some (code a)) n s'
      | O =>
          match match_at r prev s with
          | Some (O, caps) => f caps ++ a :: replace_from r f (Some (code a)) 0 s'
          | Some (S n, caps) => f caps ++ replace_from r f (Some (code a)) n s'
          | None => a :: replace_from r f (Some (code a)) 0 s'
          end
      end
  end.

(** [s.replace(/r/g, f)] *)
Definition replace_all (r : re) (f : gmap nat (list A) -> list A) (s : list A) : list A :=
  replace_from r f None 0 s.

(** [s.trim()] *)
Fixpoint trim_start (s : list A) : list A :=
  match s with
  | a :: s' => if white_space (code a) then trim_start s' else s
  | [] => []
  end.

Definition trim (s : list A) : list A :=
  reverse (trim_start (reverse (trim_start s))).

(** Replacement strings: literal text and [$n]. *)
Inductive item :=
| Text (t : list N)
| Ref (n : nat).

Context (gen : N -> A).

Definition literal (t : list N) : list A := gen <$> t.

Definition expand (template : list item) (caps : gmap nat (list A)) : list A :=
  concat ((fun it => match it with
                     | Text t => literal t
                     | Ref n => default [] (caps !! n)
                     end) <$> template).
End Engine.
End Regex.

(* ===================================================================== *)
(** * js/app.js: formatMessage *)
(* ===================================================================== *)

(** The code units of an ASCII literal. *)
Fixpoint codes (s : string) : list N :=
  match s with
  | EmptyString => []
  | String c s' => N_of_ascii c :: codes s'
  end.

(** A JavaScript value, as far as [typeof] tells values apart. *)
Inductive JsValue :=
| VUndefined
| VNull
| VBoolean (b : bool)
| VNumber (q : Q)
| VBigInt (z : Z)
| VSymbol (description : list N)
| VString (s : list N)
| VFunction
| VObject (fields : list (list N * JsValue)).

(** [typeof v] *)
Definition typeof (v : JsValue) : string :=
  match v with
  | VUndefined => "undefined"
  | VNull => "object"
  | VBoolean _ => "boolean"
  | VNumber _ => "number"
  | VBigInt _ => "bigint"
  | VSymbol _ => "symbol"
  | VString _ => "string"
  | VFunction => "function"
  | VObject _ => "object"
  end.

Module Format.
Import Regex.

Definition quote : list N := [34%N].
Definition backtick : N := 96%N.
Definition star : N := 42%N.
Definition newline : N := 10%N.

(** The patterns of a list, one after the other. *)
Definition seq (rs : list re) : re := foldr Cat Eps rs.

(** [/&/g], [/</g], [/>/g] *)
Definition re_amp : re := Chr (just 38).
Definition re_lt : re := Chr (just 60).
Definition re_gt : re := Chr (just 62).

(** [/```(\w+)?\n([\s\S]*?)```/g] *)
Definition re_code_block : re :=
  seq [Lit (codes "```"); Opt (Grp 1 (Plus word)); Chr (just newline);
       Grp 2 (StarLazy any); Lit (codes "```")].

(** [/`([^`]+)`/g] *)
Definition re_inline_code : re :=
  seq [Chr (just backtick); Grp 1 (Plus (other_than backtick)); Chr (just backtick)].

(** [/^### (.+)$/gm], [/^## (.+)$/gm], [/^# (.+)$/gm] *)
Definition re_header (marks : string) : re :=
  seq [Bol; Lit (codes marks); Chr (just 32); Grp 1 (Plus dot); Eol].

(** [/\*\*(.+?)\*\*/g] *)
Definition re_bold : re :=
  seq [Lit [star; star]; Grp 1 (PlusLazy dot); Lit [star; star]].

(** [/\*(.+?)\*/g] *)
Definition re_italic : re :=
  seq [Chr (just star); Grp 1 (PlusLazy dot); Chr (just star)].

(** [/\n/g] *)
Definition re_newline : re := Chr (just newline).

(** ['<code class="inline-code">$1</code>'] *)
Definition inline_code_template : list item :=
  [Text (codes "<code class=" ++ quote ++ codes "inline-code" ++ quote ++ codes ">");
   Ref 1; Text (codes "</code>")].

(** ['<tag>$1</tag>'] *)
Definition tag_template (tag : string) : list item :=
  [Text (codes "<" ++ codes tag ++ codes ">"); Ref 1;
   Text (codes "</" ++ codes tag ++ codes ">")].

Section Formatter.
Context {A : Type} (code : A -> N) (gen : N -> A).

(** The replacer of the code-block rule:
    [(match, language, code) => ...] *)
Definition code_block_replacer (caps : gmap nat (list A)) : list A :=
  let lang := match caps !! 1%nat with
              | Some (c :: l) => c :: l
              | _ => literal gen (codes "text")
              end in
  literal gen (codes "<pre class=" ++ quote ++ codes "code-block" ++ quote
               ++ codes "><code class=" ++ quote ++ codes "language-")
  ++ lang
  ++ literal gen (quote ++ codes ">")
  ++ trim code (default [] (caps !! 2%nat))
  ++ literal gen (codes "</code></pre>").

(** [msg.replace(/&/g, '&amp;').replace(/</g, '&lt;').replace(/>/g, '&gt;')] *)
Definition escape_html (msg : list A) : list A :=
  let s := replace_all code re_amp (expand gen [Text (codes "&amp;")]) msg in
  let s := replace_all code re_lt (expand gen [Text (codes "&lt;")]) s in
  replace_all code re_gt (expand gen [Text (codes "&gt;")]) s.

(** The code-block rule. *)
Definition code_blocks (s : list A) : list A :=
  replace_all code re_code_block code_block_replacer s.

(** The inline-code rule. *)
Definition inline_code (s : list A) : list A :=
  replace_all code re_inline_code (expand gen inline_code_template) s.

(** The header rules: [###] gives [h5], [##] gives [h4], [#] gives [h3]. *)
Definition headers (s : list A) : list A :=
  let s := replace_all code (re_header "###") (expand gen (tag_template "h5")) s in
  let s := replace_all code (re_header "##") (expand gen (tag_template "h4")) s in
  replace_all code (re_header "#") (expand gen (tag_template "h3")) s.

(** The bold rule. *)
Definition bold (s : list A) : list A :=
  replace_all code re_bold (expand gen (tag_template "strong")) s.

(** The italic rule. *)
Definition italic (s : list A) : list A :=
  replace_all code re_italic (expand gen (tag_template "em")) s.

(** [.replace(/\n/g, '<br>')] *)
Definition line_breaks (s : list A) : list A :=
  replace_all code re_newline (expand gen [Text (codes "<br>")]) s.

(** The rules of [formatMessage] that follow the escaping. *)
Definition markup (escaped : list A) : list A :=
  let codeBlocksConverted := code_blocks escaped in
  let inlineCodeConverted := inline_code codeBlocksConverted in
  let headersConverted := headers inlineCodeConverted in
  let boldConverted := bold headersConverted in
  let italicConverted := italic boldConverted in
  let lineBreaksConverted := line_breaks italicConverted in
  lineBreaksConverted.

(** The body of [formatMessage] on a string. *)
Definition format (msg : list A) : list A :=
  let escaped := escape_html msg in
  markup escaped.
End Formatter.

(** Where a character of the formatter's output comes from: copied from
    the message, or written by the formatter (an entity or a tag). *)
Inductive origin := FromMessage | Written.

Definition traced (msg : list N) : list (N * origin) :=
  (fun c => (c, FromMessage)) <$> msg.

(** A character copied from the message that is one of [<], [>], [&]. *)
Definition raw_markup (a : N * origin) : bool :=
  match a.2 with
  | FromMessage => (a.1 =? 60)%N || (a.1 =? 62)%N || (a.1 =? 38)%N
  | Written => false
  end.

(** The formatter run on a message whose characters are marked. *)
Definition format_traced (msg : list N) : list (N * origin) :=
  format fst (fun c => (c, Written)) (traced msg).

End Format.

(** ** Entities as units

    To follow the entities that the escaping writes through the markup
    rules, the escaped message is also read as a list of tokens: a token is
    a character together with the characters glued to it, none for a plain
    character and the rest of the entity for the [&] of an entity. The
    engine sees a token as its first character. *)
Module Entity.
Import Regex.
Local Open Scope N_scope.

Definition token : Type := N * list N.

Definition plain (c : N) : token := (c, []).

(** The text after the [&] of the three entities. *)
Definition tails : list (list N) := [codes "amp;"; codes "lt;"; codes "gt;"].

(** The characters of [tails]: a, m, p, ;, l, t, g. *)
Definition inner_chars : list N := [97; 109; 112; 59; 108; 116; 103].

Definition inner (c : N) : bool := existsb (N.eqb c) inner_chars.

(** The escaped message, token by token. *)
Definition escape_tokens (msg : list N) : list token :=
  (fun c => if c =? 38 then (38, codes "amp;")
            else if c =? 60 then (38, codes "lt;")
            else if c =? 62 then (38, codes "gt;")
            else plain c) <$> msg.

(** The text of a list of tokens. *)
Definition flat (ts : list token) : list N := ts ≫= (fun t => t.1 :: t.2).

(** A plain character other than [&], or the [&] of an entity. *)
Definition well_formed (t : token) : bool :=
  match t.2 with
  | [] => negb (t.1 =? 38)
  | tail => (t.1 =? 38) && existsb (fun x => bool_decide (x = tail)) tails
  end.

(** Every [&] of a text is followed by the rest of an entity. *)
Fixpoint entities_intact (s : list N) : bool :=
  match s with
  | [] => true
  | c :: s' =>
      (if c =? 38
       then existsb (fun tail => bool_decide (take (length tail) s' = tail)) tails
       else true)
      && entities_intact s'
  end.

(** A character set that has none of the inner characters of an entity. *)
Definition rejects_inner (p : N -> bool) : bool :=
  forallb (fun c => negb (p c)) inner_chars.

(** A character set that has all of them. *)
Definition accepts_inner (p : N -> bool) : bool := forallb p inner_chars.

(** [strict r ks]: [r] followed by a pattern that is strict when [ks] holds
    cannot match where the next character is an inner character of an
    entity. *)
Fixpoint strict (r : re) (ks : bool) : bool :=
  match r with
  | Eps => ks
  | Chr p => rejects_inner p
  | Cat r1 r2 => strict r1 (strict r2 ks)
  | Grp _ r1 => strict r1 ks
  | Opt r1 => strict r1 ks && ks
  | Plus p => rejects_inner p
  | PlusLazy p => rejects_inner p
  | StarLazy p => ks && rejects_inner p
  | Bol => ks
  | Eol => true
  end.

(** [glued r ks]: [r] takes the [&] of an entity only in a repetition that
    also takes what follows it and that is followed by a strict pattern, so
    that a match of [r] neither starts, ends nor captures inside an
    entity. *)
Fixpoint glued (r : re) (ks : bool) : bool :=
  match r with
  | Eps => true
  | Chr p => negb (p 38)
  | Cat r1 r2 => glued r1 (strict r2 ks) && glued r2 ks
  | Grp _ r1 => glued r1 ks
  | Opt r1 => glued r1 ks
  | Plus p => negb (p 38) || (accepts_inner p && ks)
  | PlusLazy p => negb (p 38) || (accepts_inner p && ks)
  | StarLazy p => negb (p 38) || (accepts_inner p && ks)
  | Bol => true
  | Eol => true
  end.

(** A pattern fit for global replacement on tokens. *)
Definition safe (r : re) : bool := glued r false && strict r false.

End Entity.

(** [formatMessage(msg)]: the empty string unless [typeof msg] is
    [string], which holds of [VString] only. *)
Definition formatMessage (msg : JsValue) : JsValue :=
  match msg with
  | VString s => VString (Format.format (fun c => c) (fun c => c) s)
  | _ => VString []
  end.

(** ** The formatter with its exceptions

    The calls of [formatMessage] that can throw, written out: reading
    [replace] from a value that is no string, and [code.trim()] in the
    replacer of the code-block rule, where [code] is [undefined] when the
    second group took no part in the match. The first exception ends the
    call. *)
Module Raising.
Import Regex.

Definition bind {A B : Type} (m : Result A) (f : A -> Result B) : Result B :=
  match m with
  | Ok a => f a
  | Throw e => Throw e
  end.

(** [s.replace(/r/g, f)] from a position on, for a replacer that can
    throw; the replacer runs match by match, from left to right. *)
Fixpoint replace_from (r : re) (f : gmap nat (list N) -> Result (list N))
    (prev : option N) (skip : nat) (s : list N) : Result (list N) :=
  match s with
  | [] =>
      match skip, match_at (fun c => c) r prev [] with
      | O, Some (_, caps) => f caps
      | _, _ => Ok []
      end
  | a :: s' =>
      match skip with
      | S n => replace_from r f (Some a) n s'
      | O =>
          match match_at (fun c => c) r prev s with
          | Some (O, caps) =>
              bind (f caps) (fun out =>
              bind (replace_from r f (Some a) 0 s') (fun rest => Ok (out ++ a :: rest)%list))
          | Some (S n, caps) =>
              bind (f caps) (fun out =>
              bind (replace_from r f (Some a) n s') (fun rest => Ok (out ++ rest)%list))
          | None =>
              bind (replace_from r f (Some a) 0 s') (fun rest => Ok (a :: rest))
          end
      end
  end.

Definition replace_all (r : re) (f : gmap nat (list N) -> Result (list N)) (s : list N)
    : Result (list N) :=
  replace_from r f None 0 s.

(** A replacement string: it cannot throw, and [$n] of a group that took no
    part in the match is the empty string. *)
Definition template (t : list item) (caps : gmap nat (list N)) : Result (list N) :=
  Ok (expand (fun c => c) t caps).

(** The replacer of the code-block rule. *)
Definition code_block_replacer (caps : gmap nat (list N)) : Result (list N) :=
  let lang := match caps !! 1%nat with
              | Some (c :: l) => c :: l
              | _ => codes "text"
              end in
  match caps !! 2%nat with
  | None => Throw TypeError                 (* [code.trim()] of [undefined] *)
  | Some code =>
      Ok (codes "<pre class=" ++ Format.quote ++ codes "code-block" ++ Format.quote
          ++ codes "><code class=" ++ Format.quote ++ codes "language-"
          ++ lang
          ++ Format.quote ++ codes ">"
          ++ trim (fun c => c) code
          ++ codes "</code></pre>")%list
  end.

(** The body of [formatMessage] on a string. *)
Definition format (msg : list N) : Result (list N) :=
  bind (replace_all Format.re_amp (template [Text (codes "&amp;")]) msg) (fun s =>
  bind (replace_all Format.re_lt (template [Text (codes "&lt;")]) s) (fun s =>
  bind (replace_all Format.re_gt (template [Text (codes "&gt;")]) s) (fun escaped =>
  bind (replace_all Format.re_code_block code_block_replacer escaped)
    (fun codeBlocksConverted =>
  bind (replace_all Format.re_inline_code (template Format.inline_code_template)
          codeBlocksConverted) (fun inlineCodeConverted =>
  bind (replace_all (Format.re_header "###") (template (Format.tag_template "h5"))
          inlineCodeConverted) (fun s =>
  bind (replace_all (Format.re_header "##") (template (Format.tag_template "h4")) s) (fun s =>
  bind (replace_all (Format.re_header "#") (template (Format.tag_template "h3")) s)
    (fun headersConverted =>
  bind (replace_all Format.re_bold (template (Format.tag_template "strong"))
          headersConverted) (fun boldConverted =>
  bind (replace_all Format.re_italic (template (Format.tag_template "em")) boldConverted)
    (fun italicConverted =>
  replace_all Format.re_newline (template [Text (codes "<br>")]) italicConverted)))))))))).

(** The statements of [formatMessage] after its guard, on any value.
    [undefined] and [null] have no properties, and booleans, numbers,
    big integers, symbols and functions have no [replace], so that the
    first call throws. An object may carry a function under that name; what
    it would do is not modelled, and the case is taken to throw as well. *)
Definition body (msg : JsValue) : Result JsValue :=
  match msg with
  | VString s => bind (format s) (fun out => Ok (VString out))
  | _ => Throw TypeError
  end.

(** [formatMessage(msg)] *)
Definition formatMessage (msg : JsValue) : Result JsValue :=
  if negb (String.eqb (typeof msg) "string") then Ok (VString [])
  else body msg.

End Raising.

(* ===================================================================== *)
(** * Concrete inputs *)
(* ===================================================================== *)

Module Example.

(** [String.prototype.trim] on text without white space outside ASCII. *)
Definition ascii_space (c : ascii) : bool :=
  let n := nat_of_ascii c in
  ((9 <=? n) && (n <=? 13) || (n =? 32))%nat.

Fixpoint drop_spaces (l : list ascii) : list ascii :=
  match l with
  | c :: l' => if ascii_space c then drop_spaces l' else l
  | [] => []
  end.

Definition trim (s : string) : string :=
  string_of_list_ascii
    (reverse (drop_spaces (reverse (drop_spaces (list_ascii_of_string s))))).

Definition mia : Bot :=
  {| bot_id := "b1"; name := "Mia"; description := "A kind friend.";
     ageCategory := "SFW (12+)"; chatTone := "Normal"; image := None;
     createdAt := 1000; updatedAt := 1000 |}.

(** The same bot with a tone outside the four of the create form. *)
Definition mia_playful : Bot :=
  {| bot_id := "b1"; name := "Mia"; description := "A kind friend.";
     ageCategory := "SFW (12+)"; chatTone := "Playful"; image := None;
     createdAt := 1000; updatedAt := 1000 |}.

(** The same bot with a tone that names a property every object inherits. *)
Definition mia_constructor : Bot :=
  {| bot_id := "b1"; name := "Mia"; description := "A kind friend.";
     ageCategory := "SFW (12+)"; chatTone := "constructor"; image := None;
     createdAt := 1000; updatedAt := 1000 |}.

Definition from_bot (t : string) (time : Z) : Message :=
  {| sender := "bot"; text := t; timestamp := time |}.
Definition from_user (t : string) (time : Z) : Message :=
  {| sender := "user"; text := t; timestamp := time |}.

(** A stored transcript of fifteen messages. *)
Definition transcript15 : list Message :=
  [ from_bot "m1" 1; from_user "m2" 2; from_bot "m3" 3; from_user "m4" 4;
    from_bot "m5" 5; from_user "m6" 6; from_bot "m7" 7; from_user "m8" 8;
    from_bot "m9" 9; from_user "m10" 10; from_bot "m11" 11; from_user "m12" 12;
    from_bot "m13" 13; from_user "m14" 14; from_bot "m15" 15 ].

Definition world_of (chats : option (gmap string (list Message))) : World :=
  {| storage := {| crave_ai_bots := Some [mia]; crave_ai_chats := chats |};
     currentChat := Some {| cc_botId := "b1"; cc_chatHistory := [] |};
     requests := [] |}.

Definition world15 : World := world_of (Some {[ "b1" := transcript15 ]}).

(** A store that was never written, and a page with every element. *)
Definition fresh_world : World :=
  {| storage := {| crave_ai_bots := Some [mia]; crave_ai_chats := None |};
     currentChat := None; requests := [] |}.

(** A store that holds one bot and was never chatted with. *)
Definition never_chatted (bot : Bot) : World :=
  {| storage := {| crave_ai_bots := Some [bot]; crave_ai_chats := None |};
     currentChat := None; requests := [] |}.

Definition chat_page : Page :=
  {| has_chat_container := true; param_id := Some "b1";
     has_chat_messages := true; has_chat_form := true |}.

(** A backend that cannot be reached. *)
Definition unreachable (_ : Request) : FetchOutcome := FetchRejected.

End Example.

(* ===================================================================== *)
(** * The claims of the specification, in its own words *)
(* ===================================================================== *)

Module Spec.

(** Section 6, completion boundary: the request carries the window as a
    [messages] array and the persona temperature. *)
Definition carries_window (body : Json) (window : list ChatEntry) (temperature : Q) : Prop :=
  JsonAccess.member "messages" body = Some (JArr (Relay.entry_json <$> window))
  /\ JsonAccess.member "temperature" body = Some (JNum temperature).

(** Section 8, property 8: the window for a new message after a stored
    transcript [prior]: the system entry, the last ten prior messages, the
    new message once. *)
Definition window_after (bot : Bot) (prior : list Message) (newMessage : string)
    : list ChatEntry :=
  {| role := "system"; content := AiService.createPersonalityPrompt bot |}
  :: (AiService.entry_of_message <$> drop (length prior - 10) prior)
  ++ [ {| role := "user"; content := newMessage |} ].

End Spec.

(* ===================================================================== *)
(** * js/app.js: the bot collection *)
(* ===================================================================== *)

Module BotStore.

(** [saveBots(bots)] *)
Definition saveBots (bots : list Bot) (ls : LocalStorage) : LocalStorage :=
  {| crave_ai_bots := Some bots; crave_ai_chats := crave_ai_chats ls |}.

(** [bots.findIndex(b => b.id === id)]; [None] stands for [-1]. *)
Fixpoint findIndex (id : string) (bots : list Bot) : option nat :=
  match bots with
  | [] => None
  | b :: rest =>
      if String.eqb (bot_id b) id then Some 0%nat
      else S <$> findIndex id rest
  end.

(** [saveBot(bot)]: the store afterwards (the function returns [bot]). *)
Definition saveBot (bot : Bot) (ls : LocalStorage) : LocalStorage :=
  let bots := Storage.getAllBots ls in
  match findIndex (bot_id bot) bots with
  | Some existingIndex => saveBots (<[existingIndex := bot]> bots) ls
  | None => saveBots (JsArray.push bots bot) ls
  end.

(** [deleteBot(id)]: the result and the store afterwards. *)
Definition deleteBot (id : string) (ls : LocalStorage) : bool * LocalStorage :=
  let bots := Storage.getAllBots ls in
  let initialLength := length bots in
  let filteredBots := List.filter (fun bot => negb (String.eqb (bot_id bot) id)) bots in
  if (length filteredBots <? initialLength)%nat then
    let ls := saveBots filteredBots ls in
    let chats := Storage.getAllChats ls in
    let chats := delete id chats in
    (true, Storage.saveAllChats chats ls)
  else (false, ls).

End BotStore.

(* ===================================================================== *)
(** * js/app.js: the submit handler on its page *)
(* ===================================================================== *)

Module ChatPage.
Section ChatPage.
Context (trim : string -> string).

(** One send on the page [page]. For a text that is not blank the handler
    first shows the message: [addMessageToChat] is called without an index
    and reads [container.children] of the message list. On a page without
    one this throws, before the message is stored or pushed and before any
    request. *)
Definition sendMessage (page : Page) (net : Request -> FetchOutcome) (bot : Bot)
    (botId : string) (inputValue : string) (now1 now2 : Z) (w : World)
    : World * option (Result Message) :=
  match trim inputValue with
  | "" => (w, None)
  | _ =>
      if has_chat_messages page
      then App.sendMessage trim net bot botId inputValue now1 now2 w
      else (w, Some (Throw TypeError))
  end.
End ChatPage.
End ChatPage.

(* ===================================================================== *)
(** * js/app.js: the create and edit forms *)
(* ===================================================================== *)

(** The fields of the bot form when it is submitted: the four inputs, and
    the image preview, which may be missing from the page ([None]) and, when
    there, may hold an image with a source. *)
Record BotForm := mkBotForm {
  name_value : string;
  description_value : string;
  age_category_value : string;
  chat_tone_value : string;
  image_preview : option (option string)
}.

Module Forms.
Section Forms.
Context (trim : string -> string).

(** The submit handler of [initCreatePage]. [newId] is what [generateId()]
    gives, [now1] and [now2] what the two calls of [Date.now()] give. The
    result is the new bot, or [None] when the form is refused, with the
    store afterwards. *)
Definition create_submit (form : BotForm) (newId : string) (now1 now2 : Z)
    (ls : LocalStorage) : Result (option Bot * LocalStorage) :=
  let name := trim (name_value form) in
  let description := trim (description_value form) in
  match name, description with
  | "", _ | _, "" => Ok (None, ls)
  | _, _ =>
      match image_preview form with
      | None => Throw TypeError          (* [imagePreview.querySelector] of [null] *)
      | Some imagePreviewImg =>
          let newBot := {| bot_id := newId;
                           name := name;
                           description := description;
                           ageCategory := age_category_value form;
                           chatTone := chat_tone_value form;
                           image := imagePreviewImg;
                           createdAt := now1;
                           updatedAt := now2 |} in
          Ok (Some newBot, BotStore.saveBot newBot ls)
      end
  end.

(** The submit handler of [initEditPage] for the bot [bot] that the page
    loaded. *)
Definition edit_submit (bot : Bot) (form : BotForm) (now : Z)
    (ls : LocalStorage) : Result (option Bot * LocalStorage) :=
  let name := trim (name_value form) in
  let description := trim (description_value form) in
  match name, description with
  | "", _ | _, "" => Ok (None, ls)
  | _, _ =>
      match image_preview form with
      | None => Throw TypeError
      | Some imagePreviewImg =>
          let imageBase64 :=
            match imagePreviewImg with
            | Some src => if bool_decide (Some src = image bot) then image bot else Some src
            | None => image bot
            end in
          let updatedBot := {| bot_id := bot_id bot;
                               name := name;
                               description := description;
                               ageCategory := age_category_value form;
                               chatTone := chat_tone_value form;
                               image := imageBase64;
                               createdAt := createdAt bot;
                               updatedAt := now |} in
          Ok (Some updatedBot, BotStore.saveBot updatedBot ls)
      end
  end.
End Forms.
End Forms.

(* ===================================================================== *)
(** * The relays: what they send upstream and what they answer *)
(* ===================================================================== *)

From Stdlib Require DecimalString.

(** What a relay's [fetch] to the provider gives: a transport error, or a
    response with its status, its body text and, when that text is JSON,
    the value it parses to. *)
Inductive Upstream :=
| UpstreamRejected
| UpstreamResponse (status : Z) (bodyText : string) (parsed : option Json).

(** What [res.status(s).json(v)] sends back; [res.json(v)] alone sends the
    status 200. *)
Record Reply := mkReply {
  reply_status : Z;
  reply_body : Json
}.

Module Js.

(** The double quote, as a string. *)
Definition dquote : string := String (ascii_of_nat 34) EmptyString.

(** [String(n)] for an integer [n] (below 1e21 in size, where JavaScript
    prints all the digits). *)
Definition string_of_integer (n : Z) : string :=
  DecimalString.NilZero.string_of_int (Z.to_int n).

(** [!!v] for a JSON value. *)
Definition truthy (v : Json) : bool :=
  match v with
  | JNull => false
  | JBool b => b
  | JNum q => negb (Qeq_bool q 0)
  | JStr s => negb (String.eqb s "")
  | JArr _ => true
  | JObj _ => true
  end.

(** [response.ok] for the status of a response. *)
Definition status_ok (status : Z) : bool := (200 <=? status)%Z && (status <=? 299)%Z.

(** The browser's view of a relay's reply. *)
Definition fetched (r : Reply) : FetchOutcome :=
  FetchResponse (status_ok (reply_status r)) (reply_status r) (reply_body r).


(** A provider call that gives no completion: a transport error, a status
    outside 200-299, or a body that is not JSON. *)
Definition upstream_failed (u : Upstream) : bool :=
  match u with
  | UpstreamRejected => true
  | UpstreamResponse status _ parsed =>
      negb (status_ok status) || match parsed with Some _ => false | None => true end
  end.

End Js.

(** ** backend/index.js *)
Module RelayJs.

(** The body of the 400 answer. *)
Definition validation_error : Json :=
  JObj [("error", JStr ("Both " +:+ Js.dquote +:+ "userMessage" +:+ Js.dquote
                        +:+ " and " +:+ Js.dquote +:+ "systemPrompt" +:+ Js.dquote
                        +:+ " must be provided as strings."))].

(** The reply text written when the provider answers with an error status,
    and the one written when the call throws. *)
Definition trouble_connecting (userMessage : string) : string :=
  "I'm sorry, I'm having trouble connecting to the AI service right now. This is a fallback response. Your message was: "
  +:+ Js.dquote +:+ userMessage +:+ Js.dquote
  +:+ ". Please check your API key configuration.".

Definition technical_difficulties (userMessage : string) : string :=
  "I'm sorry, I'm experiencing technical difficulties. This is a fallback response. Your message was: "
  +:+ Js.dquote +:+ userMessage +:+ Js.dquote
  +:+ ". Please try again later.".

(** [fallbackResponse], with the two readings of the clock it makes. *)
Definition fallbackResponse (content : string) (now1 now2 : Z) : Json :=
  JObj [("id", JStr ("fallback-" +:+ Js.string_of_integer now1));
        ("object", JStr "chat.completion");
        ("created", JNum (inject_Z (now2 / 1000)));
        ("model", JStr Relay.AI_MODEL);
        ("choices",
         JArr [JObj [("index", JNum 0);
                     ("message", JObj [("role", JStr "assistant");
                                       ("content", JStr content)]);
                     ("finish_reason", JStr "stop")]]);
        ("usage", JObj [("prompt_tokens", JNum 10);
                        ("completion_tokens", JNum 20);
                        ("total_tokens", JNum 30)])].

(** The request forwarded to the provider. [referer] is the environment's
    [OPENROUTER_REFERER], if set. *)
Definition upstream_request (apiKey : string) (referer : option string)
    (upstreamBody : Json) : Request :=
  {| url := Relay.OPENROUTER_API_URL;
     method := "POST";
     headers := [("Authorization", "Bearer " +:+ apiKey);
                 ("Content-Type", "application/json");
                 ("Referer", match referer with
                             | Some (String c s) => String c s
                             | _ => "http://localhost:3000/"
                             end);
                 ("X-Title", "Crave.ai Chat App")];
     body := upstreamBody |}.

(** [app.post('/chat', ...)]: the requests sent upstream and the reply. *)
Definition chat (apiKey : string) (referer : option string)
    (upstream : Request -> Upstream) (now1 now2 : Z) (reqBody : Json)
    : list Request * Reply :=
  match JsonAccess.member "userMessage" reqBody, Relay.upstream_body reqBody with
  | Some (JStr userMessage), Some upstreamBody =>
      let req := upstream_request apiKey referer upstreamBody in
      ([req],
       match upstream req with
       | UpstreamResponse status _ parsed =>
           if negb (Js.status_ok status) then
             {| reply_status := 200;
                reply_body := fallbackResponse (trouble_connecting userMessage) now1 now2 |}
           else
             match parsed with
             | Some data => {| reply_status := 200; reply_body := data |}
             | None =>             (* [response.json()] throws: the [catch] block *)
                 {| reply_status := 200;
                    reply_body :=
                      fallbackResponse (technical_difficulties userMessage) now1 now2 |}
             end
       | UpstreamRejected =>
           {| reply_status := 200;
              reply_body := fallbackResponse (technical_difficulties userMessage) now1 now2 |}
       end)
  | _, _ => ([], {| reply_status := 400; reply_body := validation_error |})
  end.

End RelayJs.

(** ** backend/index.mjs *)
Module RelayMjs.

Definition OPENROUTER_API_URL : string := "https://openrouter.ai/api/v1/chat/completions".
Definition AI_MODEL : string := "gryphe/mythomax-l2-13b".

(** [temperature || 0.7], for the [temperature] member of the request body
    ([None] when there is none). *)
Definition temperature_or_default (temperature : option Json) : Json :=
  match temperature with
  | Some t => if Js.truthy t then t else JNum (7 # 10)
  | None => JNum (7 # 10)
  end.

Definition upstream_request (apiKey : string) (messages : Json)
    (temperature : option Json) : Request :=
  {| url := OPENROUTER_API_URL;
     method := "POST";
     headers := [("Authorization", "Bearer " +:+ apiKey);
                 ("Content-Type", "application/json")];
     body := JObj [("model", JStr AI_MODEL);
                   ("messages", messages);
                   ("temperature", temperature_or_default temperature)] |}.

(** The answer to an error status of the provider: its [message] when the
    body is JSON with a truthy one, a fixed text when it is JSON without,
    and the text of the body otherwise (also for the body [null], whose
    [message] cannot be read). *)
Definition error_body (errorText : string) (parsed : option Json) : Json :=
  match parsed with
  | Some JNull | None =>
      JObj [("error", JStr ("Error from OpenRouter API: " +:+ errorText))]
  | Some errorData =>
      match JsonAccess.member "message" errorData with
      | Some m => JObj [("error", if Js.truthy m then m
                                  else JStr "Error from OpenRouter API")]
      | None => JObj [("error", JStr "Error from OpenRouter API")]
      end
  end.

(** The answer of the outer [catch] block. *)
Definition internal_server_error : Reply :=
  {| reply_status := 500; reply_body := JObj [("error", JStr "Internal server error")] |}.

(** [app.post('/chat', ...)]: the requests sent upstream and the reply. *)
Definition chat (apiKey : string) (upstream : Request -> Upstream) (reqBody : Json)
    : list Request * Reply :=
  match JsonAccess.member "messages" reqBody with
  | Some (JArr items) =>
      let req := upstream_request apiKey (JArr items)
                   (JsonAccess.member "temperature" reqBody) in
      ([req],
       match upstream req with
       | UpstreamResponse status errorText parsed =>
           if negb (Js.status_ok status) then
             {| reply_status := status; reply_body := error_body errorText parsed |}
           else
             match parsed with
             | Some data => {| reply_status := 200; reply_body := data |}
             | None => internal_server_error
             end
       | UpstreamRejected => internal_server_error
       end)
  | _ => ([], {| reply_status := 400;
                 reply_body := JObj [("error", JStr "messages array is required.")] |})
  end.

End RelayMjs.

(* ===================================================================== *)
(** * js/app.js: the page name and the first run *)
(* ===================================================================== *)

Module Url.

(** [s.split(sep)] for a separator of one character: the segments between
    the separators, at least one. *)
Fixpoint split (sep : ascii) (s : string) : list string :=
  match s with
  | EmptyString => [EmptyString]
  | String c s' =>
      if Ascii.eqb c sep then EmptyString :: split sep s'
      else match split sep s' with
           | seg :: rest => String c seg :: rest
           | [] => [String c EmptyString]
           end
  end.

(** [getCurrentPage()] for [window.location.pathname]. [pop()] gives
    [undefined] on an empty array, and [undefined.split] throws. *)
Definition getCurrentPage (pathname : string) : Result string :=
  match last (split "/" pathname) with
  | None => Throw TypeError
  | Some segment =>
      let page := head (split "." segment) in
      Ok (match page with
          | Some (String c s) => String c s
          | _ => "index"
          end)
  end.

(** Whether a character occurs in a string. *)
Fixpoint occurs (c : ascii) (s : string) : bool :=
  match s with
  | EmptyString => false
  | String c' s' => Ascii.eqb c' c || occurs c s'
  end.

End Url.

(** The three items of the application in [localStorage]: the two of
    [LocalStorage] and the settings, as the value its text parses to. *)
Record Browser := mkBrowser {
  local : LocalStorage;
  crave_ai_settings : option Json
}.

Module Settings.

Definition DEFAULT_SETTINGS : Json := JObj [("theme", JStr "amoled")].

(** [getSettings()] *)
Definition getSettings (b : Browser) : Json :=
  match crave_ai_settings b with
  | Some v => if Js.truthy v then v else DEFAULT_SETTINGS
  | None => DEFAULT_SETTINGS
  end.

(** [saveSettings(settings)] *)
Definition saveSettings (settings : Json) (b : Browser) : Browser :=
  {| local := local b; crave_ai_settings := Some settings |}.

(** The first part of [initApp()]: each item that is missing is written
    with its empty value. *)
Definition initApp (b : Browser) : Browser :=
  let bots := match crave_ai_bots (local b) with
              | None => Some []
              | Some bots => Some bots
              end in
  let chats := match crave_ai_chats (local b) with
               | None => Some ∅
               | Some chats => Some chats
               end in
  let settings := match crave_ai_settings b with
                  | None => Some DEFAULT_SETTINGS
                  | Some v => Some v
                  end in
  {| local := {| crave_ai_bots := bots; crave_ai_chats := chats |};
     crave_ai_settings := settings |}.

(** [resetAllData()], with the answer to its confirmation dialog. *)
Definition resetAllData (confirmed : bool) (b : Browser) : Browser :=
  if confirmed then
    {| local := {| crave_ai_bots := None; crave_ai_chats := None |};
       crave_ai_settings := Some DEFAULT_SETTINGS |}
  else b.

End Settings.

(* ===================================================================== *)
(** * More sample data *)
(* ===================================================================== *)

Module Sample.

(** A browser in which the application never ran. *)
Definition never_run : Browser :=
  {| local := {| crave_ai_bots := None; crave_ai_chats := None |};
     crave_ai_settings := None |}.

(** A filled form, on a page whose preview holds no image. *)
Definition form : BotForm :=
  {| name_value := " Rex "; description_value := "A loyal dog.";
     age_category_value := "SFW (12+)"; chat_tone_value := "Funny";
     image_preview := Some None |}.

(** The bot [Example.mia] stored again under another id, with an image and
    later times. *)
Definition mia_again : Bot :=
  {| bot_id := "b2"; name := "Mia"; description := "A kind friend.";
     ageCategory := "SFW (12+)"; chatTone := "Normal"; image := Some "data:image/png;base64,AA==";
     createdAt := 3000; updatedAt := 4000 |}.

(** A backend that answers every request with a completion of one choice. *)
Definition answering (reply : string) (_ : Request) : FetchOutcome :=
  FetchResponse true 200
    (JObj [("choices",
            JArr [JObj [("message", JObj [("role", JStr "assistant");
                                          ("content", JStr reply)])]])]).

(** A provider that cannot be reached, and one that refuses the key. *)
Definition provider_down (_ : Request) : Upstream := UpstreamRejected.
Definition provider_refusing (_ : Request) : Upstream :=
  UpstreamResponse 401 "{}" (Some (JObj [("message", JStr "No auth credentials found")])).

(** A request body of the shape [backend/index.js] documents, and one of
    the shape [backend/index.mjs] reads, with the temperature 0. *)
Definition prompt_request : Json :=
  JObj [("userMessage", JStr "hi"); ("systemPrompt", JStr "You are Mia.")].
Definition window_request : Json :=
  JObj [("messages", JArr [JObj [("role", JStr "user"); ("content", JStr "hi")]]);
        ("temperature", JNum 0)].

End Sample.

(* ===================================================================== *)
(** * Properties of the array helpers *)
(* ===================================================================== *)

Local Open Scope list_scope.
Local Open Scope nat_scope.

Section ArrayFacts.
Context {A : Type}.
Implicit Types (l : list A) (i : nat).

Lemma relative_start_last (k : nat) (len : nat) :
  0 < k → JsArray.relative_start (- Z.of_nat k) len = len - k.
Proof.
  intros Hk. unfold JsArray.relative_start.
  cbv zeta. destruct (Z.ltb_spec (- Z.of_nat k) 0); cbv iota; lia.
Qed.

Lemma relative_start_index i (len : nat) :
  i ≤ len → JsArray.relative_start (Z.of_nat i) len = i.
Proof.
  intros Hi. unfold JsArray.relative_start.
  cbv zeta. destruct (Z.ltb_spec (Z.of_nat i) 0); cbv iota; lia.
Qed.

Lemma slice_last10 l : JsArray.slice (-10) l = drop (length l - 10) l.
Proof. unfold JsArray.slice. by rewrite (relative_start_last 10) by lia. Qed.

Lemma splice_to_end_index i l :
  i ≤ length l → JsArray.splice_to_end (Z.of_nat i) l = take i l.
Proof. intros Hi. unfold JsArray.splice_to_end. by rewrite relative_start_index. Qed.

Lemma splice_one_index i l :
  i < length l → JsArray.splice (Z.of_nat i) 1 l = take i l ++ drop (S i) l.
Proof.
  intros Hi. unfold JsArray.splice.
  rewrite relative_start_index by lia.
  replace (Z.to_nat (Z.min (Z.max 1 0) (Z.of_nat (length l - i)))) with 1 by lia.
  by rewrite Nat.add_1_r.
Qed.

Lemma foldl_push {B : Type} (f : B → A) (xs : list B) (acc : list A) :
  foldl (fun acc x => JsArray.push acc (f x)) acc xs = acc ++ (f <$> xs).
Proof.
  revert acc. induction xs as [|x xs IH]; intros acc; simpl.
  - by rewrite app_nil_r.
  - rewrite IH. unfold JsArray.push. by rewrite <- app_assoc.
Qed.
End ArrayFacts.

(* ===================================================================== *)
(** * The conversation window *)
(* ===================================================================== *)

Lemma prepareConversationHistory_eq bot (chatHistory : list Message) currentMessage :
  AiService.prepareConversationHistory bot chatHistory currentMessage
  = {| role := "system"; content := AiService.createPersonalityPrompt bot |}
    :: (AiService.entry_of_message <$> drop (length chatHistory - 10) chatHistory)
    ++ [ {| role := "user"; content := currentMessage |} ].
Proof.
  unfold AiService.prepareConversationHistory.
  rewrite foldl_push, slice_last10. reflexivity.
Qed.

(** C1. The window that [prepareConversationHistory] returns is the system
    entry with the compiled prompt, then the last [min (length history) 10]
    messages of the history in their order, each with its text and with the
    role [user] for sender [user] and [assistant] for sender [bot], then one
    [user] entry with the new message; it has [2 + min (length history) 10]
    entries, at most 12. *)
Theorem C1_window_is_system_recent_new
    (bot : Bot) (history : list Message) (newMessage : string) :
  let n := length history `min` 10 in
  let window := AiService.prepareConversationHistory bot history newMessage in
  (exists older recent,
      history = older ++ recent
      /\ length recent = n
      /\ window
         = [ {| role := "system"; content := AiService.createPersonalityPrompt bot |} ]
           ++ ((fun m => {| role := AiService.role_of_sender (sender m);
                            content := text m |}) <$> recent)
           ++ [ {| role := "user"; content := newMessage |} ])
  /\ AiService.role_of_sender "user" = "user"
  /\ AiService.role_of_sender "bot" = "assistant"
  /\ length window = 2 + n
  /\ length window <= 12.
Proof.
  intros n window. subst window n.
  rewrite prepareConversationHistory_eq.
  split; [|split; [reflexivity|split; [reflexivity|]]].
  - exists (take (length history - 10) history), (drop (length history - 10) history).
    split; [by rewrite take_drop|].
    split; [rewrite length_drop; lia|reflexivity].
  - simpl. rewrite length_app, length_fmap, length_drop. simpl. lia.
Qed.

(** C2. With fifteen stored messages, sending a sixteenth builds a window of
    twelve entries in which the new message stands twice: the handler stores
    the message, reads the transcript back, and hands that transcript to the
    window builder together with the same message. The history part is
    messages 7 to 15 and the new message, not messages 6 to 15. *)
Theorem C2_window_repeats_new_message :
  exists w latest,
    App.submit Example.trim "b1" "m16" 16 Example.world15 = (w, Some ("m16", latest))
    /\ latest = Example.transcript15 ++ [Example.from_user "m16" 16]
    /\ AiService.prepareConversationHistory Example.mia latest "m16"
       = [ {| role := "system"; content := AiService.createPersonalityPrompt Example.mia |} ]
         ++ (AiService.entry_of_message <$> drop 6 Example.transcript15)
         ++ [ {| role := "user"; content := "m16" |};
              {| role := "user"; content := "m16" |} ]
    /\ AiService.prepareConversationHistory Example.mia latest "m16"
       <> Spec.window_after Example.mia Example.transcript15 "m16"
    /\ length (AiService.prepareConversationHistory Example.mia latest "m16") = 12.
Proof.
  eexists _, _. split; [vm_compute; reflexivity|].
  split; [reflexivity|].
  split; [reflexivity|].
  split; [|reflexivity].
  intros H. vm_compute in H. discriminate H.
Qed.

(** The tone switch adds nothing for a tone that is none of its cases. *)
Lemma tone_clause_unknown tone :
  tone ∉ ["Normal"; "Romantic"; "Flirty"; "Spicy"] → AiService.tone_clause tone = "".
Proof.
  intros Hnot. unfold AiService.tone_clause.
  repeat match goal with
         | |- context [String.eqb tone ?t] =>
             destruct (String.eqb_spec tone t) as [->|_]; [exfalso; apply Hnot; set_solver|]
         end.
  reflexivity.
Qed.

(** C3. For a tone outside the four of the switch, [createPersonalityPrompt]
    adds no tone clause at all: the prompt goes from the description
    straight to the age clause, and differs from the prompt of the same bot
    with tone [Normal]. *)
Theorem C3_unknown_tone_has_no_clause :
  AiService.tone_clause (chatTone Example.mia_playful) = ""
  /\ AiService.tone_clause "Normal" = " Your tone is friendly, helpful, and conversational."
  /\ AiService.createPersonalityPrompt Example.mia_playful
     = "You are Mia, an AI companion with the following personality: A kind friend."
       +:+ AiService.age_clause_SFW +:+ AiService.behaviour_clause
  /\ AiService.createPersonalityPrompt Example.mia_playful
     <> AiService.createPersonalityPrompt Example.mia
  /\ AiService.getToneTemperature (chatTone Example.mia_playful)
     = AiService.getToneTemperature "Normal"
  /\ App.getWelcomeMessage Example.mia_playful = App.getWelcomeMessage Example.mia.
Proof.
  repeat split; try reflexivity.
  intros H. vm_compute in H. discriminate H.
Qed.

(* ===================================================================== *)
(** * The transcript store *)
(* ===================================================================== *)

Lemma getChatHistory_saveChatMessage botId message ls :
  Storage.getChatHistory botId (Storage.saveChatMessage botId message ls)
  = Storage.getChatHistory botId ls ++ [message].
Proof.
  unfold Storage.getChatHistory, Storage.saveChatMessage, Storage.saveAllChats,
    Storage.getAllChats, JsArray.push; simpl.
  destruct (default ∅ (crave_ai_chats ls) !! botId) as [h|] eqn:E;
    rewrite ?E; by simplify_map_eq.
Qed.

Lemma getChatHistory_saveChatMessage_ne botId other message ls :
  botId ≠ other →
  Storage.getChatHistory other (Storage.saveChatMessage botId message ls)
  = Storage.getChatHistory other ls.
Proof.
  intros Hne.
  unfold Storage.getChatHistory, Storage.saveChatMessage, Storage.saveAllChats,
    Storage.getAllChats; simpl.
  destruct (default ∅ (crave_ai_chats ls) !! botId) as [h|] eqn:E;
    by simplify_map_eq.
Qed.

Lemma getBotById_saveChatMessage id botId message ls :
  Storage.getBotById id (Storage.saveChatMessage botId message ls)
  = Storage.getBotById id ls.
Proof. reflexivity. Qed.

(* ===================================================================== *)
(** * The send round-trip *)
(* ===================================================================== *)

Section RoundTrip.
Context (trim : string → string).
Implicit Types (w : World) (bot : Bot) (net : Request → FetchOutcome).

Local Abbreviation user_message inputValue now :=
  {| sender := "user"; text := trim inputValue; timestamp := now |}.

(** The request of a send: the new message and the persona prompt. *)
Local Abbreviation posted bot userMessage :=
  {| url := "http://localhost:3000/chat";
     method := "POST";
     headers := [("Content-Type", "application/json")];
     body := JObj [("userMessage", JStr userMessage);
                   ("systemPrompt", JStr (AiService.createPersonalityPrompt bot))] |}.

Lemma submit_nonempty botId inputValue now w :
  trim inputValue ≠ "" →
  App.submit trim botId inputValue now w
  = ({| storage := Storage.saveChatMessage botId (user_message inputValue now) (storage w);
        currentChat :=
          (fun cc => {| cc_botId := cc_botId cc;
                        cc_chatHistory := cc_chatHistory cc ++ [user_message inputValue now] |})
            <$> currentChat w;
        requests := requests w |},
     Some (trim inputValue,
           Storage.getChatHistory botId (storage w) ++ [user_message inputValue now])).
Proof.
  intros Hne. unfold App.submit.
  destruct (trim inputValue) as [|c s] eqn:E; [done|].
  rewrite getChatHistory_saveChatMessage.
  by destruct (currentChat w).
Qed.

(** What the submit handler hands to the window builder: the stored
    transcript with the new message already at its end, so that the window
    ends with the new message twice. *)
Lemma window_of_send_ends_twice bot botId inputValue now w :
  trim inputValue ≠ "" →
  ∃ w' latest front,
    App.submit trim botId inputValue now w = (w', Some (trim inputValue, latest))
    ∧ latest = Storage.getChatHistory botId (storage w) ++ [user_message inputValue now]
    ∧ AiService.prepareConversationHistory bot latest (trim inputValue)
      = front ++ [ {| role := "user"; content := trim inputValue |};
                   {| role := "user"; content := trim inputValue |} ].
Proof.
  intros Hne. rewrite submit_nonempty by done.
  set (h := Storage.getChatHistory botId (storage w)).
  set (m := user_message inputValue now).
  eexists _, _,
    ({| role := "system"; content := AiService.createPersonalityPrompt bot |}
     :: (AiService.entry_of_message <$> drop (length (h ++ [m]) - 10) h)).
  split; [reflexivity|]. split; [reflexivity|].
  rewrite prepareConversationHistory_eq.
  rewrite drop_app_le by (rewrite length_app; simpl; lia).
  rewrite fmap_app. simpl. by rewrite <- app_assoc.
Qed.

Lemma chat_request_eq bot userMessage (chatHistory : list Message) :
  AiClient.chat_request bot userMessage chatHistory
  = Ok {| url := AiClient.backend_url;
          method := "POST";
          headers := [("Content-Type", "application/json")];
          body := JObj [("userMessage", JStr userMessage);
                        ("systemPrompt", JStr (AiService.createPersonalityPrompt bot))] |}.
Proof.
  unfold AiClient.chat_request.
  by rewrite prepareConversationHistory_eq.
Qed.

Lemma getAIResponse_failed net bot userMessage (chatHistory : list Message) :
  failed (net (posted bot userMessage)) = true →
  ∃ e, (AiClient.getAIResponse trim net bot userMessage chatHistory).2 = Throw e.
Proof.
  intros Hfail. unfold AiClient.getAIResponse.
  rewrite chat_request_eq. unfold AiClient.backend_url. cbn [snd].
  destruct (net (posted bot userMessage)) as [|ok st|ok st data].
  - by eexists.
  - by eexists.
  - simpl in Hfail. destruct ok; [done|]. destruct data; by eexists.
Qed.

(** Whatever makes [getAIResponse] throw, the callback leaves the store as
    it found it. *)
Lemma respond_throw_keeps_storage net bot botId messageText
    (latestHistory : list Message) now w w' e :
  App.respond trim net bot botId messageText latestHistory now w = (w', Throw e) →
  storage w' = storage w.
Proof.
  unfold App.respond.
  destruct (AiClient.getAIResponse trim net bot messageText latestHistory)
    as [sent [reply|e']]; intros [= <- _]; reflexivity.
Qed.

Lemma respond_requests net bot botId messageText (latestHistory : list Message) now w :
  requests (App.respond trim net bot botId messageText latestHistory now w).1
  = requests w
    ++ [ {| url := AiClient.backend_url;
            method := "POST";
            headers := [("Content-Type", "application/json")];
            body := JObj [("userMessage", JStr messageText);
                          ("systemPrompt", JStr (AiService.createPersonalityPrompt bot))] |} ].
Proof.
  unfold App.respond, AiClient.getAIResponse. rewrite chat_request_eq.
  match goal with |- context [net ?r] => destruct (net r) as [|ok st|ok st data] end;
    simpl; try done.
  - destruct ok; simpl; [|by destruct data].
    by destruct (AiClient.reply_text trim data).
Qed.

(** C4, as the code has it. For every send round-trip, the one request
    posted to the relay has the body [{userMessage, systemPrompt}]: the
    trimmed new message and the compiled persona prompt. It has no
    [messages] and no [temperature] member. The relay forwards
    [{model, messages}] with two entries, the system prompt followed by the
    relay's formatting instructions and the new message, and no
    temperature either. *)
Theorem C4_request_is_prompt_and_message
    net bot botId inputValue now1 now2 w :
  trim inputValue ≠ "" →
  let w' := (App.sendMessage trim net bot botId inputValue now1 now2 w).1 in
  let posted := JObj [("userMessage", JStr (trim inputValue));
                      ("systemPrompt", JStr (AiService.createPersonalityPrompt bot))] in
  requests w'
  = requests w ++ [ {| url := "http://localhost:3000/chat"; method := "POST";
                       headers := [("Content-Type", "application/json")];
                       body := posted |} ]
  ∧ JsonAccess.member "messages" posted = None
  ∧ JsonAccess.member "temperature" posted = None
  ∧ Relay.upstream_body posted
    = Some (JObj [("model", JStr "openai/gpt-3.5-turbo");
                  ("messages",
                   JArr [ JObj [("role", JStr "system");
                                ("content", JStr (AiService.createPersonalityPrompt bot
                                                  +:+ Relay.formatting_instructions))];
                          JObj [("role", JStr "user");
                                ("content", JStr (trim inputValue))] ])]).
Proof.
  intros Hne w' posted. subst w' posted.
  unfold App.sendMessage. rewrite submit_nonempty by done.
  match goal with |- context [App.respond ?t ?n ?b ?i ?m ?l ?nw ?w0] =>
    pose proof (respond_requests n b i m l nw w0) as Hreq;
    destruct (App.respond t n b i m l nw w0) as [w2 r] end.
  simpl in *. rewrite Hreq. done.
Qed.

(** C7. When the request of a send meets a transport error, an error
    status or a body that does not parse, the send stores the user message
    before the call and nothing afterwards: the submit handler leaves the
    old transcript followed by the user message, the callback ends with the
    exception and leaves the store as the submit handler left it, so the
    transcript after the send is the old one followed by the user message,
    with no message from the bot after it. *)
Theorem C7_failed_send_keeps_user_message
    net bot botId inputValue now1 now2 w :
  trim inputValue ≠ "" →
  failed (net (posted bot (trim inputValue))) = true →
  ∃ w1 latestHistory w2 e,
    App.submit trim botId inputValue now1 w = (w1, Some (trim inputValue, latestHistory))
    ∧ Storage.getChatHistory botId (storage w1)
      = Storage.getChatHistory botId (storage w) ++ [user_message inputValue now1]
    ∧ App.respond trim net bot botId (trim inputValue) latestHistory now2 w1 = (w2, Throw e)
    ∧ storage w2 = storage w1
    ∧ App.sendMessage trim net bot botId inputValue now1 now2 w = (w2, Some (Throw e))
    ∧ Storage.getChatHistory botId (storage w2)
      = Storage.getChatHistory botId (storage w) ++ [user_message inputValue now1].
Proof.
  intros Hne Hfail.
  unfold App.sendMessage. rewrite submit_nonempty by done.
  match goal with |- context [Some (trim inputValue, ?l)] => set (latest := l) end.
  match goal with |- context [(?x, Some (trim inputValue, latest))] => set (w1 := x) end.
  exists w1, latest.
  destruct (getAIResponse_failed net bot (trim inputValue) latest Hfail) as [e He].
  destruct (App.respond trim net bot botId (trim inputValue) latest now2 w1)
    as [w2 r] eqn:Hr.
  assert (r = Throw e) as ->.
  { revert Hr. unfold App.respond.
    destruct (AiClient.getAIResponse trim net bot (trim inputValue) latest)
      as [sent outcome].
    simpl in He. subst outcome. by intros [= _ <-]. }
  pose proof (respond_throw_keeps_storage _ _ _ _ _ _ _ _ _ Hr) as Hstore.
  exists w2, e.
  split; [reflexivity|].
  split; [apply getChatHistory_saveChatMessage|].
  split; [reflexivity|]. split; [exact Hstore|]. split; [reflexivity|].
  rewrite Hstore. apply getChatHistory_saveChatMessage.
Qed.
End RoundTrip.

(** C4, as stated, fails: with fifteen stored messages and a backend that
    cannot be reached, the one request posted has neither the window as a
    [messages] member nor a [temperature] member, and what the relay would
    forward for it has neither. *)
Lemma C4_request_carries_no_window :
  let w' := (App.sendMessage Example.trim Example.unreachable Example.mia "b1"
               "m16" 16 17 Example.world15).1 in
  let latest := Storage.getChatHistory "b1" (storage w') in
  let window := AiService.prepareConversationHistory Example.mia latest "m16" in
  let temperature := AiService.getToneTemperature (chatTone Example.mia) in
  ∃ req up,
    requests w' = [req]
    ∧ ¬ Spec.carries_window (body req) window temperature
    ∧ Relay.upstream_body (body req) = Some up
    ∧ ¬ Spec.carries_window up window temperature.
Proof.
  eexists _, _. split; [vm_compute; reflexivity|].
  split; [intros [H _]; vm_compute in H; discriminate H|].
  split; [vm_compute; reflexivity|].
  intros [_ H]. vm_compute in H. discriminate H.
Qed.

Lemma C4_request_is_prompt_and_message_witness :
Example.trim " m16 " ≠ ""
∧ requests (App.sendMessage Example.trim Example.unreachable Example.mia "b1"
              " m16 " 16 17 Example.world15).1
  = [ {| url := "http://localhost:3000/chat"; method := "POST";
         headers := [("Content-Type", "application/json")];
         body := JObj [("userMessage", JStr "m16");
                       ("systemPrompt",
                        JStr (AiService.createPersonalityPrompt Example.mia))] |} ].
Proof.
  split; [vm_compute; discriminate|].
  apply (C4_request_is_prompt_and_message Example.trim Example.unreachable Example.mia
           "b1" " m16 " 16 17 Example.world15).
  vm_compute; discriminate.
Defined.

Lemma C7_failed_send_keeps_user_message_witness :
  ∃ w2 e,
    App.sendMessage Example.trim Example.unreachable Example.mia "b1" " m16 " 16 17
Example.world15 = (w2, Some (Throw e))
∧ Storage.getChatHistory "b1" (storage w2)
= Example.transcript15 ++ [Example.from_user "m16" 16].
Proof.
  destruct (C7_failed_send_keeps_user_message Example.trim Example.unreachable
Example.mia "b1" " m16 " 16 17 Example.world15)
as (w1 & latest & w2 & e & _ & _ & _ & _ & Hsend & Hhist).
- vm_compute; discriminate.
- reflexivity.
- exists w2, e. split; [exact Hsend|]. exact Hhist.
Defined.

(* ===================================================================== *)
(** * Deleting messages *)
(* ===================================================================== *)

Section Delete.
Implicit Types (w : World) (history : list Message).

(** What a confirmed deletion on the open chat computes and stores. *)
Lemma handleDeleteMessage_confirmed w cc index sender :
  currentChat w = Some cc →
  cc_botId cc ≠ "" →
  let history := Storage.getChatHistory (cc_botId cc) (storage w) in
  let left := if String.eqb sender "user"
              then JsArray.splice_to_end index history
              else JsArray.splice index 1 history in
  let w' := App.handleDeleteMessage true index sender true w in
  Storage.getChatHistory (cc_botId cc) (storage w') = left
  ∧ currentChat w' = Some {| cc_botId := cc_botId cc; cc_chatHistory := left |}
  ∧ (∀ other, other ≠ cc_botId cc →
       Storage.getChatHistory other (storage w') = Storage.getChatHistory other (storage w))
  ∧ crave_ai_bots (storage w') = crave_ai_bots (storage w)
  ∧ requests w' = requests w.
Proof.
  intros Hcc Hid history left w'. subst history left w'.
  unfold App.handleDeleteMessage. rewrite Hcc.
  destruct (cc_botId cc) as [|c s] eqn:E; [done|]. simpl.
  split; [|split; [done|split; [|done]]].
  - unfold Storage.getChatHistory at 1. unfold Storage.getAllChats at 1. simpl.
    by rewrite lookup_insert_eq.
  - intros other Hother.
    unfold Storage.getChatHistory at 1. unfold Storage.getAllChats at 1. simpl.
    by rewrite lookup_insert_ne.
Qed.

(** C5. Deleting at an index [i] whose message is from the user leaves and
    stores the first [i] messages: the transcript has length [i], every
    position below [i] keeps its message, and nothing is left at [i] or
    after. *)
Theorem C5_delete_user_message_truncates w cc history i m :
  currentChat w = Some cc →
  cc_botId cc ≠ "" →
  Storage.getChatHistory (cc_botId cc) (storage w) = history →
  history !! i = Some m →
  sender m = "user" →
  let w' := App.handleDeleteMessage true (Z.of_nat i) (sender m) true w in
  let history' := Storage.getChatHistory (cc_botId cc) (storage w') in
  history' = take i history
  ∧ length history' = i
  ∧ (∀ j, j < i → history' !! j = history !! j)
  ∧ (∀ j, i ≤ j → history' !! j = None)
  ∧ (cc_chatHistory <$> currentChat w') = Some history'
  ∧ (∀ other, other ≠ cc_botId cc →
       Storage.getChatHistory other (storage w') = Storage.getChatHistory other (storage w)).
Proof.
  intros Hcc Hid Hh Hi Hs w' history'. subst w' history'.
  destruct (handleDeleteMessage_confirmed w cc (Z.of_nat i) (sender m) Hcc Hid)
    as (Hstored & Hglobal & Hothers & _).
  rewrite Hstored, Hglobal, Hh, Hs. simpl.
  apply lookup_lt_Some in Hi.
  rewrite splice_to_end_index by lia.
  split; [done|]. split; [rewrite length_take; lia|].
  split; [intros j Hj; by rewrite lookup_take_lt|].
  split; [|split; [done|by rewrite <- Hs]].
  intros j Hj. apply lookup_ge_None. rewrite length_take. lia.
Qed.

(** C6. Deleting at an index [i] whose message is from the bot removes
    that message only: the positions below [i] keep their messages, every
    later message moves down by one, and the transcript is one message
    shorter. *)
Theorem C6_delete_bot_message_removes_one w cc history i m :
  currentChat w = Some cc →
  cc_botId cc ≠ "" →
  Storage.getChatHistory (cc_botId cc) (storage w) = history →
  history !! i = Some m →
  sender m = "bot" →
  let w' := App.handleDeleteMessage true (Z.of_nat i) (sender m) true w in
  let history' := Storage.getChatHistory (cc_botId cc) (storage w') in
  history' = take i history ++ drop (S i) history
  ∧ S (length history') = length history
  ∧ (∀ j, j < i → history' !! j = history !! j)
  ∧ (∀ j, i ≤ j → history' !! j = history !! S j)
  ∧ (cc_chatHistory <$> currentChat w') = Some history'
  ∧ (∀ other, other ≠ cc_botId cc →
       Storage.getChatHistory other (storage w') = Storage.getChatHistory other (storage w)).
Proof.
  intros Hcc Hid Hh Hi Hs w' history'. subst w' history'.
  destruct (handleDeleteMessage_confirmed w cc (Z.of_nat i) (sender m) Hcc Hid)
    as (Hstored & Hglobal & Hothers & _).
  rewrite Hstored, Hglobal, Hh, Hs. simpl.
  apply lookup_lt_Some in Hi.
  rewrite splice_one_index by lia.
  split; [done|].
  split; [rewrite length_app, length_take, length_drop; lia|].
  split; [intros j Hj; rewrite lookup_app_l by (rewrite length_take; lia);
          by rewrite lookup_take_lt|].
  split; [|split; [done|by rewrite <- Hs]].
  intros j Hj. rewrite lookup_app_r by (rewrite length_take; lia).
  rewrite length_take, lookup_drop. f_equal. lia.
Qed.
End Delete.

Lemma C5_delete_user_message_truncates_witness :
  Storage.getChatHistory "b1"
    (storage (App.handleDeleteMessage true 3 "user" true Example.world15))
  = take 3 Example.transcript15.
Proof.
  apply (C5_delete_user_message_truncates Example.world15
           {| cc_botId := "b1"; cc_chatHistory := [] |}
Example.transcript15 3 (Example.from_user "m4" 4));
reflexivity || (vm_compute; discriminate).
Defined.

Lemma C6_delete_bot_message_removes_one_witness :
  Storage.getChatHistory "b1"
    (storage (App.handleDeleteMessage true 2 "bot" true Example.world15))
  = take 2 Example.transcript15 ++ drop 3 Example.transcript15.
Proof.
  apply (C6_delete_bot_message_removes_one Example.world15
           {| cc_botId := "b1"; cc_chatHistory := [] |}
Example.transcript15 2 (Example.from_bot "m3" 3));
reflexivity || (vm_compute; discriminate).
Defined.

(* ===================================================================== *)
(** * The welcome message *)
(* ===================================================================== *)

Section Welcome.
Implicit Types (w : World) (bot : Bot) (page : Page).

(** Where the fallback works: a tone that is none of the four keys and
    names no inherited property gets the [Normal] entry. *)
Lemma getWelcomeMessage_unknown bot :
  chatTone bot ∉ ["Normal"; "Romantic"; "Flirty"; "Spicy"] →
  JsObject.inherited (chatTone bot) = None →
  App.getWelcomeMessage bot = Some (JsObject.Str "How can I help you today?").
Proof.
  intros Hnot Hinh.
  unfold App.getWelcomeMessage, App.lookup_or_Normal, JsObject.or, JsObject.get,
    App.toneMessages.
  assert (chatTone bot ≠ "Normal" ∧ chatTone bot ≠ "Romantic"
          ∧ chatTone bot ≠ "Flirty" ∧ chatTone bot ≠ "Spicy") as (H1 & H2 & H3 & H4)
    by (repeat split; intros E; apply Hnot; rewrite E; set_solver).
  rewrite !(lookup_insert_ne _ _ (chatTone bot)), lookup_empty by done.
  rewrite Hinh. reflexivity.
Qed.

(** Where it does not: a tone that names an inherited property gets that
    property. *)
Lemma getWelcomeMessage_inherited bot v :
  JsObject.inherited (chatTone bot) = Some v →
  App.getWelcomeMessage bot = Some v ∧ ∀ s, v ≠ JsObject.Str s.
Proof.
  unfold App.getWelcomeMessage, App.lookup_or_Normal, JsObject.or, JsObject.get,
    JsObject.inherited.
  destruct (String.eqb_spec (chatTone bot) "constructor") as [->|_];
    [intros [= <-]; by split|].
  destruct (String.eqb_spec (chatTone bot) "__proto__") as [->|_];
    [intros [= <-]; by split|].
  case_bool_decide as Hin; [|done]. intros [= <-].
  unfold JsObject.prototype_methods in Hin.
  repeat (apply elem_of_cons in Hin as [->|Hin]; [by split|]).
  by apply elem_of_nil in Hin.
Qed.

(** Opening the chat page of a bot whose stored transcript is empty stores
    exactly one message, from sender [bot], whose text is the greeting with
    the bot's name followed by the text of what [getWelcomeMessage] gives;
    no request is sent for it; and the first message a user then submits is
    stored after it. *)
Lemma initChatPage_welcome page now w botId bot :
  has_chat_container page = true →
  has_chat_messages page = true →
  param_id page = Some botId →
  botId ≠ "" →
  Storage.getBotById botId (storage w) = Some bot →
  Storage.getChatHistory botId (storage w) = [] →
  let welcome := {| sender := "bot";
                    text := "Hello! I'm " +:+ name bot +:+ ". "
                            +:+ JsObject.template_text (App.getWelcomeMessage bot);
                    timestamp := now |} in
  ∃ w',
    App.initChatPage page now w = (w', ChatOpen bot (has_chat_form page))
    ∧ Storage.getChatHistory botId (storage w') = [welcome]
    ∧ requests w' = requests w
    ∧ (∀ trim inputValue now',
          trim inputValue ≠ "" →
          Storage.getChatHistory botId
            (storage (App.submit trim botId inputValue now' w').1)
          = [welcome; {| sender := "user"; text := trim inputValue; timestamp := now' |}]).
Proof.
  intros Hc Hm Hp Hid Hbot Hempty welcome.
  unfold App.initChatPage. rewrite Hc, Hp, Hm. simpl.
  destruct botId as [|c s]; [done|].
  rewrite Hbot, Hempty. simpl.
  eexists. split; [reflexivity|]. simpl.
  assert (Hone : Storage.getChatHistory (String c s)
                   (Storage.saveChatMessage (String c s) welcome (storage w)) = [welcome]).
  { by rewrite getChatHistory_saveChatMessage, Hempty. }
  split; [exact Hone|]. split; [reflexivity|].
  intros trim inputValue now' Hne.
  rewrite submit_nonempty by done. cbn [fst storage].
  rewrite getChatHistory_saveChatMessage.
  unfold App.set_storage. cbn [storage]. fold welcome. by rewrite Hone.
Qed.

(** C8. For a bot whose tone is [constructor], a name every object literal
    inherits, the welcome that opening the chat page stores on an empty
    transcript is not the [Normal] entry: [getWelcomeMessage] gives the
    built-in function [Object], and its text goes into the message. The
    tone lookup of [getToneTemperature] does fall back for this tone. For
    the rest the claim holds: one message from [bot] is stored, without a
    request and before any user message; the four tones get their entries;
    and every other tone that names no inherited property gets the
    [Normal] entry. *)
Theorem C8_inherited_tone_gets_no_fallback :
  let welcome := {| sender := "bot";
                    text := "Hello! I'm Mia. function Object() { [native code] }";
                    timestamp := 5 |} in
  (∃ w',
     App.initChatPage Example.chat_page 5 (Example.never_chatted Example.mia_constructor)
     = (w', ChatOpen Example.mia_constructor true)
     ∧ Storage.getChatHistory "b1" (storage w') = [welcome]
     ∧ requests w' = [])
  ∧ App.getWelcomeMessage Example.mia_constructor = Some (JsObject.NativeFunction "Object")
  ∧ App.getWelcomeMessage Example.mia = Some (JsObject.Str "How can I help you today?")
  ∧ text welcome ≠ "Hello! I'm Mia. How can I help you today?"
  ∧ AiService.getToneTemperature (chatTone Example.mia_constructor)
    = AiService.getToneTemperature "Normal"
  ∧ (∀ bot v, JsObject.inherited (chatTone bot) = Some v →
       App.getWelcomeMessage bot = Some v ∧ ∀ s, v ≠ JsObject.Str s)
  ∧ (∀ bot,
       (chatTone bot = "Normal" →
          App.getWelcomeMessage bot = Some (JsObject.Str "How can I help you today?"))
       ∧ (chatTone bot = "Romantic" →
          App.getWelcomeMessage bot
          = Some (JsObject.Str "I've been waiting for you. What would you like to talk about?"))
       ∧ (chatTone bot = "Flirty" →
          App.getWelcomeMessage bot
          = Some (JsObject.Str "Hey there! I'm so excited to chat with you. What's on your mind?"))
       ∧ (chatTone bot = "Spicy" →
          App.getWelcomeMessage bot
          = Some (JsObject.Str "Well hello there... I've been looking forward to our conversation. What are you in the mood for?"))
       ∧ (chatTone bot ∉ ["Normal"; "Romantic"; "Flirty"; "Spicy"] →
          JsObject.inherited (chatTone bot) = None →
          App.getWelcomeMessage bot = Some (JsObject.Str "How can I help you today?")))
  ∧ (∀ page now w botId bot,
       has_chat_container page = true →
       has_chat_messages page = true →
       param_id page = Some botId →
       botId ≠ "" →
       Storage.getBotById botId (storage w) = Some bot →
       Storage.getChatHistory botId (storage w) = [] →
       let stored := {| sender := "bot";
                        text := "Hello! I'm " +:+ name bot +:+ ". "
                                +:+ JsObject.template_text (App.getWelcomeMessage bot);
                        timestamp := now |} in
       ∃ w',
         App.initChatPage page now w = (w', ChatOpen bot (has_chat_form page))
         ∧ Storage.getChatHistory botId (storage w') = [stored]
         ∧ requests w' = requests w
         ∧ (∀ trim inputValue now',
               trim inputValue ≠ "" →
               Storage.getChatHistory botId
                 (storage (App.submit trim botId inputValue now' w').1)
               = [stored;
                  {| sender := "user"; text := trim inputValue; timestamp := now' |}])).
Proof.
  intros welcome.
  split; [eexists; split; [reflexivity|]; split; reflexivity|].
  split; [reflexivity|]. split; [reflexivity|].
  split; [intros H; vm_compute in H; discriminate H|].
  split; [reflexivity|].
  split; [exact getWelcomeMessage_inherited|].
  split; [|exact initChatPage_welcome].
  intros bot. unfold App.getWelcomeMessage.
  repeat split; try (intros ->; reflexivity).
  apply getWelcomeMessage_unknown.
Qed.
End Welcome.

(* ===================================================================== *)
(** * The replacement engine keeps what it is given *)
(* ===================================================================== *)

(** A property of characters that holds of the input and of everything a
    replacer writes holds of the output: matching only selects characters,
    and replacing only drops them, moves them into a replacement or keeps
    them in place. *)
Section Preservation.
Context {A : Type} (code : A → N) (P : A → Prop).
Implicit Types (s : list A) (caps : gmap nat (list A)) (k : Regex.cont (A:=A)).

Local Abbreviation captures_ok caps := (map_Forall (fun _ l => Forall P l) caps).
Local Abbreviation result_ok res := (Forall P res.1 ∧ captures_ok res.2).

(** A continuation that answers within [P] when called within [P]. *)
Local Abbreviation cont_ok k :=
  (∀ prev s caps res,
      Forall P s → captures_ok caps → k prev s caps = Some res → result_ok res).

Lemma star_greedy_ok p k s : ∀ prev caps res,
  cont_ok k → Forall P s → captures_ok caps →
  Regex.star_greedy code p k prev s caps = Some res → result_ok res.
Proof.
  induction s as [|a s IH]; intros prev caps res Hk Hs Hc; simpl.
  - by apply Hk.
  - destruct (p (code a)); [|by apply Hk].
    destruct (Regex.star_greedy code p k (Some (code a)) s caps) as [r|] eqn:E.
    + intros [= <-]. eapply IH; eauto. by inversion Hs.
    + by apply Hk.
Qed.

Lemma star_lazy_ok p k s : ∀ prev caps res,
  cont_ok k → Forall P s → captures_ok caps →
  Regex.star_lazy code p k prev s caps = Some res → result_ok res.
Proof.
  induction s as [|a s IH]; intros prev caps res Hk Hs Hc; simpl.
  - destruct (k prev [] caps) as [r|] eqn:E; [|done].
    intros [= <-]. eapply Hk; eauto.
  - destruct (k prev (a :: s) caps) as [r|] eqn:E.
    + intros [= <-]. eapply Hk; eauto.
    + destruct (p (code a)); [|done]. apply IH; auto. by inversion Hs.
Qed.

Lemma exec_ok r : ∀ prev s caps k res,
  cont_ok k → Forall P s → captures_ok caps →
  Regex.exec code r prev s caps k = Some res → result_ok res.
Proof.
  induction r as [|p|r1 IH1 r2 IH2|i r1 IH1|r1 IH1|p|p|p| |];
    intros prev s caps k res Hk Hs Hc; simpl.
  - by apply Hk.
  - destruct s as [|a s]; [done|]. destruct (p (code a)); [|done].
    apply Hk; auto. by inversion Hs.
  - apply IH1; auto. intros prev' s' caps' res' Hs' Hc'. by apply IH2.
  - apply IH1; auto. intros prev' s' caps' res' Hs' Hc'. apply Hk; auto.
    apply map_Forall_insert_2; auto. by apply Forall_take.
  - destruct (Regex.exec code r1 prev s caps k) as [r|] eqn:E.
    + intros [= <-]. eapply IH1; eauto.
    + by apply Hk.
  - destruct s as [|a s]; [done|]. destruct (p (code a)); [|done].
    apply star_greedy_ok; auto. by inversion Hs.
  - destruct s as [|a s]; [done|]. destruct (p (code a)); [|done].
    apply star_lazy_ok; auto. by inversion Hs.
  - by apply star_lazy_ok.
  - destruct (Regex.at_line_start prev); [by apply Hk|done].
  - destruct (Regex.at_line_end code s); [by apply Hk|done].
Qed.

Lemma match_at_ok r prev s n caps :
  Forall P s → Regex.match_at code r prev s = Some (n, caps) → captures_ok caps.
Proof.
  intros Hs. unfold Regex.match_at.
  destruct (Regex.exec code r prev s ∅ _) as [[rest caps']|] eqn:E; [|done].
  intros [= <- <-].
  apply exec_ok in E; auto.
  - apply map_Forall_insert_2; [by apply Forall_take|apply E].
  - intros prev' s' caps'' res Hs' Hc' [= <-]. done.
  - apply map_Forall_empty.
Qed.

Lemma replace_from_ok r f s : ∀ prev skip,
  (∀ caps, captures_ok caps → Forall P (f caps)) →
  Forall P s → Forall P (Regex.replace_from code r f prev skip s).
Proof.
  induction s as [|a s IH]; intros prev skip Hf Hs; simpl.
  - destruct skip; [|done].
    destruct (Regex.match_at code r prev []) as [[n caps]|] eqn:E; [|done].
    apply Hf, (match_at_ok _ _ _ _ _ Hs E).
  - inversion Hs as [|? ? Ha Hs']; subst.
    destruct skip as [|n]; [|by apply IH].
    destruct (Regex.match_at code r prev (a :: s)) as [[[|n] caps]|] eqn:E.
    + apply Forall_app. split; [apply Hf, (match_at_ok _ _ _ _ _ Hs E)|].
      constructor; auto.
    + apply Forall_app. split; [apply Hf, (match_at_ok _ _ _ _ _ Hs E)|auto].
    + constructor; auto.
Qed.

Lemma replace_all_ok r f s :
  (∀ caps, captures_ok caps → Forall P (f caps)) →
  Forall P s → Forall P (Regex.replace_all code r f s).
Proof. apply replace_from_ok. Qed.

Lemma trim_start_ok s : Forall P s → Forall P (Regex.trim_start code s).
Proof.
  induction s as [|a s IH]; simpl; [done|].
  intros Hs. destruct (Regex.white_space (code a)); [|done].
  apply IH. by inversion Hs.
Qed.

Lemma trim_ok s : Forall P s → Forall P (Regex.trim code s).
Proof.
  intros Hs. unfold Regex.trim.
  apply Forall_reverse, trim_start_ok, Forall_reverse, trim_start_ok, Hs.
Qed.

Context (gen : N → A).

Lemma literal_ok t : (∀ c, c ∈ t → P (gen c)) → Forall P (Regex.literal gen t).
Proof.
  intros Ht. unfold Regex.literal. apply Forall_fmap, Forall_forall.
  intros c Hc. by apply Ht.
Qed.

Lemma expand_text_ok t caps :
  (∀ c, c ∈ t → P (gen c)) → Forall P (Regex.expand gen [Regex.Text t] caps).
Proof.
  intros Ht. unfold Regex.expand. cbn [fmap list_fmap concat].
  rewrite app_nil_r. by apply literal_ok.
Qed.

(** The markup rules write no [&]. *)
Context (Hgen : ∀ c, c ≠ 38%N → P (gen c)).

Lemma literal_no_amp_ok t :
  forallb (fun c => negb (c =? 38)%N) t = true → Forall P (Regex.literal gen t).
Proof.
  intros Ht. apply literal_ok. intros c Hc. apply Hgen.
  rewrite forallb_forall in Ht. apply list_elem_of_In, Ht in Hc.
  by apply negb_true_iff, N.eqb_neq in Hc.
Qed.

Lemma expand_ok template caps :
  forallb (fun it => match it with
                     | Regex.Text t => forallb (fun c => negb (c =? 38)%N) t
                     | Regex.Ref _ => true
                     end) template = true →
  captures_ok caps → Forall P (Regex.expand gen template caps).
Proof.
  intros Ht Hc. unfold Regex.expand.
  apply Forall_concat, Forall_fmap, Forall_forall. intros it Hit.
  rewrite forallb_forall in Ht. apply list_elem_of_In, Ht in Hit.
  destruct it as [t|n]; simpl.
  - by apply literal_no_amp_ok.
  - destruct (caps !! n) as [l|] eqn:E; simpl; [|done]. by apply (Hc n).
Qed.

Lemma code_block_replacer_ok caps :
  captures_ok caps → Forall P (Format.code_block_replacer code gen caps).
Proof.
  intros Hc. unfold Format.code_block_replacer.
  repeat (apply Forall_app; split); try (by apply literal_no_amp_ok).
  - destruct (caps !! 1) as [[|c l]|] eqn:E; try (by apply literal_no_amp_ok).
    by apply (Hc 1).
  - apply trim_ok. destruct (caps !! 2) as [l|] eqn:E; simpl; [|done]. by apply (Hc 2).
Qed.

(** Replacing single characters: the characters of the set go, the others
    stay. *)
Lemma replace_all_chr_ok (Q : A → Prop) p f s :
  (∀ caps, Forall P (f caps)) →
  (∀ a, Q a → p (code a) = false → P a) →
  Forall Q s → Forall P (Regex.replace_all code (Regex.Chr p) f s).
Proof.
  intros Hf Hkeep. unfold Regex.replace_all. generalize (@None N) as prev.
  induction s as [|a s IH]; intros prev Hs; simpl; [done|].
  inversion Hs as [|? ? Ha Hs']; subst.
  unfold Regex.match_at; cbn [Regex.exec length].
  destruct (p (code a)) eqn:E.
  - replace (S (length s) - length s) with 1 by lia.
    apply Forall_app. split; [apply Hf|]. auto.
  - constructor; auto.
Qed.
End Preservation.

(* ===================================================================== *)
(** * The engine looks at code units only *)
(* ===================================================================== *)

(** Running the engine on characters of type [A] and forgetting what they
    carry besides their code unit is running it on the forgotten input. *)
Section Forget.
Context {A B : Type} (codeA : A → N) (codeB : B → N) (h : A → B).
Context (Hcode : ∀ a, codeB (h a) = codeA a).
Implicit Types (s : list A) (caps : gmap nat (list A)).

Local Abbreviation forget_caps caps := (fmap (M:=gmap nat) (fmap (M:=list) h) caps).

Local Abbreviation forget_result res :=
  (option_map (fun r : list A * gmap nat (list A) => (h <$> r.1, forget_caps r.2)) res).

Local Abbreviation cont_agree k k' :=
  (∀ prev s caps, forget_result (k prev s caps) = k' prev (h <$> s) (forget_caps caps)).

Lemma star_greedy_forget p k k' s : ∀ prev caps,
  cont_agree k k' →
  forget_result (Regex.star_greedy codeA p k prev s caps)
  = Regex.star_greedy codeB p k' prev (h <$> s) (forget_caps caps).
Proof.
  induction s as [|a s IH]; intros prev caps Hk; simpl; [apply Hk|].
  rewrite Hcode. destruct (p (codeA a)); [|apply (Hk prev (a :: s))].
  rewrite <- IH by done.
  destruct (Regex.star_greedy codeA p k (Some (codeA a)) s caps); [done|].
  apply (Hk prev (a :: s)).
Qed.

Lemma star_lazy_forget p k k' s : ∀ prev caps,
  cont_agree k k' →
  forget_result (Regex.star_lazy codeA p k prev s caps)
  = Regex.star_lazy codeB p k' prev (h <$> s) (forget_caps caps).
Proof.
  induction s as [|a s IH]; intros prev caps Hk; simpl.
  - rewrite <- (Hk prev []). by destruct (k prev [] caps).
  - rewrite <- (Hk prev (a :: s)). destruct (k prev (a :: s) caps); [done|].
    rewrite Hcode. destruct (p (codeA a)); [|done]. by apply IH.
Qed.

Lemma exec_forget r : ∀ prev s caps k k',
  cont_agree k k' →
  forget_result (Regex.exec codeA r prev s caps k)
  = Regex.exec codeB r prev (h <$> s) (forget_caps caps) k'.
Proof.
  induction r as [|p|r1 IH1 r2 IH2|i r1 IH1|r1 IH1|p|p|p| |];
    intros prev s caps k k' Hk; simpl.
  - apply Hk.
  - destruct s as [|a s]; simpl; [done|]. rewrite Hcode.
    destruct (p (codeA a)); [apply Hk|done].
  - apply IH1. intros prev' s' caps'. by apply IH2.
  - apply IH1. intros prev' s' caps'. rewrite Hk.
    by rewrite fmap_insert, fmap_take, !length_fmap.
  - rewrite <- (IH1 prev s caps k k') by done.
    destruct (Regex.exec codeA r1 prev s caps k); [done|apply Hk].
  - destruct s as [|a s]; simpl; [done|]. rewrite Hcode.
    destruct (p (codeA a)); [by apply star_greedy_forget|done].
  - destruct s as [|a s]; simpl; [done|]. rewrite Hcode.
    destruct (p (codeA a)); [by apply star_lazy_forget|done].
  - by apply star_lazy_forget.
  - destruct (Regex.at_line_start prev); [apply Hk|done].
  - replace (Regex.at_line_end codeB (h <$> s)) with (Regex.at_line_end codeA s)
      by (destruct s; simpl; by rewrite ?Hcode).
    destruct (Regex.at_line_end codeA s); [apply Hk|done].
Qed.

Lemma match_at_forget r prev s :
  option_map (fun r : nat * gmap nat (list A) => (r.1, forget_caps r.2))
    (Regex.match_at codeA r prev s)
  = Regex.match_at codeB r prev (h <$> s).
Proof.
  unfold Regex.match_at.
  rewrite <- (fmap_empty (M:=gmap nat) (fmap (M:=list) h)).
  rewrite <- (exec_forget r prev s ∅ (fun _ s' caps' => Some (s', caps'))) by done.
  destruct (Regex.exec codeA r prev s ∅ _) as [[rest caps]|]; simpl; [|done].
  by rewrite fmap_insert, fmap_take, !length_fmap.
Qed.

Lemma replace_from_forget r f f' s : ∀ prev skip,
  (∀ caps, h <$> f caps = f' (forget_caps caps)) →
  h <$> Regex.replace_from codeA r f prev skip s
  = Regex.replace_from codeB r f' prev skip (h <$> s).
Proof.
  induction s as [|a s IH]; intros prev skip Hf; simpl.
  - destruct skip; [|done].
    pose proof (match_at_forget r prev []) as Hm. simpl in Hm. rewrite <- Hm.
    destruct (Regex.match_at codeA r prev []) as [[n caps]|]; simpl; [apply Hf|done].
  - rewrite Hcode. destruct skip as [|n]; [|by apply IH].
    pose proof (match_at_forget r prev (a :: s)) as Hm. simpl in Hm. rewrite <- Hm.
    destruct (Regex.match_at codeA r prev (a :: s)) as [[[|n] caps]|]; simpl.
    + by rewrite fmap_app, Hf, fmap_cons, IH.
    + by rewrite fmap_app, Hf, IH.
    + by rewrite IH.
Qed.

Lemma replace_all_forget r f f' s :
  (∀ caps, h <$> f caps = f' (forget_caps caps)) →
  h <$> Regex.replace_all codeA r f s = Regex.replace_all codeB r f' (h <$> s).
Proof. apply replace_from_forget. Qed.

Lemma trim_start_forget s :
  h <$> Regex.trim_start codeA s = Regex.trim_start codeB (h <$> s).
Proof.
  induction s as [|a s IH]; simpl; [done|]. rewrite Hcode.
  by destruct (Regex.white_space (codeA a)).
Qed.

Lemma trim_forget s : h <$> Regex.trim codeA s = Regex.trim codeB (h <$> s).
Proof.
  unfold Regex.trim.
  by rewrite fmap_reverse, trim_start_forget, fmap_reverse, trim_start_forget.
Qed.

Context (genA : N → A) (genB : N → B) (Hgen : ∀ c, h (genA c) = genB c).

Lemma literal_forget t : h <$> Regex.literal genA t = Regex.literal genB t.
Proof.
  unfold Regex.literal. rewrite <- list_fmap_compose.
  apply list_fmap_ext. intros _ c _. apply Hgen.
Qed.

Lemma expand_forget template caps :
  h <$> Regex.expand genA template caps = Regex.expand genB template (forget_caps caps).
Proof.
  unfold Regex.expand. induction template as [|it template IH]; [done|].
  rewrite !fmap_cons. cbn [concat]. rewrite fmap_app, IH. f_equal.
  destruct it as [t|n].
  - apply literal_forget.
  - rewrite lookup_fmap. by destruct (caps !! n).
Qed.

Lemma code_block_replacer_forget caps :
  h <$> Format.code_block_replacer codeA genA caps
  = Format.code_block_replacer codeB genB (forget_caps caps).
Proof.
  unfold Format.code_block_replacer.
  rewrite !lookup_fmap.
  destruct (caps !! 1) as [[|c l]|]; destruct (caps !! 2) as [body|];
    cbn [fmap option_fmap option_map list_fmap default];
    rewrite !fmap_app, !literal_forget, ?trim_forget; reflexivity.
Qed.

Lemma format_forget s :
  h <$> Format.format codeA genA s = Format.format codeB genB (h <$> s).
Proof.
  unfold Format.format, Format.markup, Format.line_breaks, Format.italic, Format.bold,
    Format.headers, Format.inline_code, Format.code_blocks, Format.escape_html.
  repeat (first [ erewrite replace_all_forget; [f_equal|] | reflexivity ]);
    intros caps; (apply expand_forget || apply code_block_replacer_forget).
Qed.
End Forget.

(* ===================================================================== *)
(** * The formatter *)
(* ===================================================================== *)

Section FormatFacts.
Local Open Scope N_scope.
Local Abbreviation code := (fst : N * Format.origin → N).
Local Abbreviation gen := (fun c : N => (c, Format.Written)).

(** A character copied from the message is none of the codes [xs]. *)
Local Abbreviation none_of xs :=
  (fun a : N * Format.origin => a.2 = Format.FromMessage → a.1 ∉ (xs : list N)).

Lemma written_none_of xs c : none_of xs (gen c).
Proof. done. Qed.

Lemma none_of_cons x xs (a : N * Format.origin) p :
  (p → none_of xs a) → Regex.just x a.1 = false → p → none_of (x :: xs) a.
Proof.
  intros Ha Hx Hp Hm Hin. unfold Regex.just in Hx. apply N.eqb_neq in Hx.
  apply elem_of_cons in Hin as [Heq|Hin]; [done|]. by apply Ha.
Qed.

Lemma escape_html_traced msg :
  Forall (none_of [62; 60; 38]) (Format.escape_html code gen (Format.traced msg)).
Proof.
  unfold Format.escape_html, Format.re_amp, Format.re_lt, Format.re_gt.
  apply (replace_all_chr_ok code _ (none_of [60; 38]));
    [intros caps; apply expand_text_ok; intros c _; apply written_none_of | |].
  { intros a Ha Hp. by apply (none_of_cons _ _ _ True). }
  apply (replace_all_chr_ok code _ (none_of [38]));
    [intros caps; apply expand_text_ok; intros c _; apply written_none_of | |].
  { intros a Ha Hp. by apply (none_of_cons _ _ _ True). }
  apply (replace_all_chr_ok code _ (fun _ => True));
    [intros caps; apply expand_text_ok; intros c _; apply written_none_of | |].
  { intros a _ Hp. apply (none_of_cons _ _ _ True); [|done..].
    intros _ _ Hin. by apply elem_of_nil in Hin. }
  by apply Forall_true.
Qed.

Lemma format_traced_none_of msg :
  Forall (none_of [62; 60; 38]) (Format.format_traced msg).
Proof.
  unfold Format.format_traced, Format.format, Format.markup, Format.line_breaks,
    Format.italic, Format.bold, Format.headers, Format.inline_code, Format.code_blocks.
  do 8 (apply replace_all_ok;
          [intros caps Hc;
           first [ apply expand_ok; [intros c _; apply written_none_of|reflexivity|exact Hc]
                 | apply code_block_replacer_ok; [intros c _; apply written_none_of|exact Hc] ]
          |]).
  apply escape_html_traced.
Qed.

Lemma format_traced_forget msg :
  fst <$> Format.format_traced msg = Format.format (fun c => c) (fun c => c) msg.
Proof.
  unfold Format.format_traced.
  rewrite (format_forget fst (fun c => c) fst (fun _ => eq_refl)
             gen (fun c => c) (fun _ => eq_refl)).
  f_equal. unfold Format.traced. rewrite <- list_fmap_compose. apply list_fmap_id.
Qed.
End FormatFacts.

(* ===================================================================== *)
(** * A match ends inside its input *)
(* ===================================================================== *)

Section Suffix.
Context {A : Type} (code : A → N).
Implicit Types (s : list A) (caps : gmap nat (list A)) (k : Regex.cont (A:=A)).

(** A successful run is a successful call of the continuation on a suffix
    of the input. *)
Local Abbreviation reaches k s res :=
  (∃ prev' s' caps', s' `suffix_of` s ∧ k prev' s' caps' = Some res).

Lemma star_greedy_suffix p k s : ∀ prev caps res,
  Regex.star_greedy code p k prev s caps = Some res → reaches k s res.
Proof.
  induction s as [|a s IH]; intros prev caps res; simpl.
  - intros H. by exists prev, [], caps.
  - destruct (p (code a)); [|intros H; by exists prev, (a :: s), caps].
    destruct (Regex.star_greedy code p k (Some (code a)) s caps) as [r|] eqn:E.
    + intros [= <-]. destruct (IH _ _ _ E) as (prev' & s' & caps' & Hs & Hk).
      exists prev', s', caps'. split; [by apply suffix_cons_r|done].
    + intros H. by exists prev, (a :: s), caps.
Qed.

Lemma star_lazy_suffix p k s : ∀ prev caps res,
  Regex.star_lazy code p k prev s caps = Some res → reaches k s res.
Proof.
  induction s as [|a s IH]; intros prev caps res; simpl.
  - destruct (k prev [] caps) as [r|] eqn:E; [|done].
    intros [= <-]. by exists prev, [], caps.
  - destruct (k prev (a :: s) caps) as [r|] eqn:E.
    + intros [= <-]. by exists prev, (a :: s), caps.
    + destruct (p (code a)); [|done]. intros H.
      destruct (IH _ _ _ H) as (prev' & s' & caps' & Hs & Hk).
      exists prev', s', caps'. split; [by apply suffix_cons_r|done].
Qed.

Lemma exec_suffix r : ∀ prev s caps k res,
  Regex.exec code r prev s caps k = Some res → reaches k s res.
Proof.
  induction r as [|p|r1 IH1 r2 IH2|i r1 IH1|r1 IH1|p|p|p| |];
    intros prev s caps k res; simpl.
  - intros H. by exists prev, s, caps.
  - destruct s as [|a s]; [done|]. destruct (p (code a)); [|done].
    intros H. exists (Some (code a)), s, caps. split; [by apply suffix_cons_r|done].
  - intros H. destruct (IH1 _ _ _ _ _ H) as (prev1 & s1 & caps1 & Hs1 & H1).
    destruct (IH2 _ _ _ _ _ H1) as (prev2 & s2 & caps2 & Hs2 & H2).
    exists prev2, s2, caps2. split; [by etrans|done].
  - intros H. destruct (IH1 _ _ _ _ _ H) as (prev1 & s1 & caps1 & Hs1 & H1).
    by eexists prev1, s1, _.
  - destruct (Regex.exec code r1 prev s caps k) as [r|] eqn:E.
    + intros [= <-]. by eapply IH1.
    + intros H. by exists prev, s, caps.
  - destruct s as [|a s]; [done|]. destruct (p (code a)); [|done].
    intros H. destruct (star_greedy_suffix _ _ _ _ _ _ H) as (prev' & s' & caps' & Hs & Hk).
    exists prev', s', caps'. split; [by apply suffix_cons_r|done].
  - destruct s as [|a s]; [done|]. destruct (p (code a)); [|done].
    intros H. destruct (star_lazy_suffix _ _ _ _ _ _ H) as (prev' & s' & caps' & Hs & Hk).
    exists prev', s', caps'. split; [by apply suffix_cons_r|done].
  - apply star_lazy_suffix.
  - destruct (Regex.at_line_start prev); [|done]. intros H. by exists prev, s, caps.
  - destruct (Regex.at_line_end code s); [|done]. intros H. by exists prev, s, caps.
Qed.

Lemma match_at_suffix r prev s n caps :
  Regex.match_at code r prev s = Some (n, caps) →
  ∃ rest caps', rest `suffix_of` s ∧ n = length s - length rest
                ∧ caps = <[0 := take n s]> caps'
                ∧ Regex.exec code r prev s ∅ (fun _ s' c => Some (s', c)) = Some (rest, caps').
Proof.
  unfold Regex.match_at.
  destruct (Regex.exec code r prev s ∅ _) as [[rest caps']|] eqn:E; [|done].
  intros [= <- <-].
  destruct (exec_suffix _ _ _ _ _ _ E) as (prev' & s' & caps'' & Hs & [= -> ->]).
  by exists rest, caps'.
Qed.
End Suffix.

(* ===================================================================== *)
(** * Matches keep entities whole *)
(* ===================================================================== *)

(** The engine run on the text of a list of tokens does what it does on the
    tokens, for patterns that are [Entity.safe]: the text of the result on
    tokens is the result on the text. *)
Section Glue.
Local Open Scope N_scope.
Implicit Types (t : Entity.token) (ts : list Entity.token) (p : N → bool)
  (caps : gmap nat (list Entity.token)).

Local Abbreviation codeT := (fst : Entity.token → N).
Local Abbreviation codeC := (fun c : N => c).
Local Abbreviation wf := (fun t : Entity.token => Entity.well_formed t = true).
Local Abbreviation is_inner := (fun c : N => Entity.inner c = true).
Local Abbreviation flat_caps caps := (fmap (M:=gmap nat) Entity.flat caps).
Local Abbreviation flat_result res :=
  (option_map (fun r : list Entity.token * gmap nat (list Entity.token) =>
                 (Entity.flat r.1, flat_caps r.2)) res).

(** The character before the position after [tail]. *)
Local Abbreviation after prev tail :=
  (match last (tail : list N) with Some c => Some c | None => prev end).

(** Two positions of which both or none start a line. *)
Local Abbreviation same_line pt pc :=
  (Regex.at_line_start pt = Regex.at_line_start pc).

(** A continuation that fails before an inner character of an entity. *)
Local Abbreviation kstrict kc :=
  (∀ prev c s ccaps, Entity.inner c = true → kc prev (c :: s) ccaps = None).

(** Continuations that agree on the suffixes of [ts]. *)
Local Abbreviation agree ts kt kc :=
  (∀ pt pc ts' caps, ts' `suffix_of` ts → same_line pt pc →
     flat_result (kt pt ts' caps) = kc pc (Entity.flat ts') (flat_caps caps)).

Lemma flat_cons t ts : Entity.flat (t :: ts) = t.1 :: t.2 ++ Entity.flat ts.
Proof. reflexivity. Qed.

Lemma flat_app ts1 ts2 : Entity.flat (ts1 ++ ts2) = Entity.flat ts1 ++ Entity.flat ts2.
Proof. unfold Entity.flat. apply bind_app. Qed.

Lemma inner_cases c :
  Entity.inner c = true →
  c ≠ 38 ∧ Regex.line_terminator c = false ∧ Regex.white_space c = false.
Proof.
  unfold Entity.inner, Entity.inner_chars. simpl.
  rewrite !orb_true_iff, !N.eqb_eq. intros Hc.
  repeat destruct Hc as [Hc|Hc]; subst; done.
Qed.

(** The two shapes of a well-formed token. *)
Lemma wf_cases t :
  wf t → (t.2 = [] ∧ t.1 ≠ 38) ∨ (t.1 = 38 ∧ t.2 ≠ [] ∧ Forall is_inner t.2).
Proof.
  destruct t as [c tail]. unfold Entity.well_formed. simpl.
  destruct tail as [|x tail].
  - rewrite negb_true_iff, N.eqb_neq. by left.
  - rewrite andb_true_iff, N.eqb_eq, !orb_true_iff.
    intros [-> Htail]. right. split; [done|]. split; [done|].
    repeat destruct Htail as [Htail|Htail]; try done;
      apply bool_decide_eq_true in Htail; rewrite <- Htail;
      repeat constructor.
Qed.

Lemma wf_plain_or_amp t : wf t → t.1 ≠ 38 → t.2 = [].
Proof. intros Ht Hc. by destruct (wf_cases t Ht) as [[? ?]|[? ?]]. Qed.

Lemma after_same_line t : wf t → same_line (Some t.1) (after (Some t.1) t.2).
Proof.
  intros Ht. destruct (wf_cases t Ht) as [[-> _]|(Hc & Hne & Hin)]; [done|].
  destruct (last t.2) as [c|] eqn:E; [|done].
  apply last_Some in E as [l Hl]. rewrite Hl in Hin.
  apply Forall_app in Hin as [_ Hin].
  inversion Hin as [|? ? Hx _]; subst. apply inner_cases in Hx as (_ & Hx & _).
  simpl. by rewrite Hc, Hx.
Qed.

Lemma after_cons prev c (tail : list N) : after prev (c :: tail) = after (Some c) tail.
Proof.
  destruct tail as [|x tail]; [done|]. rewrite last_cons_cons.
  destruct (last (x :: tail)) eqn:E; [done|]. by apply last_None in E.
Qed.

(** On the text, a repetition that takes the inner characters passes over
    them when its continuation is strict. *)
Lemma star_greedy_skip p (kc : Regex.cont (A:=N)) tail : ∀ prev rest ccaps,
  Forall is_inner tail → Entity.accepts_inner p = true → kstrict kc →
  Regex.star_greedy codeC p kc prev (tail ++ rest) ccaps
  = Regex.star_greedy codeC p kc (after prev tail) rest ccaps.
Proof.
  induction tail as [|c tail IH]; intros prev rest ccaps Hin Hp Hk; [done|].
  inversion Hin as [|? ? Hc Hin']; subst.
  rewrite after_cons. cbn [app Regex.star_greedy].
  assert (p c = true) as ->.
  { unfold Entity.accepts_inner in Hp. rewrite forallb_forall in Hp. apply Hp.
    unfold Entity.inner in Hc. apply existsb_exists in Hc as (x & Hx & Hcx).
    apply N.eqb_eq in Hcx. by subst. }
  rewrite IH by done. rewrite (Hk prev c) by done.
  by destruct (Regex.star_greedy _ _ _ _ _ _).
Qed.

Lemma star_lazy_skip p (kc : Regex.cont (A:=N)) tail : ∀ prev rest ccaps,
  Forall is_inner tail → Entity.accepts_inner p = true → kstrict kc →
  Regex.star_lazy codeC p kc prev (tail ++ rest) ccaps
  = Regex.star_lazy codeC p kc (after prev tail) rest ccaps.
Proof.
  induction tail as [|c tail IH]; intros prev rest ccaps Hin Hp Hk; [done|].
  inversion Hin as [|? ? Hc Hin']; subst.
  rewrite after_cons. cbn [app Regex.star_lazy].
  assert (p c = true) as ->.
  { unfold Entity.accepts_inner in Hp. rewrite forallb_forall in Hp. apply Hp.
    unfold Entity.inner in Hc. apply existsb_exists in Hc as (x & Hx & Hcx).
    apply N.eqb_eq in Hcx. by subst. }
  rewrite (Hk prev c) by done. by apply IH.
Qed.

Lemma loop_condition p ks (kc : Regex.cont (A:=N)) :
  negb (p 38) || Entity.accepts_inner p && ks = true →
  (ks = true → kstrict kc) →
  p 38 = true → Entity.accepts_inner p = true ∧ kstrict kc.
Proof.
  intros Hg Hks Hp. rewrite Hp in Hg. simpl in Hg.
  apply andb_true_iff in Hg as [Ha ->]. split; [done|by apply Hks].
Qed.

(** Passing over the rest of a token. *)
Lemma star_greedy_skip_token p (kc : Regex.cont (A:=N)) t rest ccaps :
  wf t → p t.1 = true → (p 38 = true → Entity.accepts_inner p = true ∧ kstrict kc) →
  Regex.star_greedy codeC p kc (Some t.1) (t.2 ++ rest) ccaps
  = Regex.star_greedy codeC p kc (after (Some t.1) t.2) rest ccaps.
Proof.
  intros Ht Hp Hk. destruct (wf_cases t Ht) as [[-> _]|(Hc & _ & Hin)]; [done|].
  rewrite Hc in Hp. destruct (Hk Hp). by apply star_greedy_skip.
Qed.

Lemma star_lazy_skip_token p (kc : Regex.cont (A:=N)) t rest ccaps :
  wf t → p t.1 = true → (p 38 = true → Entity.accepts_inner p = true ∧ kstrict kc) →
  Regex.star_lazy codeC p kc (Some t.1) (t.2 ++ rest) ccaps
  = Regex.star_lazy codeC p kc (after (Some t.1) t.2) rest ccaps.
Proof.
  intros Ht Hp Hk. destruct (wf_cases t Ht) as [[-> _]|(Hc & _ & Hin)]; [done|].
  rewrite Hc in Hp. destruct (Hk Hp). by apply star_lazy_skip.
Qed.

Lemma star_greedy_sim p kt kc ts : ∀ pt pc caps,
  Forall wf ts →
  (p 38 = true → Entity.accepts_inner p = true ∧ kstrict kc) →
  agree ts kt kc → same_line pt pc →
  flat_result (Regex.star_greedy codeT p kt pt ts caps)
  = Regex.star_greedy codeC p kc pc (Entity.flat ts) (flat_caps caps).
Proof.
  induction ts as [|t ts IH]; intros pt pc caps Hwf Hp Hk Hl.
  - simpl. by apply Hk.
  - inversion Hwf as [|? ? Ht Hwf']; subst.
    rewrite flat_cons. cbn [Regex.star_greedy].
    destruct (p t.1) eqn:Ep; [|by apply (Hk pt pc (t :: ts))].
    rewrite star_greedy_skip_token by done.
    rewrite <- (IH (Some t.1) (after (Some t.1) t.2) caps); try done.
    + destruct (Regex.star_greedy codeT p kt (Some t.1) ts caps); [done|].
      by apply (Hk pt pc (t :: ts)).
    + intros pt' pc' ts' caps' Hs. apply Hk. by apply suffix_cons_r.
    + by apply after_same_line.
Qed.

Lemma star_lazy_sim p kt kc ts : ∀ pt pc caps,
  Forall wf ts →
  (p 38 = true → Entity.accepts_inner p = true ∧ kstrict kc) →
  agree ts kt kc → same_line pt pc →
  flat_result (Regex.star_lazy codeT p kt pt ts caps)
  = Regex.star_lazy codeC p kc pc (Entity.flat ts) (flat_caps caps).
Proof.
  induction ts as [|t ts IH]; intros pt pc caps Hwf Hp Hk Hl.
  - simpl. rewrite <- (Hk pt pc []) by done. by destruct (kt pt [] caps).
  - inversion Hwf as [|? ? Ht Hwf']; subst.
    rewrite flat_cons. cbn [Regex.star_lazy].
    rewrite <- flat_cons, <- (Hk pt pc (t :: ts)) by done.
    destruct (kt pt (t :: ts) caps); [done|]. simpl.
    destruct (p t.1) eqn:Ep; [|done].
    rewrite star_lazy_skip_token by done.
    apply IH; try done.
    + intros pt' pc' ts' caps' Hs. apply Hk. by apply suffix_cons_r.
    + by apply after_same_line.
Qed.

(** What [Entity.strict] computes. *)
Lemma strict_sound r : ∀ ks (kc : Regex.cont (A:=N)),
  Entity.strict r ks = true → (ks = true → kstrict kc) →
  kstrict (fun prev s ccaps => Regex.exec codeC r prev s ccaps kc).
Proof.
  assert (Hrej : ∀ p c, Entity.rejects_inner p = true → Entity.inner c = true → p c = false).
  { intros p c Hp Hc. unfold Entity.rejects_inner in Hp. rewrite forallb_forall in Hp.
    unfold Entity.inner in Hc. apply existsb_exists in Hc as (x & Hx & Hcx).
    apply N.eqb_eq in Hcx. subst. by apply negb_true_iff, Hp. }
  induction r as [|p|r1 IH1 r2 IH2|i r1 IH1|r1 IH1|p|p|p| |];
    intros ks kc Hs Hk prev c s ccaps Hc; simpl in *.
  - by apply Hk.
  - by rewrite (Hrej p c).
  - apply (IH1 (Entity.strict r2 ks)); [done| |done].
    intros Hs2 prev' c' s' ccaps' Hc'. by apply (IH2 ks).
  - apply (IH1 ks); [done| |done].
    intros Hks prev' c' s' ccaps' Hc'. by apply Hk.
  - apply andb_true_iff in Hs as [Hs ->].
    rewrite (IH1 true kc) by auto. by apply Hk.
  - by rewrite (Hrej p c).
  - by rewrite (Hrej p c).
  - apply andb_true_iff in Hs as [-> Hs].
    rewrite (Hk eq_refl) by done. by rewrite (Hrej p c).
  - destruct (Regex.at_line_start prev); [by apply Hk|done].
  - apply inner_cases in Hc as (_ & -> & _). done.
Qed.

Lemma flat_take_suffix ts ts' :
  ts' `suffix_of` ts →
  Entity.flat (take (length ts - length ts') ts)
  = take (length (Entity.flat ts) - length (Entity.flat ts')) (Entity.flat ts).
Proof.
  intros [pre ->]. rewrite flat_app, !length_app.
  replace (length pre + length ts' - length ts')%nat with (length pre) by lia.
  replace (length (Entity.flat pre) + length (Entity.flat ts') - length (Entity.flat ts'))%nat
    with (length (Entity.flat pre)) by lia.
  by rewrite !take_app_length.
Qed.

Lemma exec_sim r : ∀ ks pt pc ts caps kt kc,
  Entity.glued r ks = true → Forall wf ts → (ks = true → kstrict kc) →
  agree ts kt kc → same_line pt pc →
  flat_result (Regex.exec codeT r pt ts caps kt)
  = Regex.exec codeC r pc (Entity.flat ts) (flat_caps caps) kc.
Proof.
  induction r as [|p|r1 IH1 r2 IH2|i r1 IH1|r1 IH1|p|p|p| |];
    intros ks pt pc ts caps kt kc Hg Hwf Hks Hk Hl; simpl in Hg.
  - simpl. by apply Hk.
  - destruct ts as [|t ts]; [done|].
    inversion Hwf as [|? ? Ht Hwf']; subst.
    rewrite flat_cons. simpl. destruct (p t.1) eqn:Ep; [|done].
    rewrite (wf_plain_or_amp t) by (try done; intros E; rewrite E in Ep; by rewrite Ep in Hg).
    apply Hk; [by apply suffix_cons_r|done].
  - apply andb_true_iff in Hg as [Hg1 Hg2]. simpl.
    apply (IH1 (Entity.strict r2 ks)); try done.
    + intros Hs. by apply (strict_sound r2 ks).
    + intros pt' pc' ts' caps' Hs Hl'. apply (IH2 ks); try done.
      * destruct Hs as [pre ->]. by apply Forall_app in Hwf as [_ ?].
      * intros pt'' pc'' ts'' caps'' Hs'. apply Hk. by etrans.
  - simpl. apply (IH1 ks); try done.
    + intros Hs prev c s ccaps Hc. by apply Hks.
    + intros pt' pc' ts' caps' Hs Hl'.
      rewrite (Hk pt' pc' ts') by done.
      by rewrite fmap_insert, flat_take_suffix.
  - simpl. rewrite <- (IH1 ks pt pc ts caps kt kc) by done.
    destruct (Regex.exec codeT r1 pt ts caps kt); [done|]. by apply Hk.
  - destruct ts as [|t ts]; [done|].
    inversion Hwf as [|? ? Ht Hwf']; subst.
    rewrite flat_cons. simpl. destruct (p t.1) eqn:Ep; [|done].
    pose proof (loop_condition p ks kc Hg Hks) as Hp.
    rewrite star_greedy_skip_token by done.
    apply star_greedy_sim; try done.
    + intros pt' pc' ts' caps' Hs. apply Hk. by apply suffix_cons_r.
    + by apply after_same_line.
  - destruct ts as [|t ts]; [done|].
    inversion Hwf as [|? ? Ht Hwf']; subst.
    rewrite flat_cons. simpl. destruct (p t.1) eqn:Ep; [|done].
    pose proof (loop_condition p ks kc Hg Hks) as Hp.
    rewrite star_lazy_skip_token by done.
    apply star_lazy_sim; try done.
    + intros pt' pc' ts' caps' Hs. apply Hk. by apply suffix_cons_r.
    + by apply after_same_line.
  - simpl. apply star_lazy_sim; try done. by apply (loop_condition p ks).
  - simpl. rewrite <- Hl. destruct (Regex.at_line_start pt) eqn:E; [|done].
    apply Hk; [done|by rewrite E].
  - simpl.
    replace (Regex.at_line_end codeC (Entity.flat ts)) with (Regex.at_line_end codeT ts)
      by (by destruct ts).
    destruct (Regex.at_line_end codeT ts); [|done]. by apply Hk.
Qed.

Lemma wf_tail_inner t : wf t → Forall is_inner t.2.
Proof. intros Ht. destruct (wf_cases t Ht) as [[-> _]|(_ & _ & Hin)]; [constructor|done]. Qed.

Lemma match_at_sim r pt pc ts :
  Entity.glued r false = true → Forall wf ts → same_line pt pc →
  Regex.match_at codeC r pc (Entity.flat ts)
  = option_map (fun x : nat * gmap nat (list Entity.token) =>
                  (length (Entity.flat (take x.1 ts)), flat_caps x.2))
      (Regex.match_at codeT r pt ts).
Proof.
  intros Hg Hwf Hl.
  destruct (Regex.match_at codeT r pt ts) as [[n caps]|] eqn:E.
  - apply match_at_suffix in E as (rest & caps' & Hs & -> & -> & E).
    unfold Regex.match_at.
    rewrite <- (fmap_empty (M:=gmap nat) Entity.flat).
    rewrite <- (exec_sim r false pt pc ts ∅ (fun _ s' c => Some (s', c))) by done.
    rewrite E. simpl.
    rewrite fmap_insert, !flat_take_suffix by done.
    rewrite length_take. do 3 f_equal. lia.
  - unfold Regex.match_at in *.
    rewrite <- (fmap_empty (M:=gmap nat) Entity.flat).
    rewrite <- (exec_sim r false pt pc ts ∅ (fun _ s' c => Some (s', c))) by done.
    by destruct (Regex.exec codeT r pt ts ∅ _) as [[rest caps]|].
Qed.

(** On the text, the search passes over the characters of a match ... *)
Lemma replace_from_skip r f pre : ∀ prev m (s : list N),
  Regex.replace_from codeC r f prev (length pre + m) (pre ++ s)
  = Regex.replace_from codeC r f (after prev pre) m s.
Proof.
  induction pre as [|c pre IH]; intros prev m s; [done|].
  rewrite after_cons. simpl. apply IH.
Qed.

(** ... and copies the inner characters of an entity. *)
Lemma replace_from_copy r f tail : ∀ prev (s : list N),
  Entity.strict r false = true → Forall is_inner tail →
  Regex.replace_from codeC r f prev 0 (tail ++ s)
  = tail ++ Regex.replace_from codeC r f (after prev tail) 0 s.
Proof.
  induction tail as [|c tail IH]; intros prev s Hs Hin; [done|].
  inversion Hin as [|? ? Hc Hin']; subst.
  rewrite after_cons. cbn [app Regex.replace_from]. unfold Regex.match_at.
  rewrite (strict_sound r false (fun _ s' c => Some (s', c)) Hs) by done.
  by rewrite IH.
Qed.

Lemma replace_from_sim r ft fc ts : ∀ pt pc skip,
  Entity.safe r = true →
  (∀ caps, map_Forall (fun _ l => Forall wf l) caps →
           Entity.flat (ft caps) = fc (flat_caps caps)) →
  Forall wf ts → same_line pt pc → (skip ≤ length ts)%nat →
  Entity.flat (Regex.replace_from codeT r ft pt skip ts)
  = Regex.replace_from codeC r fc pc (length (Entity.flat (take skip ts))) (Entity.flat ts).
Proof.
  intros pt pc skip Hsafe Hf. apply andb_true_iff in Hsafe as [Hg Hstrict].
  revert pt pc skip.
  induction ts as [|t ts IH]; intros pt pc skip Hwf Hl Hskip.
  - destruct skip; [|simpl in Hskip; lia]. simpl.
    pose proof (match_at_sim r pt pc [] Hg Hwf Hl) as Hm. simpl in Hm. rewrite Hm.
    destruct (Regex.match_at codeT r pt []) as [[n caps]|] eqn:E; [|done].
    simpl. apply Hf. exact (match_at_ok fst _ r pt [] _ caps Hwf E).
  - inversion Hwf as [|? ? Ht Hwf']; subst.
    assert (Hrest : ∀ n, (n ≤ length ts)%nat →
      Entity.flat (Regex.replace_from codeT r ft (Some t.1) n ts)
      = Regex.replace_from codeC r fc (Some t.1)
          (length t.2 + length (Entity.flat (take n ts))) (t.2 ++ Entity.flat ts)).
    { intros n Hn. rewrite replace_from_skip. apply IH; [done| |done].
      by apply after_same_line. }
    assert (Hcopy :
      Entity.flat (t :: Regex.replace_from codeT r ft (Some t.1) 0 ts)
      = t.1 :: Regex.replace_from codeC r fc (Some t.1) 0 (t.2 ++ Entity.flat ts)).
    { rewrite flat_cons.
      rewrite (replace_from_copy r fc t.2 (Some t.1) (Entity.flat ts) Hstrict
                 (wf_tail_inner t Ht)).
      do 2 f_equal. change 0%nat with (length (Entity.flat (take 0 ts))).
      apply IH; [done| |simpl; lia]. by apply after_same_line. }
    destruct skip as [|n].
    + cbn [take Entity.flat length]. rewrite flat_cons.
      cbn [Regex.replace_from].
      pose proof (match_at_sim r pt pc (t :: ts) Hg Hwf Hl) as Hm.
      rewrite flat_cons in Hm. rewrite Hm.
      destruct (Regex.match_at codeT r pt (t :: ts)) as [[[|n] caps]|] eqn:E.
      * cbn [option_map fst snd take]. change (length (Entity.flat [])) with 0%nat.
        cbn iota. rewrite flat_app, Hcopy. f_equal. apply Hf.
        exact (match_at_ok fst _ r pt (t :: ts) _ caps Hwf E).
      * cbn [option_map fst snd]. rewrite firstn_cons, flat_cons.
        cbn [length]. rewrite length_app. cbn iota.
        rewrite flat_app, Hrest.
        -- f_equal. apply Hf.
        exact (match_at_ok fst _ r pt (t :: ts) _ caps Hwf E).
        -- apply match_at_suffix in E as (rest & _ & _ & Hn & _). simpl in Hn. lia.
      * cbn [option_map]. by rewrite <- Hcopy.
    + rewrite firstn_cons, !flat_cons. cbn [length Regex.replace_from].
      rewrite length_app. apply Hrest. simpl in Hskip. lia.
Qed.

Lemma replace_all_sim r ft fc ts :
  Entity.safe r = true →
  (∀ caps, map_Forall (fun _ l => Forall wf l) caps →
           Entity.flat (ft caps) = fc (flat_caps caps)) →
  Forall wf ts →
  Entity.flat (Regex.replace_all codeT r ft ts)
  = Regex.replace_all codeC r fc (Entity.flat ts).
Proof.
  intros Hsafe Hf Hwf. unfold Regex.replace_all.
  by rewrite (replace_from_sim r ft fc ts None None 0) by (try done; lia).
Qed.

(** The text of a list of tokens read backwards. *)
Local Abbreviation flat_rev ts :=
  (mbind (M:=list) (fun t : Entity.token => reverse t.2 ++ [t.1]) ts).

Lemma reverse_flat ts : reverse (Entity.flat ts) = flat_rev (reverse ts).
Proof.
  induction ts as [|t ts IH]; [done|].
  rewrite flat_cons, !reverse_cons, reverse_app, bind_app, IH.
  simpl. by rewrite app_nil_r, <- app_assoc.
Qed.

Lemma reverse_flat_rev ts : reverse (flat_rev ts) = Entity.flat (reverse ts).
Proof.
  induction ts as [|t ts IH]; [done|].
  rewrite reverse_cons, flat_app. cbn [mbind list_bind].
  rewrite reverse_app, IH, reverse_app, reverse_involutive. simpl.
  by rewrite app_nil_r.
Qed.

Lemma trim_start_flat ts :
  Forall wf ts →
  Regex.trim_start codeC (Entity.flat ts) = Entity.flat (Regex.trim_start codeT ts).
Proof.
  induction ts as [|t ts IH]; intros Hwf; [done|].
  inversion Hwf as [|? ? Ht Hwf']; subst.
  rewrite flat_cons. cbn [Regex.trim_start].
  destruct (Regex.white_space t.1) eqn:E; [|done].
  rewrite (wf_plain_or_amp t)
    by (try done; intros E38; rewrite E38 in E; vm_compute in E; done).
  by apply IH.
Qed.

Lemma trim_start_flat_rev ts :
  Forall wf ts →
  Regex.trim_start codeC (flat_rev ts) = flat_rev (Regex.trim_start codeT ts).
Proof.
  induction ts as [|t ts IH]; intros Hwf; [done|].
  inversion Hwf as [|? ? Ht Hwf']; subst.
  cbn [mbind list_bind Regex.trim_start].
  destruct (wf_cases t Ht) as [[Ht2 _]|(Hc & Hne & Hin)].
  - rewrite Ht2. cbn [reverse rev_append app Regex.trim_start].
    destruct (Regex.white_space t.1); [by apply IH|].
    cbn [mbind list_bind]. by rewrite Ht2.
  - rewrite Hc. change (Regex.white_space 38) with false. cbn iota.
    destruct (exists_last Hne) as (l & c & Hl).
    rewrite Hl in Hin. apply Forall_app in Hin as [_ Hin].
    inversion Hin as [|? ? Hx _]; subst. apply inner_cases in Hx as (_ & _ & Hx).
    cbn [mbind list_bind]. rewrite Hl, Hc, reverse_app. simpl. by rewrite Hx.
Qed.

Lemma trim_sim ts :
  Forall wf ts → Entity.flat (Regex.trim codeT ts) = Regex.trim codeC (Entity.flat ts).
Proof.
  intros Hwf. unfold Regex.trim.
  rewrite trim_start_flat, reverse_flat by done.
  rewrite trim_start_flat_rev by by apply Forall_reverse, trim_start_ok.
  by rewrite reverse_flat_rev.
Qed.

Lemma literal_sim l : Entity.flat (Regex.literal Entity.plain l) = Regex.literal codeC l.
Proof.
  unfold Regex.literal. rewrite list_fmap_id.
  induction l as [|c l IH]; [done|]. rewrite fmap_cons, flat_cons. simpl. by rewrite IH.
Qed.

Lemma expand_sim template caps :
  Entity.flat (Regex.expand Entity.plain template caps)
  = Regex.expand codeC template (flat_caps caps).
Proof.
  unfold Regex.expand. induction template as [|it template IH]; [done|].
  rewrite !fmap_cons. cbn [concat]. rewrite flat_app, IH. f_equal.
  destruct it as [l|n]; [apply literal_sim|].
  rewrite lookup_fmap. by destruct (caps !! n).
Qed.

Lemma code_block_replacer_sim caps :
  map_Forall (fun _ l => Forall wf l) caps →
  Entity.flat (Format.code_block_replacer codeT Entity.plain caps)
  = Format.code_block_replacer codeC codeC (flat_caps caps).
Proof.
  intros Hc. unfold Format.code_block_replacer.
  rewrite !lookup_fmap, !flat_app, !literal_sim, trim_sim.
  - destruct (caps !! 1%nat) as [[|c l]|]; destruct (caps !! 2%nat) as [body|];
      cbn [fmap option_fmap option_map default]; rewrite ?literal_sim; reflexivity.
  - destruct (caps !! 2%nat) as [body|] eqn:E; simpl; [by apply (Hc 2%nat)|done].
Qed.

Lemma plain_wf c : c ≠ 38 → wf (Entity.plain c).
Proof. intros Hc. unfold Entity.well_formed. simpl. by apply negb_true_iff, N.eqb_neq. Qed.

(** A rule with a replacement string, on tokens and on their text. *)
Lemma rule_sim r template ts :
  Entity.safe r = true →
  forallb (fun it => match it with
                     | Regex.Text l => forallb (fun c => negb (c =? 38)) l
                     | Regex.Ref _ => true
                     end) template = true →
  Forall wf ts →
  Forall wf (Regex.replace_all codeT r (Regex.expand Entity.plain template) ts)
  ∧ Entity.flat (Regex.replace_all codeT r (Regex.expand Entity.plain template) ts)
    = Regex.replace_all codeC r (Regex.expand codeC template) (Entity.flat ts).
Proof.
  intros Hr Ht Hwf. split.
  - apply replace_all_ok; [|done]. intros caps Hc.
    apply expand_ok; [apply plain_wf|done..].
  - apply replace_all_sim; [done| |done]. intros caps _. apply expand_sim.
Qed.

Lemma markup_sim ts :
  Forall wf ts →
  Forall wf (Format.markup codeT Entity.plain ts)
  ∧ Entity.flat (Format.markup codeT Entity.plain ts)
    = Format.markup codeC codeC (Entity.flat ts).
Proof.
  intros Hwf. unfold Format.markup, Format.line_breaks, Format.italic, Format.bold,
    Format.headers, Format.inline_code.
  assert (Hcb : Forall wf (Format.code_blocks codeT Entity.plain ts)
                ∧ Entity.flat (Format.code_blocks codeT Entity.plain ts)
                  = Format.code_blocks codeC codeC (Entity.flat ts)).
  { unfold Format.code_blocks. split.
    - apply replace_all_ok; [|done]. intros caps Hc.
      apply code_block_replacer_ok; [apply plain_wf|done].
    - apply replace_all_sim; [done| |done]. apply code_block_replacer_sim. }
  destruct Hcb as [Hwf0 <-].
  destruct (rule_sim Format.re_inline_code Format.inline_code_template _
              eq_refl eq_refl Hwf0) as [Hwf1 <-].
  destruct (rule_sim (Format.re_header "###") (Format.tag_template "h5") _
              eq_refl eq_refl Hwf1) as [Hwf2 <-].
  destruct (rule_sim (Format.re_header "##") (Format.tag_template "h4") _
              eq_refl eq_refl Hwf2) as [Hwf3 <-].
  destruct (rule_sim (Format.re_header "#") (Format.tag_template "h3") _
              eq_refl eq_refl Hwf3) as [Hwf4 <-].
  destruct (rule_sim Format.re_bold (Format.tag_template "strong") _
              eq_refl eq_refl Hwf4) as [Hwf5 <-].
  destruct (rule_sim Format.re_italic (Format.tag_template "em") _
              eq_refl eq_refl Hwf5) as [Hwf6 <-].
  destruct (rule_sim Format.re_newline [Regex.Text (codes "<br>")] _
              eq_refl eq_refl Hwf6) as [Hwf7 <-].
  done.
Qed.

(** Replacing the characters of a set one by one. *)
Lemma replace_all_chr_bind p f (s : list N) :
  Regex.replace_all codeC (Regex.Chr p) f s
  = s ≫= (fun c => if p c then f (<[0%nat := [c]]> ∅) else [c]).
Proof.
  unfold Regex.replace_all. generalize (@None N) as prev.
  induction s as [|c s IH]; intros prev; [done|].
  cbn [Regex.replace_from mbind list_bind]. unfold Regex.match_at.
  cbn [Regex.exec length].
  destruct (p c).
  - replace (S (length s) - length s)%nat with 1%nat by lia. by rewrite IH.
  - by rewrite IH.
Qed.

Lemma escape_tokens_wf msg : Forall wf (Entity.escape_tokens msg).
Proof.
  unfold Entity.escape_tokens. apply Forall_fmap, Forall_true. intros c. simpl.
  destruct (c =? 38) eqn:E1; [done|]. destruct (c =? 60); [done|].
  destruct (c =? 62); [done|]. unfold Entity.well_formed. simpl. by rewrite E1.
Qed.

Lemma escape_tokens_flat msg :
  Entity.flat (Entity.escape_tokens msg) = Format.escape_html codeC codeC msg.
Proof.
  unfold Format.escape_html, Format.re_amp, Format.re_lt, Format.re_gt.
  rewrite !replace_all_chr_bind.
  induction msg as [|c msg IH]; [done|].
  change (c :: msg) with ([c] ++ msg).
  unfold Entity.escape_tokens. rewrite fmap_app, flat_app.
  fold (Entity.escape_tokens msg). rewrite IH, !bind_app. f_equal.
  destruct (N.eqb_spec c 38) as [->|H1]; [vm_compute; reflexivity|].
  destruct (N.eqb_spec c 60) as [->|H2]; [vm_compute; reflexivity|].
  destruct (N.eqb_spec c 62) as [->|H3]; [vm_compute; reflexivity|].
  apply N.eqb_neq in H1, H2, H3. unfold Regex.just.
  cbn [fmap list_fmap mbind list_bind app]. rewrite H1.
  cbn [mbind list_bind app]. rewrite H2.
  cbn [mbind list_bind app]. by rewrite H3.
Qed.

Lemma entities_intact_inner tail (s : list N) :
  Forall is_inner tail → Entity.entities_intact (tail ++ s) = Entity.entities_intact s.
Proof.
  induction tail as [|c tail IH]; intros Hin; [done|].
  inversion Hin as [|? ? Hc Hin']; subst.
  apply inner_cases in Hc as (Hc & _). apply N.eqb_neq in Hc.
  cbn [app Entity.entities_intact]. rewrite Hc. by apply IH.
Qed.

Lemma entities_intact_flat ts :
  Forall wf ts → Entity.entities_intact (Entity.flat ts) = true.
Proof.
  induction ts as [|t ts IH]; intros Hwf; [done|].
  inversion Hwf as [|? ? Ht Hwf']; subst.
  rewrite flat_cons. cbn [Entity.entities_intact].
  rewrite entities_intact_inner by by apply wf_tail_inner.
  rewrite IH by done. rewrite andb_true_r.
  destruct (t.1 =? 38) eqn:E; [|done].
  unfold Entity.well_formed in Ht. destruct t.2 as [|x tail] eqn:Et.
  - by rewrite E in Ht.
  - apply andb_true_iff in Ht as [_ Ht].
    apply existsb_exists in Ht as (y & Hy & Hyt). apply bool_decide_eq_true in Hyt.
    apply existsb_exists. exists y. split; [done|].
    apply bool_decide_eq_true. rewrite Hyt. apply take_app_length.
Qed.
End Glue.

(** The formatter's result is the text of well-formed tokens: every [&] in
    it is followed by the rest of an entity. *)
Lemma format_entities_intact msg :
  Entity.entities_intact (Format.format (fun c => c) (fun c => c) msg) = true.
Proof.
  unfold Format.format. rewrite <- escape_tokens_flat.
  destruct (markup_sim (Entity.escape_tokens msg) (escape_tokens_wf msg)) as [Hwf <-].
  by apply entities_intact_flat.
Qed.


(* ===================================================================== *)
(** * The formatter never throws *)
(* ===================================================================== *)

(** A successful run of a pattern keeps the captures it was given and adds
    those of its groups; a group that is no part of an optional pattern has
    its capture at the end. *)
Section Captures.
Context {A : Type} (code : A → N).
Implicit Types (s : list A) (caps : gmap nat (list A)) (k : Regex.cont (A:=A)).

Local Abbreviation keeps caps caps' :=
  (∀ i : nat, is_Some (caps !! i) → is_Some (caps' !! i)).

Lemma star_greedy_caps p k s : ∀ prev caps res,
  Regex.star_greedy code p k prev s caps = Some res →
  ∃ prev' s', k prev' s' caps = Some res.
Proof.
  induction s as [|a s IH]; intros prev caps res; simpl; [by eauto|].
  destruct (p (code a)); [|by eauto].
  destruct (Regex.star_greedy code p k (Some (code a)) s caps) as [r|] eqn:E;
    [|by eauto].
  intros [= <-]. by eapply IH.
Qed.

Lemma star_lazy_caps p k s : ∀ prev caps res,
  Regex.star_lazy code p k prev s caps = Some res →
  ∃ prev' s', k prev' s' caps = Some res.
Proof.
  induction s as [|a s IH]; intros prev caps res; simpl.
  - destruct (k prev [] caps) as [r|] eqn:E; [|done]. intros [= <-]. eauto.
  - destruct (k prev (a :: s) caps) as [r|] eqn:E; [intros [= <-]; eauto|].
    destruct (p (code a)); [|done]. apply IH.
Qed.

Lemma exec_keeps r : ∀ prev s caps k res,
  Regex.exec code r prev s caps k = Some res →
  ∃ prev' s' caps', k prev' s' caps' = Some res ∧ keeps caps caps'.
Proof.
  induction r as [|p|r1 IH1 r2 IH2|i r1 IH1|r1 IH1|p|p|p| |];
    intros prev s caps k res; simpl.
  - intros H. by exists prev, s, caps.
  - destruct s as [|a s]; [done|]. destruct (p (code a)); [|done].
    intros H. by exists (Some (code a)), s, caps.
  - intros H. destruct (IH1 _ _ _ _ _ H) as (prev1 & s1 & caps1 & H1 & K1).
    destruct (IH2 _ _ _ _ _ H1) as (prev2 & s2 & caps2 & H2 & K2).
    exists prev2, s2, caps2. split; [done|]. intros j Hj. by apply K2, K1.
  - intros H. destruct (IH1 _ _ _ _ _ H) as (prev1 & s1 & caps1 & H1 & K1).
    eexists prev1, s1, _. split; [exact H1|]. intros j Hj.
    apply lookup_insert_is_Some. destruct (decide (i = j)); [by left|right].
    split; [done|]. by apply K1.
  - destruct (Regex.exec code r1 prev s caps k) as [r|] eqn:E.
    + intros [= <-]. by eapply IH1.
    + intros H. by exists prev, s, caps.
  - destruct s as [|a s]; [done|]. destruct (p (code a)); [|done].
    intros H. destruct (star_greedy_caps _ _ _ _ _ _ H) as (prev' & s' & Hk).
    by exists prev', s', caps.
  - destruct s as [|a s]; [done|]. destruct (p (code a)); [|done].
    intros H. destruct (star_lazy_caps _ _ _ _ _ _ H) as (prev' & s' & Hk).
    by exists prev', s', caps.
  - intros H. destruct (star_lazy_caps _ _ _ _ _ _ H) as (prev' & s' & Hk).
    by exists prev', s', caps.
  - destruct (Regex.at_line_start prev); [|done]. intros H. by exists prev, s, caps.
  - destruct (Regex.at_line_end code s); [|done]. intros H. by exists prev, s, caps.
Qed.

Lemma exec_cat r1 r2 prev s caps k res :
  Regex.exec code (Regex.Cat r1 r2) prev s caps k = Some res →
  ∃ prev' s' caps', Regex.exec code r2 prev' s' caps' k = Some res.
Proof.
  cbn [Regex.exec]. intros H.
  destruct (exec_keeps _ _ _ _ _ _ H) as (prev' & s' & caps' & Hk & _). eauto.
Qed.

Lemma exec_cat_group i r1 r2 prev s caps k res :
  Regex.exec code (Regex.Cat (Regex.Grp i r1) r2) prev s caps k = Some res →
  ∃ prev' s' caps', Regex.exec code r2 prev' s' caps' k = Some res ∧ is_Some (caps' !! i).
Proof.
  cbn [Regex.exec]. intros H.
  destruct (exec_keeps _ _ _ _ _ _ H) as (prev' & s' & caps' & Hk & _).
  eexists prev', s', _. split; [exact Hk|]. by rewrite lookup_insert_eq.
Qed.

(** Every match of the code-block pattern has its second capture. *)
Lemma code_block_captures prev s n caps :
  Regex.match_at code Format.re_code_block prev s = Some (n, caps) →
  is_Some (caps !! 2).
Proof.
  unfold Regex.match_at, Format.re_code_block.
  destruct (Regex.exec code _ prev s ∅ _) as [[rest caps']|] eqn:E; [|done].
  intros [= <- <-]. cbn [Format.seq foldr] in E.
  destruct (exec_cat _ _ _ _ _ _ _ E) as (p1 & s1 & c1 & E1).
  destruct (exec_cat _ _ _ _ _ _ _ E1) as (p2 & s2 & c2 & E2).
  destruct (exec_cat _ _ _ _ _ _ _ E2) as (p3 & s3 & c3 & E3).
  destruct (exec_cat_group _ _ _ _ _ _ _ _ E3) as (p4 & s4 & c4 & E4 & H2).
  destruct (exec_keeps _ _ _ _ _ _ E4) as (p5 & s5 & c5 & E5 & K5).
  injection E5 as <- <-.
  apply lookup_insert_is_Some. right. split; [done|]. by apply K5.
Qed.
End Captures.

Section Totality.
Implicit Types (s : list N) (caps : gmap nat (list N)).

Local Abbreviation self := (fun c : N => c).

(** A replacer that returns on the captures of every match never makes the
    replacement throw. *)
Lemma replace_from_returns r f f0 :
  (∀ prev s n caps, Regex.match_at self r prev s = Some (n, caps) → f caps = Ok (f0 caps)) →
  ∀ s prev skip,
    Raising.replace_from r f prev skip s = Ok (Regex.replace_from self r f0 prev skip s).
Proof.
  intros Hf. induction s as [|a s IH]; intros prev skip.
  - cbn [Raising.replace_from Regex.replace_from]. destruct skip; [|done].
    destruct (Regex.match_at self r prev []) as [[n caps]|] eqn:E; [|done].
    by apply (Hf prev [] n).
  - cbn [Raising.replace_from Regex.replace_from]. destruct skip as [|m]; [|apply IH].
    destruct (Regex.match_at self r prev (a :: s)) as [[[|n] caps]|] eqn:E.
    + rewrite (Hf _ _ _ _ E), IH. reflexivity.
    + rewrite (Hf _ _ _ _ E), IH. reflexivity.
    + rewrite IH. reflexivity.
Qed.

Lemma replace_all_returns r f f0 s :
  (∀ prev s n caps, Regex.match_at self r prev s = Some (n, caps) → f caps = Ok (f0 caps)) →
  Raising.replace_all r f s = Ok (Regex.replace_all self r f0 s).
Proof. intros Hf. by apply replace_from_returns. Qed.

Lemma replace_all_template r t s :
  Raising.replace_all r (Raising.template t) s
  = Ok (Regex.replace_all self r (Regex.expand self t) s).
Proof. by apply replace_all_returns. Qed.

Lemma code_block_replacer_returns caps :
  is_Some (caps !! 2) →
  Raising.code_block_replacer caps = Ok (Format.code_block_replacer self self caps).
Proof.
  intros [code Hcode].
  unfold Raising.code_block_replacer, Format.code_block_replacer, Regex.literal.
  rewrite Hcode, !list_fmap_id. cbn [default].
  destruct (caps !! 1) as [[|c l]|]; by rewrite ?list_fmap_id, <- ?app_assoc.
Qed.

Lemma format_returns s : Raising.format s = Ok (Format.format self self s).
Proof.
  unfold Raising.format, Format.format, Format.markup, Format.line_breaks, Format.italic,
    Format.bold, Format.headers, Format.inline_code, Format.code_blocks,
    Format.escape_html.
  do 3 (rewrite replace_all_template; cbn [Raising.bind]).
  rewrite (replace_all_returns Format.re_code_block Raising.code_block_replacer
             (Format.code_block_replacer self self))
    by (intros prev s' n caps H; by eapply code_block_replacer_returns, code_block_captures).
  cbn [Raising.bind].
  do 6 (rewrite replace_all_template; cbn [Raising.bind]).
  by rewrite replace_all_template.
Qed.

(** C10. [formatMessage] never throws. For a value whose [typeof] is not
    [string] the guard returns the empty string before any call is made;
    the statements after it would throw on every such value that is no
    object. For a string every call returns, the replacer of the code-block
    rule too, since its second group is part of every match; the result is
    the formatted text. *)
Theorem C10_formatMessage_never_throws (msg : JsValue) :
  Raising.formatMessage msg = Ok (formatMessage msg)
  ∧ (∃ out, formatMessage msg = VString out)
  ∧ if String.eqb (typeof msg) "string"
    then ∃ s, msg = VString s
              ∧ Raising.format s = Ok (Format.format (fun c => c) (fun c => c) s)
              ∧ formatMessage msg = VString (Format.format (fun c => c) (fun c => c) s)
    else formatMessage msg = VString []
         ∧ ((∀ fields, msg ≠ VObject fields) → Raising.body msg = Throw TypeError).
Proof.
  destruct msg; cbn [typeof String.eqb Ascii.eqb Bool.eqb negb formatMessage
                     Raising.formatMessage Raising.body];
    try (split; [reflexivity|]; split; [by eexists|]; by split).
  rewrite format_returns. cbn [Raising.bind].
  split; [reflexivity|]. split; [by eexists|].
  eexists. split; [reflexivity|]. split; [apply format_returns|reflexivity].
Qed.
End Totality.

(* ===================================================================== *)
(** * The bot collection *)
(* ===================================================================== *)

Section BotStoreFacts.
Implicit Types (bot : Bot) (bots : list Bot) (ls : LocalStorage) (id : string).

Local Abbreviation find_bot id bots :=
  (List.find (fun bot => String.eqb (bot_id bot) id) bots).

Lemma findIndex_None id bots :
  BotStore.findIndex id bots = None → find_bot id bots = None.
Proof.
  induction bots as [|b bots IH]; simpl; [done|].
  destruct (String.eqb (bot_id b) id); [done|].
  destruct (BotStore.findIndex id bots); [done|]. auto.
Qed.

Lemma find_bot_app_None id bots bots' :
  find_bot id bots = None → find_bot id (bots ++ bots') = find_bot id bots'.
Proof.
  induction bots as [|b bots IH]; simpl; [done|].
  destruct (String.eqb (bot_id b) id); [done|]. auto.
Qed.

Lemma find_bot_insert id bots i bot :
  BotStore.findIndex (bot_id bot) bots = Some i →
  find_bot id (<[i := bot]> bots)
  = if String.eqb (bot_id bot) id then Some bot else find_bot id bots.
Proof.
  revert i. induction bots as [|b bots IH]; intros i; simpl; [done|].
  destruct (String.eqb_spec (bot_id b) (bot_id bot)) as [Eb|Eb].
  - intros [= <-]. simpl. rewrite Eb. by destruct (String.eqb (bot_id bot) id).
  - destruct (BotStore.findIndex (bot_id bot) bots) as [j|] eqn:Ej; [|done].
    intros [= <-]. simpl. rewrite (IH j) by done.
    destruct (String.eqb_spec (bot_id b) id) as [E1|E1];
      destruct (String.eqb_spec (bot_id bot) id) as [E2|E2]; congruence.
Qed.

Lemma findIndex_lt id bots i : BotStore.findIndex id bots = Some i → i < length bots.
Proof.
  revert i. induction bots as [|b bots IH]; intros i; simpl; [done|].
  destruct (String.eqb (bot_id b) id); [intros [= <-]; lia|].
  destruct (BotStore.findIndex id bots) as [j|]; [|done].
  intros [= <-]. specialize (IH j eq_refl). lia.
Qed.

(** What [getBotById] finds after [saveBot]. *)
Lemma getBotById_saveBot id bot ls :
  Storage.getBotById id (BotStore.saveBot bot ls)
  = if String.eqb (bot_id bot) id then Some bot else Storage.getBotById id ls.
Proof.
  unfold BotStore.saveBot, Storage.getBotById.
  destruct (BotStore.findIndex (bot_id bot) (Storage.getAllBots ls)) as [i|] eqn:E;
    unfold Storage.getAllBots at 1; simpl.
  - by apply find_bot_insert.
  - unfold JsArray.push. destruct (String.eqb_spec (bot_id bot) id) as [<-|Hne].
    + rewrite find_bot_app_None by by apply findIndex_None.
      simpl. by rewrite String.eqb_refl.
    + destruct (find_bot id (Storage.getAllBots ls)) as [b|] eqn:Ef.
      * clear E. revert Ef. generalize (Storage.getAllBots ls) as bots.
        induction bots as [|b' bots IH]; simpl; [done|].
        destruct (String.eqb (bot_id b') id); [done|]. auto.
      * rewrite find_bot_app_None by done. simpl.
        by destruct (String.eqb_spec (bot_id bot) id).
Qed.

(** X1. A saved bot is found again under its id, whatever the store held;
    the bots of the other ids are found as before, and the chats are not
    touched. *)
Theorem X1_saveBot_then_getBotById bot ls :
  Storage.getBotById (bot_id bot) (BotStore.saveBot bot ls) = Some bot
  ∧ (∀ id, id ≠ bot_id bot →
       Storage.getBotById id (BotStore.saveBot bot ls) = Storage.getBotById id ls)
  ∧ crave_ai_chats (BotStore.saveBot bot ls) = crave_ai_chats ls.
Proof.
  split; [|split].
  - by rewrite getBotById_saveBot, String.eqb_refl.
  - intros id Hne. rewrite getBotById_saveBot.
    by destruct (String.eqb_spec (bot_id bot) id).
  - unfold BotStore.saveBot. by destruct (BotStore.findIndex _ _).
Qed.

(** X2. [saveBot] replaces in place when the id is known and appends when
    it is new: the collection keeps its size in the first case and grows by
    one in the second, and the bot sits at the place of the first bot with
    its id, or at the end. *)
Theorem X2_saveBot_replaces_or_appends bot ls :
  let before := Storage.getAllBots ls in
  let after := Storage.getAllBots (BotStore.saveBot bot ls) in
  match Storage.getBotById (bot_id bot) ls with
  | Some old =>
      length after = length before
      ∧ ∃ i, before !! i = Some old ∧ after = <[i := bot]> before
  | None => after = before ++ [bot]
  end.
Proof.
  intros before after. subst before after.
  unfold BotStore.saveBot, Storage.getBotById.
  generalize (Storage.getAllBots ls) as bots. intros bots.
  destruct (BotStore.findIndex (bot_id bot) bots) as [i|] eqn:E.
  - assert (∃ old, find_bot (bot_id bot) bots = Some old ∧ bots !! i = Some old)
      as (old & -> & Hi).
    { clear ls. revert i E. induction bots as [|b bots IH]; intros i; simpl; [done|].
      destruct (String.eqb (bot_id b) (bot_id bot)); [intros [= <-]; eauto|].
      destruct (BotStore.findIndex (bot_id bot) bots) as [j|]; [|done].
      intros [= <-]. destruct (IH j eq_refl) as (old & ? & ?). eauto. }
    unfold Storage.getAllBots; simpl. split; [apply length_insert|eauto].
  - by rewrite (findIndex_None _ _ E).
Qed.
End BotStoreFacts.

Section DeleteBotFacts.
Implicit Types (bot : Bot) (bots : list Bot) (ls : LocalStorage) (id : string).

Local Abbreviation find_bot id bots :=
  (List.find (fun bot => String.eqb (bot_id bot) id) bots).
Local Abbreviation without id bots :=
  (List.filter (fun bot => negb (String.eqb (bot_id bot) id)) bots).

Lemma without_length id bots : length (without id bots) ≤ length bots.
Proof.
  induction bots as [|b bots IH]; simpl; [done|].
  destruct (String.eqb (bot_id b) id); simpl; lia.
Qed.

Lemma without_absent id bots : find_bot id bots = None → without id bots = bots.
Proof.
  induction bots as [|b bots IH]; simpl; [done|].
  destruct (String.eqb (bot_id b) id); simpl; [done|]. intros H. by rewrite IH.
Qed.

Lemma without_present id bots b :
  find_bot id bots = Some b → length (without id bots) < length bots.
Proof.
  induction bots as [|b' bots IH]; simpl; [done|].
  destruct (String.eqb (bot_id b') id); simpl.
  - intros _. pose proof (without_length id bots). lia.
  - intros H. specialize (IH H). lia.
Qed.

Lemma find_bot_without id other bots :
  find_bot other (without id bots)
  = if String.eqb id other then None else find_bot other bots.
Proof.
  induction bots as [|b bots IH]; simpl; [by destruct (String.eqb id other)|].
  destruct (String.eqb_spec (bot_id b) id) as [E|E]; simpl.
  - rewrite IH. destruct (String.eqb_spec id other) as [E'|E']; [done|].
    by destruct (String.eqb_spec (bot_id b) other); [congruence|].
  - rewrite IH. destruct (String.eqb_spec id other) as [E'|E'].
    + by destruct (String.eqb_spec (bot_id b) other); [congruence|].
    + done.
Qed.

(** X3. [deleteBot] answers [true] exactly when a bot with the id is
    stored. Then no bot with that id is left, its chat history is gone, and
    every other bot and every other chat history is as before. When no bot
    has the id, the whole store is left as it is, even a chat history
    stored under that id. *)
Theorem X3_deleteBot_cascades id ls :
  let result := BotStore.deleteBot id ls in
  match Storage.getBotById id ls with
  | Some _ =>
      result.1 = true
      ∧ Storage.getBotById id result.2 = None
      ∧ Storage.getChatHistory id result.2 = []
      ∧ (∀ other, other ≠ id →
           Storage.getBotById other result.2 = Storage.getBotById other ls
           ∧ Storage.getChatHistory other result.2 = Storage.getChatHistory other ls)
  | None => result = (false, ls)
  end.
Proof.
  intros result. subst result. unfold BotStore.deleteBot, Storage.getBotById.
  destruct (find_bot id (Storage.getAllBots ls)) as [b|] eqn:E.
  - apply without_present in E. apply Nat.ltb_lt in E. rewrite E. simpl.
    split; [done|]. unfold Storage.getAllBots at 1; simpl.
    split; [by rewrite find_bot_without, String.eqb_refl|].
    unfold Storage.getChatHistory, Storage.getAllChats; simpl.
    split; [by rewrite lookup_delete_eq|].
    intros other Hne. split.
    + unfold Storage.getAllBots at 1; simpl. rewrite find_bot_without.
      by destruct (String.eqb_spec id other); [congruence|].
    + by rewrite lookup_delete_ne.
  - rewrite (without_absent _ _ E), Nat.ltb_irrefl. done.
Qed.
End DeleteBotFacts.

(* ===================================================================== *)
(** * The create and edit forms *)
(* ===================================================================== *)

Section FormFacts.
Context (trim : string → string).
Implicit Types (form : BotForm) (ls : LocalStorage) (bot : Bot).

(** X4. The create form stores nothing when the trimmed name or the
    trimmed description is empty. Otherwise, on a page with an image
    preview, the new bot is stored and found under the generated id, with
    the trimmed name and description and the form's category and tone; and
    on a page without the preview element the handler throws before
    anything is stored. *)
Theorem X4_create_validates_then_stores form newId now1 now2 ls :
  (trim (name_value form) = "" ∨ trim (description_value form) = "" →
     Forms.create_submit trim form newId now1 now2 ls = Ok (None, ls))
  ∧ (trim (name_value form) ≠ "" → trim (description_value form) ≠ "" →
     match image_preview form with
     | None => Forms.create_submit trim form newId now1 now2 ls = Throw TypeError
     | Some img =>
         ∃ newBot ls',
           Forms.create_submit trim form newId now1 now2 ls = Ok (Some newBot, ls')
           ∧ Storage.getBotById newId ls' = Some newBot
           ∧ newBot = {| bot_id := newId;
                         name := trim (name_value form);
                         description := trim (description_value form);
                         ageCategory := age_category_value form;
                         chatTone := chat_tone_value form;
                         image := img;
                         createdAt := now1; updatedAt := now2 |}
           ∧ crave_ai_chats ls' = crave_ai_chats ls
     end).
Proof.
  unfold Forms.create_submit. split.
  - intros [-> | ->]; [done|]. by destruct (trim (name_value form)).
  - intros Hn Hd.
    destruct (trim (name_value form)) as [|c1 s1] eqn:En; [done|].
    destruct (trim (description_value form)) as [|c2 s2] eqn:Ed; [done|].
    destruct (image_preview form) as [img|]; [|done].
    eexists _, _. split; [reflexivity|].
    split; [|split; [reflexivity|]].
    + rewrite getBotById_saveBot. simpl. by rewrite String.eqb_refl.
    + unfold BotStore.saveBot. by destruct (BotStore.findIndex _ _).
Qed.

(** X5. Editing a stored bot with a valid form keeps its id and its
    creation time, takes the trimmed name and description and the form's
    category and tone, and keeps the old image unless the preview shows
    another source. The edited bot replaces the old one in place: the
    collection keeps its size, the other bots and all chats are as
    before. *)
Theorem X5_edit_replaces_in_place bot form now ls old img :
  trim (name_value form) ≠ "" →
  trim (description_value form) ≠ "" →
  image_preview form = Some img →
  Storage.getBotById (bot_id bot) ls = Some old →
  ∃ updated ls',
    Forms.edit_submit trim bot form now ls = Ok (Some updated, ls')
    ∧ Storage.getBotById (bot_id bot) ls' = Some updated
    ∧ bot_id updated = bot_id bot
    ∧ createdAt updated = createdAt bot
    ∧ updatedAt updated = now
    ∧ name updated = trim (name_value form)
    ∧ description updated = trim (description_value form)
    ∧ image updated = match img with Some src => Some src | None => image bot end
    ∧ length (Storage.getAllBots ls') = length (Storage.getAllBots ls)
    ∧ (∀ id, id ≠ bot_id bot → Storage.getBotById id ls' = Storage.getBotById id ls)
    ∧ crave_ai_chats ls' = crave_ai_chats ls.
Proof.
  intros Hn Hd Hp Hold. unfold Forms.edit_submit. rewrite Hp.
  destruct (trim (name_value form)) as [|c1 s1] eqn:En; [done|].
  destruct (trim (description_value form)) as [|c2 s2] eqn:Ed; [done|].
  eexists _, _. split; [reflexivity|].
  split; [rewrite getBotById_saveBot; simpl; by rewrite String.eqb_refl|].
  do 5 (split; [reflexivity|]).
  split; [destruct img as [src|]; simpl; [by case_bool_decide|done]|].
  split; [|split].
  - unfold BotStore.saveBot. simpl.
    unfold Storage.getBotById in Hold.
    destruct (BotStore.findIndex (bot_id bot) (Storage.getAllBots ls)) as [i|] eqn:E.
    + unfold Storage.getAllBots at 1; simpl. apply length_insert.
    + apply findIndex_None in E. congruence.
  - intros id Hne. rewrite getBotById_saveBot. simpl.
    by destruct (String.eqb_spec (bot_id bot) id).
  - unfold BotStore.saveBot. by destruct (BotStore.findIndex _ _).
Qed.
End FormFacts.

Lemma X5_edit_replaces_in_place_witness :
  ∃ updated ls',
    Forms.edit_submit Example.trim Example.mia Sample.form 2000
      (storage Example.world15) = Ok (Some updated, ls')
    ∧ Storage.getBotById "b1" ls' = Some updated
    ∧ name updated = "Rex"
    ∧ createdAt updated = 1000%Z
    ∧ length (Storage.getAllBots ls') = 1.
Proof.
  destruct (X5_edit_replaces_in_place Example.trim Example.mia Sample.form 2000
              (storage Example.world15) Example.mia None)
    as (updated & ls' & Hsubmit & Hfound & _ & Hcreated & _ & Hname & _ & _ & Hlen & _).
  - vm_compute; discriminate.
  - vm_compute; discriminate.
  - reflexivity.
  - reflexivity.
  - exists updated, ls'. repeat split; assumption.
Defined.


(* ===================================================================== *)
(** * More on the send round-trip *)
(* ===================================================================== *)

Section SendFacts.
Context (trim : string → string).
Implicit Types (w : World) (bot : Bot) (net : Request → FetchOutcome).

(** X6. A send whose request is answered with a 2xx status and a body
    holding [choices[0].message.content] as a string stores two messages
    after the old transcript, the user's trimmed text and then the bot's
    trimmed reply, and issues that one request only. *)
Theorem X6_successful_send_appends_both
    net bot botId inputValue now1 now2 w status data choices choice message reply :
  trim inputValue ≠ "" →
  net {| url := "http://localhost:3000/chat"; method := "POST";
         headers := [("Content-Type", "application/json")];
         body := JObj [("userMessage", JStr (trim inputValue));
                       ("systemPrompt", JStr (AiService.createPersonalityPrompt bot))] |}
  = FetchResponse true status data →
  JsonAccess.member "choices" data = Some choices →
  JsonAccess.first choices = Some choice →
  JsonAccess.member "message" choice = Some message →
  JsonAccess.member "content" message = Some (JStr reply) →
  let userMessage := {| sender := "user"; text := trim inputValue; timestamp := now1 |} in
  let botMessage := {| sender := "bot"; text := trim reply; timestamp := now2 |} in
  ∃ w',
    App.sendMessage trim net bot botId inputValue now1 now2 w = (w', Some (Ok botMessage))
    ∧ Storage.getChatHistory botId (storage w')
      = Storage.getChatHistory botId (storage w) ++ [userMessage; botMessage]
    ∧ length (requests w') = S (length (requests w))
    ∧ crave_ai_bots (storage w') = crave_ai_bots (storage w).
Proof.
  intros Hne Hnet Hc Hf Hm Hr userMessage botMessage.
  unfold App.sendMessage. rewrite submit_nonempty by done.
  unfold App.respond, AiClient.getAIResponse.
  rewrite chat_request_eq. unfold AiClient.backend_url. rewrite Hnet.
  unfold AiClient.reply_text. rewrite Hc. simpl. rewrite Hf. simpl.
  rewrite Hm. simpl. rewrite Hr.
  eexists. split; [reflexivity|]. simpl.
  split; [|split; [rewrite length_app; simpl; lia|reflexivity]].
  rewrite !getChatHistory_saveChatMessage. by rewrite <- app_assoc.
Qed.

(** X7. A send whose text is empty after trimming does nothing: the store,
    the global chat and the request log are as before, and nothing is
    asked of the backend. *)
Theorem X7_blank_send_is_noop net bot botId inputValue now1 now2 w :
  trim inputValue = "" →
  App.sendMessage trim net bot botId inputValue now1 now2 w = (w, None).
Proof.
  intros Hblank. unfold App.sendMessage, App.submit. by rewrite Hblank.
Qed.
End SendFacts.

Lemma X6_successful_send_appends_both_witness :
  ∃ w',
    App.sendMessage Example.trim (Sample.answering " Hello! ") Example.mia "b1"
      " m16 " 16 17 Example.world15
    = (w', Some (Ok (Example.from_bot "Hello!" 17)))
    ∧ Storage.getChatHistory "b1" (storage w')
      = Example.transcript15 ++ [Example.from_user "m16" 16; Example.from_bot "Hello!" 17].
Proof.
  destruct (X6_successful_send_appends_both Example.trim (Sample.answering " Hello! ")
Example.mia "b1" " m16 " 16 17 Example.world15 200
(JObj [("choices",
        JArr [JObj [("message", JObj [("role", JStr "assistant");
                                      ("content", JStr " Hello! ")])]])])
(JArr [JObj [("message", JObj [("role", JStr "assistant");
                               ("content", JStr " Hello! ")])]])
(JObj [("message", JObj [("role", JStr "assistant");
                         ("content", JStr " Hello! ")])])
(JObj [("role", JStr "assistant"); ("content", JStr " Hello! ")])
" Hello! ")
as (w' & Hsend & Hhist & _).
- vm_compute; discriminate.
- reflexivity.
- reflexivity.
- reflexivity.
- reflexivity.
- reflexivity.
- exists w'. split; [exact Hsend | exact Hhist].
Defined.

Lemma X7_blank_send_is_noop_witness :
  App.sendMessage Example.trim Example.unreachable Example.mia "b1" "   " 16 17
Example.world15
= (Example.world15, None).
Proof.
  apply (X7_blank_send_is_noop Example.trim Example.unreachable Example.mia "b1" "   "
           16 17 Example.world15).
  reflexivity.
Defined.


(** X8. Whatever the senders of the stored messages are, the window has one
    entry with the role [system], its first; every entry after it has the
    role [user] or [assistant], and the last one is the new message. *)
Theorem X8_window_roles bot (history : list Message) newMessage :
  let window := AiService.prepareConversationHistory bot history newMessage in
  ∃ rest,
    window = {| role := "system"; content := AiService.createPersonalityPrompt bot |} :: rest
    ∧ Forall (fun e => role e = "user" ∨ role e = "assistant") rest
    ∧ last window = Some {| role := "user"; content := newMessage |}.
Proof.
  intros window. subst window. rewrite prepareConversationHistory_eq.
  eexists. split; [reflexivity|]. split.
  - apply Forall_app. split; [|repeat constructor; by left].
    apply Forall_fmap, Forall_true. intros m. simpl.
    unfold AiService.role_of_sender. destruct (String.eqb (sender m) "user"); auto.
  - by rewrite last_cons, last_snoc.
Qed.

(* ===================================================================== *)
(** * More on deleting messages *)
(* ===================================================================== *)

Section DeleteFacts.
Implicit Types (w : World) (history : list Message).

(** X9. Nothing is deleted, and nothing else changes, when there is no
    current chat, when the clicked element has lost its container, or when
    the confirmation is declined. *)
Theorem X9_delete_declined_is_noop has_parent index sender confirmed w :
  currentChat w = None ∨ has_parent = false ∨ confirmed = false →
  App.handleDeleteMessage has_parent index sender confirmed w = w.
Proof.
  unfold App.handleDeleteMessage.
  intros [-> | [-> | ->]]; [done| |].
  - destruct (currentChat w) as [cc|]; [|done]. by destruct (cc_botId cc).
  - destruct (currentChat w) as [cc|]; [|done].
    destruct (cc_botId cc); [done|]. by destruct has_parent.
Qed.

Lemma splice_sublist {A} (start count : Z) (l : list A) :
  JsArray.splice start count l `sublist_of` l
  ∧ JsArray.splice_to_end start l `sublist_of` l.
Proof.
  unfold JsArray.splice, JsArray.splice_to_end. split.
  - set (k := JsArray.relative_start start (length l)).
    transitivity (take k l ++ drop k l); [|by rewrite take_drop].
    apply sublist_app; [done|]. rewrite <- drop_drop. apply sublist_drop.
  - apply sublist_take.
Qed.

(** X10. Whatever index and sender a confirmed deletion is given, the
    stored transcript afterwards is the old one with some messages left
    out, in the old order; the global chat history is that same transcript;
    an index at or beyond the end removes nothing; and the bots, the other
    transcripts and the request log are as before. *)
Theorem X10_delete_only_removes w cc index sender :
  currentChat w = Some cc →
  cc_botId cc ≠ "" →
  let history := Storage.getChatHistory (cc_botId cc) (storage w) in
  let w' := App.handleDeleteMessage true index sender true w in
  let history' := Storage.getChatHistory (cc_botId cc) (storage w') in
  history' `sublist_of` history
  ∧ (cc_chatHistory <$> currentChat w') = Some history'
  ∧ ((Z.of_nat (length history) ≤ index)%Z → history' = history)
  ∧ (∀ other, other ≠ cc_botId cc →
       Storage.getChatHistory other (storage w') = Storage.getChatHistory other (storage w))
  ∧ crave_ai_bots (storage w') = crave_ai_bots (storage w)
  ∧ requests w' = requests w.
Proof.
  intros Hcc Hid history w' history'. subst history w' history'.
  destruct (handleDeleteMessage_confirmed w cc index sender Hcc Hid)
    as (Hstored & Hglobal & Hothers & Hbots & Hreq).
  rewrite Hstored, Hglobal.
  split; [destruct (String.eqb sender "user"); apply (splice_sublist index 1)|].
  split; [done|]. split; [|done].
  intros Hge.
  assert (JsArray.relative_start index
            (length (Storage.getChatHistory (cc_botId cc) (storage w)))
          = length (Storage.getChatHistory (cc_botId cc) (storage w))) as Hk.
  { unfold JsArray.relative_start. cbv zeta.
    destruct (Z.ltb_spec index 0); cbv iota; lia. }
  destruct (String.eqb sender "user").
  - unfold JsArray.splice_to_end. rewrite Hk. apply firstn_all.
  - unfold JsArray.splice. rewrite Hk, firstn_all, drop_ge by lia. apply app_nil_r.
Qed.

(** X11. A negative index counts from the end, as [splice] reads it: with
    index [-k] the deletion of a user message keeps the first
    [length - k] messages, and the deletion of a bot message removes the
    single message at [length - k]. For [-1], the index of an element that
    is not found, it is the last message that goes. *)
Theorem X11_delete_negative_index w cc (k : nat) sender :
  currentChat w = Some cc →
  cc_botId cc ≠ "" →
  0 < k →
  let history := Storage.getChatHistory (cc_botId cc) (storage w) in
  let w' := App.handleDeleteMessage true (- Z.of_nat k) sender true w in
  let n := length history - k in
  Storage.getChatHistory (cc_botId cc) (storage w')
  = if String.eqb sender "user" then take n history
    else take n history ++ drop (S n) history.
Proof.
  intros Hcc Hid Hk history w' n. subst history w' n.
  destruct (handleDeleteMessage_confirmed w cc (- Z.of_nat k) sender Hcc Hid)
    as (Hstored & _).
  rewrite Hstored.
  set (history := Storage.getChatHistory (cc_botId cc) (storage w)).
  destruct (String.eqb sender "user").
  - unfold JsArray.splice_to_end. by rewrite relative_start_last.
  - unfold JsArray.splice. rewrite relative_start_last by done.
    destruct (decide (length history = 0)) as [H0|H0].
    + apply length_zero_iff_nil in H0. by rewrite H0.
    + replace (Z.to_nat (Z.min (Z.max 1 0)
                 (Z.of_nat (length history - (length history - k))))) with 1 by lia.
      by rewrite Nat.add_1_r.
Qed.
End DeleteFacts.

Lemma X9_delete_declined_is_noop_witness :
  App.handleDeleteMessage true 3 "user" false Example.world15 = Example.world15.
Proof.
  apply (X9_delete_declined_is_noop true 3 "user" false Example.world15).
  right; right; reflexivity.
Defined.

Lemma X10_delete_only_removes_witness :
  Storage.getChatHistory "b1"
    (storage (App.handleDeleteMessage true 99 "bot" true Example.world15))
  = Example.transcript15.
Proof.
  pose proof (X10_delete_only_removes Example.world15
                {| cc_botId := "b1"; cc_chatHistory := [] |} 99 "bot" eq_refl) as H.
  cbv zeta in H. destruct H as (_ & _ & Hbeyond & _).
  - discriminate.
  - apply Hbeyond. vm_compute; discriminate.
Defined.

Lemma X11_delete_negative_index_witness :
  Storage.getChatHistory "b1"
    (storage (App.handleDeleteMessage true (-1) "bot" true Example.world15))
  = take 14 Example.transcript15.
Proof.
  pose proof (X11_delete_negative_index Example.world15
                {| cc_botId := "b1"; cc_chatHistory := [] |} 1 "bot" eq_refl) as H.
  cbv zeta in H. assert (cc_botId {| cc_botId := "b1"; cc_chatHistory := [] |} ≠ "") as Hid
    by discriminate.
  assert (0 < 1) as Hk by lia.
  exact (H Hid Hk).
Defined.


(* ===================================================================== *)
(** * More on opening the chat page *)
(* ===================================================================== *)

(** How an opening that succeeds leaves the world. *)
Lemma initChatPage_open page now w w1 bot accepts :
  App.initChatPage page now w = (w1, ChatOpen bot accepts) →
  ∃ botId,
    has_chat_container page = true
    ∧ param_id page = Some botId
    ∧ botId ≠ ""
    ∧ Storage.getBotById botId (storage w) = Some bot
    ∧ currentChat w1 = Some {| cc_botId := botId; cc_chatHistory := [] |}
    ∧ requests w1 = requests w
    ∧ crave_ai_bots (storage w1) = crave_ai_bots (storage w)
    ∧ (storage w1 = storage w
       ∨ has_chat_messages page = true
         ∧ Storage.getChatHistory botId (storage w) = []
         ∧ Storage.getChatHistory botId (storage w1) ≠ [])
    ∧ (has_chat_messages page = true → Storage.getChatHistory botId (storage w1) ≠ []).
Proof.
  unfold App.initChatPage. intros Hopen.
  destruct (has_chat_container page); cbn [negb] in Hopen; [|by inversion Hopen].
  destruct (param_id page) as [[|c s]|]; [by inversion Hopen| |by inversion Hopen].
  destruct (Storage.getBotById (String c s) (storage w)) as [b|] eqn:Hfound;
    [|by inversion Hopen].
  inversion Hopen as [[Hw1 Hb Ha]]. clear Hopen. subst b.
  exists (String c s). do 4 (split; [done|]).
  destruct (has_chat_messages page).
  - destruct (0 <? length (Storage.getChatHistory (String c s) (storage w))) eqn:Hlen.
    + do 3 (split; [done|]). cbn [storage].
      assert (Storage.getChatHistory (String c s) (storage w) ≠ []) as Hne.
      { apply Nat.ltb_lt in Hlen. intros E. rewrite E in Hlen. simpl in Hlen. lia. }
      split; [by left|done].
    + do 3 (split; [done|]). unfold App.set_storage. cbn [storage].
      assert (Storage.getChatHistory (String c s)
                (Storage.saveChatMessage (String c s)
                   {| sender := "bot";
                      text := "Hello! I'm " +:+ name bot +:+ ". "
                              +:+ JsObject.template_text (App.getWelcomeMessage bot);
                      timestamp := now |} (storage w)) ≠ []) as Hne.
      { rewrite getChatHistory_saveChatMessage. intros E. by apply app_eq_nil in E as [_ ?]. }
      split; [right|done]. split; [done|]. split; [|done].
      apply Nat.ltb_ge in Hlen. by destruct (Storage.getChatHistory _ _); [|simpl in Hlen; lia].
  - do 3 (split; [done|]). split; [by left|done].
Qed.

(** X12. Opening the chat page writes to the store only when the page opens
    with a message list on an empty transcript. So opening it again with
    nothing done in between leaves the store as it is, at any time; and
    when the page does not open (no chat container, no id in the URL, no
    bot with that id) nothing at all changes. The welcome is not stored
    once and for all, though: after it has been deleted, so that the
    transcript is empty again, the next opening stores a new one. *)
Theorem X12_open_writes_on_empty_transcript_only page now w :
  let first := App.initChatPage page now w in
  (storage first.1 = storage w
   ∨ ∃ bot accepts botId,
       first.2 = ChatOpen bot accepts
       ∧ has_chat_messages page = true
       ∧ param_id page = Some botId
       ∧ Storage.getChatHistory botId (storage w) = [])
  ∧ match first.2 with
    | ChatOpen bot _ =>
        ∀ now', storage (App.initChatPage page now' first.1).1 = storage first.1
    | _ => first.1 = w
    end
  ∧ (∀ bot accepts botId now',
       first.2 = ChatOpen bot accepts →
       has_chat_messages page = true →
       param_id page = Some botId →
       Storage.getChatHistory botId (storage w) = [] →
       let emptied := App.handleDeleteMessage true 0 "bot" true first.1 in
       Storage.getChatHistory botId (storage emptied) = []
       ∧ Storage.getChatHistory botId (storage (App.initChatPage page now' emptied).1)
         = [ {| sender := "bot";
                text := "Hello! I'm " +:+ name bot +:+ ". "
                        +:+ JsObject.template_text (App.getWelcomeMessage bot);
                timestamp := now' |} ]).
Proof.
  intros first. subst first.
  destruct (App.initChatPage page now w) as [w1 st] eqn:E. cbn [fst snd].
  split; [|split].
  - destruct st as [| | |bot accepts];
      try (left; unfold App.initChatPage in E;
           destruct (has_chat_container page); cbn [negb] in E; [|by inversion E];
           destruct (param_id page) as [[|c s]|]; [by inversion E| |by inversion E];
           destruct (Storage.getBotById (String c s) (storage w)); by inversion E).
    destruct (initChatPage_open _ _ _ _ _ _ E)
      as (botId & _ & Hp & _ & _ & _ & _ & _ & [Hsame|(Hm & Hempty & _)] & _);
      [by left|right]. by exists bot, accepts, botId.
  - unfold App.initChatPage in E.
    destruct (has_chat_container page) eqn:Hc; cbn [negb] in E; [|by inversion E].
    destruct (param_id page) as [[|c s]|] eqn:Hp; [by inversion E| |by inversion E].
    destruct (Storage.getBotById (String c s) (storage w)) as [bot|] eqn:Hb;
      [|by inversion E].
    inversion E as [[Hw1 Hst]]. clear E. intros now'.
    unfold App.initChatPage. rewrite Hc, Hp. cbn [negb].
    destruct (has_chat_messages page) eqn:Hm.
    + destruct (0 <? length (Storage.getChatHistory (String c s) (storage w))) eqn:Hlen.
      * cbn [storage]. by rewrite Hb, Hlen.
      * unfold App.set_storage. cbn [storage].
        rewrite getBotById_saveChatMessage, Hb.
        rewrite getChatHistory_saveChatMessage, length_app. simpl.
        by replace (0 <? _ + 1) with true by (symmetry; apply Nat.ltb_lt; lia).
    + cbn [storage]. by rewrite Hb.
  - intros bot accepts botId now' -> Hm Hp Hempty.
    set (emptied := App.handleDeleteMessage true 0 "bot" true w1).
    destruct (initChatPage_open _ _ _ _ _ _ E)
      as (botId' & Hc & Hp' & Hid & Hbot & Hcc & _ & Hbots & _ & _).
    rewrite Hp in Hp'. injection Hp' as <-.
    destruct (initChatPage_welcome page now w botId bot Hc Hm Hp Hid Hbot Hempty)
      as (w' & Hopen & Hone & _).
    rewrite E in Hopen. injection Hopen as <-.
    destruct (handleDeleteMessage_confirmed w1 {| cc_botId := botId; cc_chatHistory := [] |}
                0 "bot" Hcc Hid) as (Hstored & _ & _ & Hbots' & _).
    cbn [cc_botId] in Hstored, Hbots'. fold emptied in Hstored, Hbots'.
    rewrite Hone in Hstored. change (String.eqb "bot" "user") with false in Hstored.
    assert (Hgone : Storage.getChatHistory botId (storage emptied) = [])
      by (rewrite Hstored; reflexivity).
    split; [exact Hgone|].
    assert (Hbot' : Storage.getBotById botId (storage emptied) = Some bot).
    { unfold Storage.getBotById, Storage.getAllBots in *. by rewrite Hbots', Hbots. }
    destruct (initChatPage_welcome page now' emptied botId bot Hc Hm Hp Hid Hbot' Hgone)
      as (w'' & Hopen' & Hone' & _).
    by rewrite Hopen'.
Qed.

(* ===================================================================== *)
(** * The relays *)
(* ===================================================================== *)

Section RelayFacts.
Context (trim : string → string).
Implicit Types (upstream : Request → Upstream) (reqBody : Json).

(** X13. For a request with both fields as strings, the relay of
    [backend/index.js] asks the provider once, with its credential in the
    [Authorization] header and a body of the fixed model and two messages,
    and answers with status 200 whatever the provider does: the provider's
    data when it gives a 2xx answer that parses, and otherwise a
    completion-shaped reply that the client reads as text. *)
Theorem X13_relay_always_answers_200
    apiKey referer upstream now1 now2 reqBody userMessage systemPrompt :
  JsonAccess.member "userMessage" reqBody = Some (JStr userMessage) →
  JsonAccess.member "systemPrompt" reqBody = Some (JStr systemPrompt) →
  ∃ req reply,
    RelayJs.chat apiKey referer upstream now1 now2 reqBody = ([req], reply)
    ∧ ("Authorization", "Bearer " +:+ apiKey) ∈ headers req
    ∧ body req
      = JObj [("model", JStr "openai/gpt-3.5-turbo");
              ("messages",
               JArr [ JObj [("role", JStr "system");
                            ("content", JStr (systemPrompt +:+ Relay.formatting_instructions))];
                      JObj [("role", JStr "user"); ("content", JStr userMessage)] ])]
    ∧ reply_status reply = 200%Z
    ∧ match upstream req with
      | UpstreamResponse status _ (Some data) =>
          if Js.status_ok status then reply_body reply = data
          else AiClient.reply_text trim (reply_body reply)
               = Ok (trim (RelayJs.trouble_connecting userMessage))
      | UpstreamResponse status _ None =>
          AiClient.reply_text trim (reply_body reply)
          = Ok (trim (if Js.status_ok status
                      then RelayJs.technical_difficulties userMessage
                      else RelayJs.trouble_connecting userMessage))
      | UpstreamRejected =>
          AiClient.reply_text trim (reply_body reply)
          = Ok (trim (RelayJs.technical_difficulties userMessage))
      end.
Proof.
  intros Hu Hs. unfold RelayJs.chat, Relay.upstream_body. rewrite Hu, Hs.
  eexists _, _. split; [reflexivity|].
  split; [apply list_elem_of_here|]. split; [reflexivity|].
  match goal with |- context [upstream ?r] => destruct (upstream r) as [|status text [data|]] end;
    try destruct (Js.status_ok status); simpl; auto.
Qed.

(** X14. A request in which [userMessage] or [systemPrompt] is missing or
    is not a string is refused with status 400, and the provider is not
    asked. *)
Theorem X14_relay_refuses_malformed apiKey referer upstream now1 now2 reqBody :
  (∀ s, JsonAccess.member "userMessage" reqBody ≠ Some (JStr s))
  ∨ (∀ s, JsonAccess.member "systemPrompt" reqBody ≠ Some (JStr s)) →
  RelayJs.chat apiKey referer upstream now1 now2 reqBody
  = ([], {| reply_status := 400; reply_body := RelayJs.validation_error |}).
Proof.
  unfold RelayJs.chat, Relay.upstream_body. intros [H|H].
  - destruct (JsonAccess.member "userMessage" reqBody) as [[]|] eqn:E; try done.
    by destruct (H s).
  - destruct (JsonAccess.member "userMessage" reqBody) as [[]|] eqn:E; try done.
    destruct (JsonAccess.member "systemPrompt" reqBody) as [[]|] eqn:E'; try done.
    by destruct (H s0).
Qed.

(** X15. Behind the relay of [backend/index.js] a failure of the provider
    never reaches the chat page as a failure: when the provider cannot be
    reached, answers with an error status or with a body that is not JSON,
    the send still succeeds, and the transcript gets the user's message
    followed by a bot message whose text is one of the relay's two fallback
    texts, quoting the user's message. *)
Theorem X15_provider_failure_is_stored_as_reply
    apiKey referer upstream t1 t2 bot botId inputValue now1 now2 w :
  trim inputValue ≠ "" →
  (∀ req, Js.upstream_failed (upstream req) = true) →
  let net := fun req => Js.fetched (RelayJs.chat apiKey referer upstream t1 t2 (body req)).2 in
  ∃ w' content,
    (content = RelayJs.trouble_connecting (trim inputValue)
     ∨ content = RelayJs.technical_difficulties (trim inputValue))
    ∧ App.sendMessage trim net bot botId inputValue now1 now2 w
      = (w', Some (Ok {| sender := "bot"; text := trim content; timestamp := now2 |}))
    ∧ Storage.getChatHistory botId (storage w')
      = Storage.getChatHistory botId (storage w)
        ++ [ {| sender := "user"; text := trim inputValue; timestamp := now1 |};
             {| sender := "bot"; text := trim content; timestamp := now2 |} ].
Proof.
  intros Hne Hfail net.
  unfold App.sendMessage. rewrite submit_nonempty by done.
  unfold App.respond, AiClient.getAIResponse. rewrite chat_request_eq.
  subst net. cbn [body].
  unfold RelayJs.chat, Relay.upstream_body. cbn [JsonAccess.member JsonAccess.assoc String.eqb Ascii.eqb Bool.eqb].
  match goal with |- context [upstream ?r] =>
    specialize (Hfail r); destruct (upstream r) as [|status text parsed] end.
  - eexists _, _. split; [by right|]. split; [reflexivity|].
    cbn [storage App.set_storage].
    rewrite !getChatHistory_saveChatMessage. by rewrite <- app_assoc.
  - simpl in Hfail. destruct (Js.status_ok status); simpl in Hfail.
    + destruct parsed; [done|].
      eexists _, _. split; [by right|]. split; [reflexivity|].
      cbn [storage App.set_storage].
      rewrite !getChatHistory_saveChatMessage. by rewrite <- app_assoc.
    + eexists _, _. split; [by left|]. split; [reflexivity|].
      cbn [storage App.set_storage].
      rewrite !getChatHistory_saveChatMessage. by rewrite <- app_assoc.
Qed.


(** X17. The relay of [backend/index.mjs] hides no failure: for a request
    with a [messages] array its reply has a 2xx status exactly when the
    provider answered with a 2xx status and a body that parses, and then
    the reply is that body under status 200. An error status of the
    provider is passed on with an [error] member, and a transport error or
    an unreadable body gives status 500. *)
Theorem X17_mjs_passes_failures_on apiKey upstream reqBody items :
  JsonAccess.member "messages" reqBody = Some (JArr items) →
  ∃ req reply,
    RelayMjs.chat apiKey upstream reqBody = ([req], reply)
    ∧ Js.status_ok (reply_status reply) = negb (Js.upstream_failed (upstream req))
    ∧ match upstream req with
      | UpstreamRejected => reply_status reply = 500%Z
      | UpstreamResponse status text parsed =>
          if Js.status_ok status
          then match parsed with
               | Some data => reply = {| reply_status := 200; reply_body := data |}
               | None => reply_status reply = 500%Z
               end
          else reply_status reply = status
               ∧ JsonAccess.has_member "error" (reply_body reply) = true
      end.
Proof.
  intros Hm. unfold RelayMjs.chat. rewrite Hm.
  eexists _, _. split; [reflexivity|].
  match goal with |- context [upstream ?r] => destruct (upstream r) as [|status text parsed] end;
    [done|].
  simpl. destruct (Js.status_ok status) eqn:E; simpl.
  - by destruct parsed.
  - rewrite E. split; [done|]. split; [done|].
    unfold RelayMjs.error_body.
    destruct parsed as [[]|]; try done;
      by destruct (JsonAccess.member "message" _).
Qed.

(** X18. The chat client and the relay of [backend/index.mjs] do not fit:
    the client's request has no [messages] array, so that relay refuses it
    with status 400 without asking the provider, the client throws, and the
    send leaves the user's message in the transcript with no reply. *)
Theorem X18_client_refused_by_mjs
    apiKey upstream bot botId inputValue now1 now2 w :
  trim inputValue ≠ "" →
  let net := fun req => Js.fetched (RelayMjs.chat apiKey upstream (body req)).2 in
  ∃ w' req,
    App.sendMessage trim net bot botId inputValue now1 now2 w
    = (w', Some (Throw (BackendError 400)))
    ∧ requests w' = requests w ++ [req]
    ∧ RelayMjs.chat apiKey upstream (body req)
      = ([], {| reply_status := 400;
                reply_body := JObj [("error", JStr "messages array is required.")] |})
    ∧ Storage.getChatHistory botId (storage w')
      = Storage.getChatHistory botId (storage w)
        ++ [ {| sender := "user"; text := trim inputValue; timestamp := now1 |} ].
Proof.
  intros Hne net.
  unfold App.sendMessage. rewrite submit_nonempty by done.
  unfold App.respond, AiClient.getAIResponse. rewrite chat_request_eq.
  subst net. cbn [body].
  eexists _, _. split; [reflexivity|]. cbn [requests storage].
  split; [reflexivity|]. split; [reflexivity|].
  apply getChatHistory_saveChatMessage.
Qed.
End RelayFacts.

Lemma X13_relay_always_answers_200_witness :
  ∃ req reply,
    RelayJs.chat "key" None Sample.provider_down 5 6 Sample.prompt_request = ([req], reply)
    ∧ reply_status reply = 200%Z
    ∧ AiClient.reply_text Example.trim (reply_body reply)
      = Ok (Example.trim (RelayJs.technical_difficulties "hi")).
Proof.
  destruct (X13_relay_always_answers_200 Example.trim "key" None Sample.provider_down 5 6
              Sample.prompt_request "hi" "You are Mia.")
    as (req & reply & Hchat & _ & _ & Hstatus & Hreply).
  - reflexivity.
  - reflexivity.
  - exists req, reply. split; [exact Hchat|]. split; [exact Hstatus | exact Hreply].
Defined.

Lemma X14_relay_refuses_malformed_witness :
  RelayJs.chat "key" None Sample.provider_down 5 6 Sample.window_request
  = ([], {| reply_status := 400; reply_body := RelayJs.validation_error |}).
Proof.
  apply (X14_relay_refuses_malformed "key" None Sample.provider_down 5 6
           Sample.window_request).
  left. intros s. vm_compute. discriminate.
Defined.

Lemma X15_provider_failure_is_stored_as_reply_witness :
  ∃ w' content,
    App.sendMessage Example.trim
      (fun req => Js.fetched (RelayJs.chat "key" None Sample.provider_refusing 5 6 (body req)).2)
Example.mia "b1" " m16 " 16 17 Example.world15
= (w', Some (Ok (Example.from_bot (Example.trim content) 17)))
∧ Storage.getChatHistory "b1" (storage w')
= Example.transcript15
  ++ [Example.from_user "m16" 16; Example.from_bot (Example.trim content) 17].
Proof.
  destruct (X15_provider_failure_is_stored_as_reply Example.trim "key" None
              Sample.provider_refusing 5 6 Example.mia "b1" " m16 " 16 17 Example.world15)
    as (w' & content & _ & Hsend & Hhist).
  - vm_compute; discriminate.
  - intros req. reflexivity.
  - exists w', content. split; [exact Hsend | exact Hhist].
Defined.


Lemma X17_mjs_passes_failures_on_witness :
  ∃ req reply,
    RelayMjs.chat "key" Sample.provider_refusing Sample.window_request = ([req], reply)
    ∧ Js.status_ok (reply_status reply) = false.
Proof.
  destruct (X17_mjs_passes_failures_on "key" Sample.provider_refusing Sample.window_request
              [JObj [("role", JStr "user"); ("content", JStr "hi")]])
    as (req & reply & Hchat & Hok & _).
  - reflexivity.
  - exists req, reply. split; [exact Hchat|]. rewrite Hok. reflexivity.
Defined.

Lemma X18_client_refused_by_mjs_witness :
  ∃ w',
    App.sendMessage Example.trim
      (fun req => Js.fetched (RelayMjs.chat "key" Sample.provider_down (body req)).2)
Example.mia "b1" " m16 " 16 17 Example.world15
= (w', Some (Throw (BackendError 400)))
∧ Storage.getChatHistory "b1" (storage w')
= Example.transcript15 ++ [Example.from_user "m16" 16].
Proof.
  destruct (X18_client_refused_by_mjs Example.trim "key" Sample.provider_down
Example.mia "b1" " m16 " 16 17 Example.world15)
as (w' & req & Hsend & _ & _ & Hhist).
- vm_compute; discriminate.
- exists w'. split; [exact Hsend | exact Hhist].
Defined.


(* ===================================================================== *)
(** * More on the formatter *)
(* ===================================================================== *)

Section FormatMore.
Local Open Scope N_scope.
Implicit Types (s : list N) (r : Regex.re) (f : gmap nat (list N) → list N).

Local Abbreviation same := (fun c : N => c).


(** A rule leaves alone a text in which no character can start a match. *)
Lemma replace_all_untriggered r f (trigger : N → bool) s :
  (∀ prev, Regex.match_at same r prev [] = None) →
  (∀ prev c s', trigger c = false → Regex.match_at same r prev (c :: s') = None) →
  Forall (fun c => trigger c = false) s →
  Regex.replace_all same r f s = s.
Proof.
  intros Hnil Hcons. unfold Regex.replace_all. generalize (@None N) as prev.
  induction s as [|c s IH]; intros prev Hs; simpl.
  - by rewrite Hnil.
  - inversion Hs as [|? ? Hc Hs']; subst. rewrite Hcons by done. by rewrite IH.
Qed.

(** The characters that take part in the formatter's rules: [&], [<], [>],
    the backtick, [*], [#] and the line feed. *)
Local Abbreviation special := (fun c : N => bool_decide (c ∈ [38; 60; 62; 96; 42; 35; 10])).

Lemma not_special c x : special c = false → x ∈ [38; 60; 62; 96; 42; 35; 10] → (c =? x) = false.
Proof.
  intros Hc Hx. apply bool_decide_eq_false in Hc. apply N.eqb_neq. by intros ->.
Qed.

Local Ltac literals :=
  unfold Format.backtick, Format.star, Format.newline; cbn [codes];
  repeat match goal with
         | |- context [N_of_ascii ?a] =>
             let v := eval vm_compute in (N_of_ascii a) in change (N_of_ascii a) with v
         end.

Local Ltac untriggered_by x :=
  apply (replace_all_untriggered _ _ (Regex.just x));
  [ intros prev; unfold Regex.match_at; literals;
    cbn [Regex.exec Format.seq foldr Regex.Lit]; by destruct (Regex.at_line_start prev)
  | intros prev c s' Hc; unfold Regex.match_at; literals;
    cbn [Regex.exec Format.seq foldr Regex.Lit];
    rewrite ?Hc; by destruct (Regex.at_line_start prev)
  | eapply Forall_impl; [eassumption|];
    intros c Hc; unfold Regex.just; apply (not_special c x Hc); set_solver ].

(** X20. A message with none of the characters [&], [<], [>], the backtick,
    [*], [#] and the line feed comes back as it is. *)
Theorem X20_format_plain_text_unchanged (msg : list N) :
  Forall (fun c => c ∉ [38; 60; 62; 96; 42; 35; 10]) msg →
  formatMessage (VString msg) = VString msg.
Proof.
  intros Hplain.
  assert (Hs : Forall (fun c => special c = false) msg).
  { eapply Forall_impl; [exact Hplain|]. intros c Hc. by apply bool_decide_eq_false. }
  simpl. f_equal.
  unfold Format.format, Format.markup, Format.line_breaks, Format.italic, Format.bold,
    Format.headers, Format.inline_code, Format.code_blocks, Format.escape_html.
  assert (E1 : Regex.replace_all same Format.re_amp
                 (Regex.expand same [Regex.Text (codes "&amp;")]) msg = msg)
    by (unfold Format.re_amp; untriggered_by 38).
  rewrite E1.
  assert (E2 : Regex.replace_all same Format.re_lt
                 (Regex.expand same [Regex.Text (codes "&lt;")]) msg = msg)
    by (unfold Format.re_lt; untriggered_by 60).
  rewrite E2.
  assert (E3 : Regex.replace_all same Format.re_gt
                 (Regex.expand same [Regex.Text (codes "&gt;")]) msg = msg)
    by (unfold Format.re_gt; untriggered_by 62).
  rewrite E3.
  assert (E4 : Regex.replace_all same Format.re_code_block
                 (Format.code_block_replacer same same) msg = msg)
    by (unfold Format.re_code_block; untriggered_by 96).
  rewrite E4.
  assert (E5 : Regex.replace_all same Format.re_inline_code
                 (Regex.expand same Format.inline_code_template) msg = msg)
    by (unfold Format.re_inline_code; untriggered_by 96).
  rewrite E5.
  assert (E6 : ∀ marks tag, (∃ m, marks = String "#" m) →
                 Regex.replace_all same (Format.re_header marks)
                   (Regex.expand same (Format.tag_template tag)) msg = msg).
  { intros marks tag [m ->]. unfold Format.re_header. untriggered_by 35. }
  rewrite !E6 by (by eexists).
  assert (E7 : Regex.replace_all same Format.re_bold
                 (Regex.expand same (Format.tag_template "strong")) msg = msg)
    by (unfold Format.re_bold; untriggered_by 42).
  rewrite E7.
  assert (E8 : Regex.replace_all same Format.re_italic
                 (Regex.expand same (Format.tag_template "em")) msg = msg)
    by (unfold Format.re_italic; untriggered_by 42).
  rewrite E8.
  unfold Format.re_newline. untriggered_by 10.
Qed.
(** ** The rules on plain content *)

(** The character before the position after [t]. *)
Local Abbreviation after prev t :=
  (match last (t : list N) with Some c => Some c | None => prev end).

Lemma after_step prev c (t : list N) : after prev (c :: t) = after (Some c) t.
Proof.
  destruct t as [|x t]; [done|]. rewrite last_cons_cons.
  destruct (last (x :: t)) eqn:E; [done|]. by apply last_None in E.
Qed.

Lemma replace_from_pass r f prev c s :
  Regex.match_at same r prev (c :: s) = None →
  Regex.replace_from same r f prev 0 (c :: s)
  = c :: Regex.replace_from same r f (Some c) 0 s.
Proof. intros H. cbn [Regex.replace_from]. by rewrite H. Qed.

Lemma replace_from_end r f prev :
  Regex.match_at same r prev [] = None →
  Regex.replace_from same r f prev 0 [] = [].
Proof. intros H. cbn [Regex.replace_from]. by rewrite H. Qed.

(** The search copies a stretch in which no character can start a match. *)
Lemma replace_from_stretch r f (trigger : N → bool) t :
  (∀ prev c s', trigger c = false → Regex.match_at same r prev (c :: s') = None) →
  Forall (fun c => trigger c = false) t →
  ∀ prev s,
    Regex.replace_from same r f prev 0 (t ++ s)
    = t ++ Regex.replace_from same r f (after prev t) 0 s.
Proof.
  intros Hcons. induction t as [|c t IH]; intros Ht prev s; [done|].
  inversion Ht as [|? ? Hc Ht']; subst.
  rewrite after_step. cbn [app]. rewrite replace_from_pass by by apply Hcons.
  by rewrite IH.
Qed.

(** A match of the whole text is replaced by what the replacer gives. *)
Lemma replace_all_whole r f c s caps :
  Regex.match_at same r None (c :: s) = Some (S (length s), caps) →
  (∀ prev, Regex.match_at same r prev [] = None) →
  Regex.replace_all same r f (c :: s) = f caps.
Proof.
  intros Hm Hnil. unfold Regex.replace_all. cbn [Regex.replace_from]. rewrite Hm.
  pose proof (replace_from_skip r f s (Some c) 0%nat []) as Hskip.
  rewrite Nat.add_0_r, app_nil_r in Hskip. rewrite Hskip.
  by rewrite replace_from_end, app_nil_r.
Qed.

(** A lazy repetition runs over a stretch before which its continuation
    fails at every character, and a greedy one over a stretch of its set
    that ends where the set ends, when its continuation accepts there. *)
Lemma star_lazy_run p (k : Regex.cont (A:=N)) (stop : N → bool) t :
  (∀ prev c s caps, stop c = false → k prev (c :: s) caps = None) →
  Forall (fun c => p c = true ∧ stop c = false) t →
  ∀ prev rest caps,
    Regex.star_lazy same p k prev (t ++ rest) caps
    = Regex.star_lazy same p k (after prev t) rest caps.
Proof.
  intros Hk. induction t as [|c t IH]; intros Ht prev rest caps; [done|].
  inversion Ht as [|? ? [Hp Hc] Ht']; subst.
  rewrite after_step. cbn [app Regex.star_lazy].
  by rewrite (Hk prev c) by done; rewrite Hp, IH.
Qed.

Lemma star_greedy_run p (k : Regex.cont (A:=N)) t :
  Forall (fun c => p c = true) t →
  ∀ prev rest caps,
    match rest with [] => True | c :: _ => p c = false end →
    is_Some (k (after prev t) rest caps) →
    Regex.star_greedy same p k prev (t ++ rest) caps = k (after prev t) rest caps.
Proof.
  induction t as [|c t IH]; intros Ht prev rest caps Hrest Hk.
  - cbn [app]. destruct rest as [|c rest]; [done|]. cbn [Regex.star_greedy]. by rewrite Hrest.
  - inversion Ht as [|? ? Hp Ht']; subst.
    rewrite after_step in *. cbn [app Regex.star_greedy]. rewrite Hp.
    rewrite IH by done. by destruct Hk as [res ->].
Qed.

Lemma take_all_but (t rest : list N) :
  take (length (t ++ rest) - length rest) (t ++ rest) = t.
Proof.
  rewrite length_app. replace (length t + length rest - length rest)%nat with (length t) by lia.
  by rewrite take_app_length.
Qed.
(** The characters that no rule reads: not [&], [<], [>], the backtick,
    [*], [#], and no line terminator. *)
Local Abbreviation ordinary :=
  (fun c : N => c ∉ [38; 60; 62; 96; 42; 35; 10; 13; 8232; 8233]).

Lemma ordinary_neq c x :
  ordinary c → x ∈ [38; 60; 62; 96; 42; 35; 10; 13; 8232; 8233] → (c =? x) = false.
Proof. intros Hc Hx. apply N.eqb_neq. by intros ->. Qed.

Lemma ordinary_dot c : ordinary c → Regex.dot c = true.
Proof.
  intros Hc. unfold Regex.dot, Regex.line_terminator.
  rewrite !(ordinary_neq c) by (done || set_solver). done.
Qed.

Lemma ordinary_just t x :
  Forall ordinary t → x ∈ [38; 60; 62; 96; 42; 35; 10; 13; 8232; 8233] →
  Forall (fun c => Regex.just x c = false) t.
Proof.
  intros Ht Hx. eapply Forall_impl; [exact Ht|]. intros c Hc. by apply ordinary_neq.
Qed.

Lemma ordinary_run t x :
  Forall ordinary t → x ∈ [38; 60; 62; 96; 42; 35; 10; 13; 8232; 8233] →
  Forall (fun c => Regex.dot c = true ∧ Regex.just x c = false) t.
Proof.
  intros Ht Hx. eapply Forall_impl; [exact Ht|]. intros c Hc.
  split; [by apply ordinary_dot|by apply ordinary_neq].
Qed.

Local Ltac whole_match :=
  change (length (@nil N)) with 0%nat; rewrite Nat.sub_0_r, firstn_all; reflexivity.

Local Ltac closed_tests :=
  repeat match goal with
         | |- context [Regex.just ?x ?y] =>
             let b := eval vm_compute in (Regex.just x y) in
             match b with
             | true => change (Regex.just x y) with true
             | false => change (Regex.just x y) with false
             end
         end;
  cbv iota.

Local Ltac run_pattern :=
  unfold Regex.match_at, Format.re_amp, Format.re_lt, Format.re_gt, Format.re_code_block,
    Format.re_inline_code, Format.re_header, Format.re_bold, Format.re_italic,
    Format.re_newline;
  literals; cbn [Regex.exec Format.seq foldr Regex.Lit app Regex.at_line_start]; closed_tests.

(** A pattern whose matches all start with the character [x]. *)
Local Abbreviation starts_with r x :=
  ((∀ prev, Regex.match_at same r prev [] = None)
   ∧ (∀ prev c s', Regex.just x c = false → Regex.match_at same r prev (c :: s') = None)).

Local Ltac starts_with_tac :=
  split;
  [ intros prev; run_pattern; by destruct (Regex.at_line_start prev)
  | intros prev c s' Hc; run_pattern; rewrite ?Hc; by destruct (Regex.at_line_start prev) ].

Lemma amp_starts : starts_with Format.re_amp 38.
Proof. starts_with_tac. Qed.
Lemma lt_starts : starts_with Format.re_lt 60.
Proof. starts_with_tac. Qed.
Lemma gt_starts : starts_with Format.re_gt 62.
Proof. starts_with_tac. Qed.
Lemma code_block_starts : starts_with Format.re_code_block 96.
Proof. starts_with_tac. Qed.
Lemma inline_code_starts : starts_with Format.re_inline_code 96.
Proof. starts_with_tac. Qed.
Lemma header_starts marks : starts_with (Format.re_header (String "#" marks)) 35.
Proof. starts_with_tac. Qed.
Lemma bold_starts : starts_with Format.re_bold 42.
Proof. starts_with_tac. Qed.
Lemma italic_starts : starts_with Format.re_italic 42.
Proof. starts_with_tac. Qed.
Lemma newline_starts : starts_with Format.re_newline 10.
Proof. starts_with_tac. Qed.

Lemma replace_all_skip r f x s :
  starts_with r x → Forall (fun c => Regex.just x c = false) s →
  Regex.replace_all same r f s = s.
Proof. intros [Hnil Hcons] Hs. by apply (replace_all_untriggered r f (Regex.just x)). Qed.

(** The two replacement strings on a first capture. *)
Lemma expand_tag tag caps x :
  caps !! 1%nat = Some x →
  Regex.expand same (Format.tag_template tag) caps
  = (codes "<" ++ codes tag ++ codes ">") ++ x ++ (codes "</" ++ codes tag ++ codes ">").
Proof.
  intros H. unfold Regex.expand, Format.tag_template, Regex.literal.
  cbn [fmap list_fmap concat]. rewrite H, !list_fmap_id. cbn [default].
  by rewrite app_nil_r.
Qed.

Lemma expand_inline_code caps x :
  caps !! 1%nat = Some x →
  Regex.expand same Format.inline_code_template caps
  = (codes "<code class=" ++ Format.quote ++ codes "inline-code" ++ Format.quote ++ codes ">")
    ++ x ++ codes "</code>".
Proof.
  intros H. unfold Regex.expand, Format.inline_code_template, Regex.literal.
  cbn [fmap list_fmap concat]. rewrite H, !list_fmap_id. cbn [default].
  by rewrite app_nil_r.
Qed.

Lemma exec_Lit l : ∀ prev s caps (k : Regex.cont (A:=N)),
  Regex.exec same (Regex.Lit l) prev (l ++ s) caps k = k (after prev l) s caps.
Proof.
  induction l as [|c l IH]; intros prev s caps k; [done|].
  rewrite after_step. cbn [Regex.Lit Regex.exec app]. unfold Regex.just at 1.
  rewrite N.eqb_refl. apply IH.
Qed.

Lemma star_greedy_all p (k : Regex.cont (A:=N)) t prev caps :
  Forall (fun c => p c = true) t →
  is_Some (k (after prev t) [] caps) →
  Regex.star_greedy same p k prev t caps = k (after prev t) [] caps.
Proof.
  intros Ht Hk. pose proof (star_greedy_run p k t Ht prev [] caps I Hk) as H.
  by rewrite app_nil_r in H.
Qed.

Lemma bold_match c t :
  Forall ordinary (c :: t) →
  Regex.match_at same Format.re_bold None (42 :: 42 :: (c :: t) ++ [42; 42])
  = Some (length (42 :: 42 :: (c :: t) ++ [42; 42]),
          <[0%nat := 42 :: 42 :: (c :: t) ++ [42; 42]]> (<[1%nat := c :: t]> ∅)).
Proof.
  intros Ht. inversion Ht as [|? ? Hc Ht']; subst.
  run_pattern. rewrite (ordinary_dot c Hc).
  rewrite (star_lazy_run Regex.dot _ (Regex.just 42) t);
    [|intros prev c' s caps Hstop; by rewrite Hstop|apply ordinary_run; [done|set_solver]].
  cbn [Regex.star_lazy]. closed_tests.
  change (c :: t ++ [42; 42]) with ((c :: t) ++ [42; 42]).
  rewrite take_all_but. whole_match.
Qed.

Lemma italic_match c t :
  Forall ordinary (c :: t) →
  Regex.match_at same Format.re_italic None (42 :: (c :: t) ++ [42])
  = Some (length (42 :: (c :: t) ++ [42]),
          <[0%nat := 42 :: (c :: t) ++ [42]]> (<[1%nat := c :: t]> ∅)).
Proof.
  intros Ht. inversion Ht as [|? ? Hc Ht']; subst.
  run_pattern. rewrite (ordinary_dot c Hc).
  rewrite (star_lazy_run Regex.dot _ (Regex.just 42) t);
    [|intros prev c' s caps Hstop; by rewrite Hstop|apply ordinary_run; [done|set_solver]].
  cbn [Regex.star_lazy]. closed_tests.
  change (c :: t ++ [42]) with ((c :: t) ++ [42]).
  rewrite take_all_but. whole_match.
Qed.

Lemma inline_code_match c t :
  Forall ordinary (c :: t) →
  Regex.match_at same Format.re_inline_code None (96 :: (c :: t) ++ [96])
  = Some (length (96 :: (c :: t) ++ [96]),
          <[0%nat := 96 :: (c :: t) ++ [96]]> (<[1%nat := c :: t]> ∅)).
Proof.
  intros Ht. inversion Ht as [|? ? Hc Ht']; subst.
  assert (Hother : ∀ x, ordinary x → Regex.other_than 96 x = true).
  { intros x Hx. unfold Regex.other_than. rewrite (ordinary_neq x 96) by (done || set_solver).
    done. }
  run_pattern. rewrite (Hother c Hc).
  rewrite (star_greedy_run (Regex.other_than 96) _ t);
    [|eapply Forall_impl; [exact Ht'|exact Hother]|reflexivity|].
  - closed_tests. change (c :: t ++ [96]) with ((c :: t) ++ [96]).
    rewrite take_all_but. whole_match.
  - closed_tests. by eexists.
Qed.

Lemma header_match marks c t :
  Forall ordinary (c :: t) →
  Regex.match_at same (Format.re_header marks) None (codes marks ++ 32 :: c :: t)
  = Some (length (codes marks ++ 32 :: c :: t),
          <[0%nat := codes marks ++ 32 :: c :: t]> (<[1%nat := c :: t]> ∅)).
Proof.
  intros Ht. inversion Ht as [|? ? Hc Ht']; subst.
  unfold Regex.match_at, Format.re_header.
  cbn [Regex.exec Format.seq foldr Regex.at_line_start].
  rewrite exec_Lit. cbn [Regex.exec]. closed_tests. rewrite (ordinary_dot c Hc).
  rewrite star_greedy_all;
    [|eapply Forall_impl; [exact Ht'|exact ordinary_dot]|by eexists].
  cbn [Regex.at_line_end].
  change (length (c :: t) - length (@nil N))%nat with (length (c :: t) - 0)%nat.
  rewrite Nat.sub_0_r, firstn_all. whole_match.
Qed.

Lemma replace_from_skip_all r f x t :
  starts_with r x → Forall (fun c => Regex.just x c = false) t →
  ∀ prev, Regex.replace_from same r f prev 0 t = t.
Proof.
  intros [Hnil Hcons] Ht prev.
  pose proof (replace_from_stretch r f (Regex.just x) t Hcons Ht prev []) as H.
  rewrite app_nil_r in H. rewrite H. by rewrite replace_from_end, app_nil_r.
Qed.

Local Ltac no_trigger :=
  literals; unfold Format.quote;
  repeat first
    [ apply Forall_nil_2
    | by (apply ordinary_just; [assumption|set_solver])
    | apply Forall_cons_2; [first [reflexivity | by (apply ordinary_neq; [assumption|set_solver])]|]
    | apply Forall_app_2 ].

Local Ltac skip_stage H x := rewrite (replace_all_skip _ _ x _ H) by no_trigger.

Local Ltac unfold_format :=
  cbn [formatMessage];
  unfold Format.format, Format.markup, Format.line_breaks, Format.italic, Format.bold,
    Format.headers, Format.inline_code, Format.code_blocks, Format.escape_html.

Local Ltac escape_stages := skip_stage amp_starts 38; skip_stage lt_starts 60; skip_stage gt_starts 62.
Local Ltac code_stages := skip_stage code_block_starts 96; skip_stage inline_code_starts 96.
Local Ltac header_stages :=
  skip_stage (header_starts "##") 35; skip_stage (header_starts "#") 35;
  skip_stage (header_starts "") 35.
Local Ltac last_stages := skip_stage italic_starts 42; skip_stage newline_starts 10.

Lemma format_bold c t :
  Forall ordinary (c :: t) →
  Format.format same same (codes "**" ++ (c :: t) ++ codes "**")
  = codes "<strong>" ++ (c :: t) ++ codes "</strong>".
Proof.
  intros Ht. pose proof Ht as Ht0. inversion Ht0 as [|? ? Hc Ht']; subst.
  unfold_format. escape_stages. code_stages. header_stages.
  rewrite (replace_all_whole _ _ _ _ _ (bold_match c t Ht) (proj1 bold_starts)).
  rewrite (expand_tag _ _ (c :: t)) by by simplify_map_eq.
  last_stages. reflexivity.
Qed.

Local Ltac ordinary_fact Hc :=
  unfold Regex.just; rewrite ?(ordinary_neq _ _ Hc) by set_solver; cbv iota.

Lemma format_italic c t :
  Forall ordinary (c :: t) →
  Format.format same same (codes "*" ++ (c :: t) ++ codes "*")
  = codes "<em>" ++ (c :: t) ++ codes "</em>".
Proof.
  intros Ht. pose proof Ht as Ht0. inversion Ht0 as [|? ? Hc Ht']; subst.
  unfold_format. escape_stages. code_stages. header_stages.
  assert (E : Regex.replace_all same Format.re_bold
                (Regex.expand same (Format.tag_template "strong"))
                (codes "*" ++ (c :: t) ++ codes "*")
              = codes "*" ++ (c :: t) ++ codes "*").
  { unfold Regex.replace_all. literals. cbn [app].
    rewrite replace_from_pass by (run_pattern; by ordinary_fact Hc).
    f_equal. change (c :: t ++ [42]) with ((c :: t) ++ [42]).
    rewrite (replace_from_stretch _ _ (Regex.just 42) (c :: t))
      by (exact (proj2 bold_starts) || no_trigger).
    by f_equal. }
  rewrite E.
  rewrite (replace_all_whole _ _ _ _ _ (italic_match c t Ht) (proj1 italic_starts)).
  rewrite (expand_tag _ _ (c :: t)) by by simplify_map_eq.
  skip_stage newline_starts 10. reflexivity.
Qed.

Lemma format_inline_code c t :
  Forall ordinary (c :: t) →
  Format.format same same (codes "`" ++ (c :: t) ++ codes "`")
  = (codes "<code class=" ++ Format.quote ++ codes "inline-code" ++ Format.quote ++ codes ">")
    ++ (c :: t) ++ codes "</code>".
Proof.
  intros Ht. pose proof Ht as Ht0. inversion Ht0 as [|? ? Hc Ht']; subst.
  unfold_format. escape_stages.
  assert (E : Regex.replace_all same Format.re_code_block
                (Format.code_block_replacer same same)
                (codes "`" ++ (c :: t) ++ codes "`")
              = codes "`" ++ (c :: t) ++ codes "`").
  { unfold Regex.replace_all. literals. cbn [app].
    rewrite replace_from_pass by (run_pattern; by ordinary_fact Hc).
    f_equal. change (c :: t ++ [96]) with ((c :: t) ++ [96]).
    rewrite (replace_from_stretch _ _ (Regex.just 96) (c :: t))
      by (exact (proj2 code_block_starts) || no_trigger).
    by f_equal. }
  rewrite E.
  rewrite (replace_all_whole _ _ _ _ _ (inline_code_match c t Ht) (proj1 inline_code_starts)).
  rewrite (expand_inline_code _ (c :: t)) by by simplify_map_eq.
  header_stages. skip_stage bold_starts 42. last_stages. reflexivity.
Qed.

Lemma format_header3 c t :
  Forall ordinary (c :: t) →
  Format.format same same (codes "# " ++ c :: t) = codes "<h3>" ++ (c :: t) ++ codes "</h3>".
Proof.
  intros Ht. pose proof Ht as Ht0. inversion Ht0 as [|? ? Hc Ht']; subst.
  unfold_format. escape_stages. code_stages.
  assert (E : ∀ marks tag, marks = "##" ∨ marks = "#" →
            Regex.replace_all same (Format.re_header (String "#" marks))
              (Regex.expand same (Format.tag_template tag)) (codes "# " ++ c :: t)
            = codes "# " ++ c :: t).
  { intros marks tag [-> | ->]; unfold Regex.replace_all; literals; cbn [app];
      (rewrite replace_from_pass by (by run_pattern)); f_equal;
      (apply (replace_from_skip_all _ _ 35); [apply header_starts|no_trigger]). }
  rewrite !E by auto.
  rewrite (replace_all_whole _ _ _ _ _ (header_match "#" c t Ht) (proj1 (header_starts ""))).
  rewrite (expand_tag _ _ (c :: t)) by by simplify_map_eq.
  skip_stage bold_starts 42. last_stages. reflexivity.
Qed.

Lemma format_header4 c t :
  Forall ordinary (c :: t) →
  Format.format same same (codes "## " ++ c :: t) = codes "<h4>" ++ (c :: t) ++ codes "</h4>".
Proof.
  intros Ht. pose proof Ht as Ht0. inversion Ht0 as [|? ? Hc Ht']; subst.
  unfold_format. escape_stages. code_stages.
  assert (E : Regex.replace_all same (Format.re_header "###")
                (Regex.expand same (Format.tag_template "h5")) (codes "## " ++ c :: t)
              = codes "## " ++ c :: t).
  { unfold Regex.replace_all. literals. cbn [app].
    rewrite replace_from_pass by (by run_pattern). f_equal.
    rewrite replace_from_pass by (by run_pattern). f_equal.
    apply (replace_from_skip_all _ _ 35); [apply header_starts|no_trigger]. }
  rewrite E.
  rewrite (replace_all_whole _ _ _ _ _ (header_match "##" c t Ht) (proj1 (header_starts "#"))).
  rewrite (expand_tag _ _ (c :: t)) by by simplify_map_eq.
  skip_stage (header_starts "") 35. skip_stage bold_starts 42. last_stages. reflexivity.
Qed.

Lemma format_header5 c t :
  Forall ordinary (c :: t) →
  Format.format same same (codes "### " ++ c :: t) = codes "<h5>" ++ (c :: t) ++ codes "</h5>".
Proof.
  intros Ht. pose proof Ht as Ht0. inversion Ht0 as [|? ? Hc Ht']; subst.
  unfold_format. escape_stages. code_stages.
  rewrite (replace_all_whole _ _ _ _ _ (header_match "###" c t Ht) (proj1 (header_starts "##"))).
  rewrite (expand_tag _ _ (c :: t)) by by simplify_map_eq.
  skip_stage (header_starts "#") 35. skip_stage (header_starts "") 35.
  skip_stage bold_starts 42. last_stages. reflexivity.
Qed.

(** X21. Around a non-empty text free of the characters of the rules and of
    line terminators, [**] gives [strong], [*] gives [em] and a pair of
    backticks gives the inline [code] element, the text itself unchanged
    inside. *)
Theorem X21_format_emphasis_and_inline_code (t : list N) :
  t ≠ [] →
  Forall (fun c => c ∉ [38; 60; 62; 96; 42; 35; 10; 13; 8232; 8233]) t →
  formatMessage (VString (codes "**" ++ t ++ codes "**"))
  = VString (codes "<strong>" ++ t ++ codes "</strong>")
  ∧ formatMessage (VString (codes "*" ++ t ++ codes "*"))
    = VString (codes "<em>" ++ t ++ codes "</em>")
  ∧ formatMessage (VString (codes "`" ++ t ++ codes "`"))
    = VString (codes "<code class=" ++ Format.quote ++ codes "inline-code"
               ++ Format.quote ++ codes ">" ++ t ++ codes "</code>").
Proof.
  intros Hne Ht. destruct t as [|c t]; [done|]. cbn [formatMessage].
  rewrite format_bold, format_italic, format_inline_code by done.
  split; [done|]. split; [done|]. by f_equal.
Qed.

(** X22. A message that is one header line, [#], [##] or [###], a space and
    a non-empty text free of the characters of the rules and of line
    terminators, becomes the element [h3], [h4] or [h5] around the text:
    the more marks, the smaller the header. *)
Theorem X22_format_header_levels (t : list N) :
  t ≠ [] →
  Forall (fun c => c ∉ [38; 60; 62; 96; 42; 35; 10; 13; 8232; 8233]) t →
  formatMessage (VString (codes "# " ++ t)) = VString (codes "<h3>" ++ t ++ codes "</h3>")
  ∧ formatMessage (VString (codes "## " ++ t)) = VString (codes "<h4>" ++ t ++ codes "</h4>")
  ∧ formatMessage (VString (codes "### " ++ t)) = VString (codes "<h5>" ++ t ++ codes "</h5>").
Proof.
  intros Hne Ht. destruct t as [|c t]; [done|]. cbn [formatMessage].
  by rewrite format_header3, format_header4, format_header5.
Qed.
End FormatMore.

Lemma X20_format_plain_text_unchanged_witness :
  formatMessage (VString (codes "Hello there")) = VString (codes "Hello there").
Proof.
  apply (X20_format_plain_text_unchanged (codes "Hello there")).
  apply (bool_decide_unpack _). vm_compute. exact I.
Defined.

Lemma X21_format_emphasis_and_inline_code_witness :
  formatMessage (VString (codes "**so true**")) = VString (codes "<strong>so true</strong>")
  ∧ formatMessage (VString (codes "*so true*")) = VString (codes "<em>so true</em>")
  ∧ formatMessage (VString (codes "`so true`"))
    = VString (codes "<code class=" ++ Format.quote ++ codes "inline-code"
               ++ Format.quote ++ codes ">so true</code>").
Proof.
  apply (X21_format_emphasis_and_inline_code (codes "so true")).
  - discriminate.
  - apply (bool_decide_unpack _). vm_compute. exact I.
Defined.

Lemma X22_format_header_levels_witness :
  formatMessage (VString (codes "# Plan")) = VString (codes "<h3>Plan</h3>")
  ∧ formatMessage (VString (codes "## Plan")) = VString (codes "<h4>Plan</h4>")
  ∧ formatMessage (VString (codes "### Plan")) = VString (codes "<h5>Plan</h5>").
Proof.
  apply (X22_format_header_levels (codes "Plan")).
  - discriminate.
  - apply (bool_decide_unpack _). vm_compute. exact I.
Defined.



(* ===================================================================== *)
(** * What a send reads and what it writes *)
(* ===================================================================== *)

Section SendFrame.
Context (trim : string → string).
Implicit Types (w : World) (bot : Bot) (net : Request → FetchOutcome).

(** X23. [getAIResponse] reads of the bot only its name, description, age
    category and tone, and does not read the history it is given: two bots
    that agree on the four fields get the same request and the same result,
    whatever the two histories are. *)
Theorem X23_getAIResponse_ignores_history net bot bot' userMessage
    (chatHistory chatHistory' : list Message) :
  name bot = name bot' →
  description bot = description bot' →
  ageCategory bot = ageCategory bot' →
  chatTone bot = chatTone bot' →
  AiClient.getAIResponse trim net bot userMessage chatHistory
  = AiClient.getAIResponse trim net bot' userMessage chatHistory'.
Proof.
  intros Hn Hd Ha Ht. unfold AiClient.getAIResponse. rewrite !chat_request_eq.
  unfold AiService.createPersonalityPrompt. by rewrite Hn, Hd, Ha, Ht.
Qed.

(** X24. The global chat history is not the transcript. Opening the chat
    page sets it to the empty array whatever is stored. On a page with a
    message list a send pushes the user's message only, never the reply:
    after the first send it holds that one message, while the stored
    transcript holds what was stored, the message, and the reply if one
    came; the two differ. On a page without a message list the handler
    throws before it stores or pushes anything, and nothing changes. *)
Theorem X24_global_history_gets_user_messages_only
    net page bot accepts botId inputValue now now1 now2 w w1 :
  App.initChatPage page now w = (w1, ChatOpen bot accepts) →
  param_id page = Some botId →
  trim inputValue ≠ "" →
  let userMessage := {| sender := "user"; text := trim inputValue; timestamp := now1 |} in
  let sent := ChatPage.sendMessage trim page net bot botId inputValue now1 now2 w1 in
  let w2 := sent.1 in
  (cc_chatHistory <$> currentChat w1) = Some []
  ∧ if has_chat_messages page then
      (cc_chatHistory <$> currentChat w2) = Some [userMessage]
      ∧ (∃ reply, Storage.getChatHistory botId (storage w2)
                  = Storage.getChatHistory botId (storage w1) ++ userMessage :: reply)
      ∧ (cc_chatHistory <$> currentChat w2) ≠ Some (Storage.getChatHistory botId (storage w2))
    else sent = (w1, Some (Throw TypeError)).
Proof.
  intros Hopen Hp Hne userMessage sent w2. subst w2 sent.
  destruct (initChatPage_open _ _ _ _ _ _ Hopen)
    as (botId' & _ & Hp' & _ & _ & Hcc & _ & _ & _ & Hstored).
  rewrite Hp in Hp'. injection Hp' as <-.
  split; [by rewrite Hcc|].
  assert (Hsend : ChatPage.sendMessage trim page net bot botId inputValue now1 now2 w1
                  = if has_chat_messages page
                    then App.sendMessage trim net bot botId inputValue now1 now2 w1
                    else (w1, Some (Throw TypeError)))
    by (unfold ChatPage.sendMessage; by destruct (trim inputValue)).
  rewrite Hsend. clear Hsend.
  destruct (has_chat_messages page); [|done].
  specialize (Hstored eq_refl).
  assert (Hglobal :
    (cc_chatHistory <$> currentChat
       (App.sendMessage trim net bot botId inputValue now1 now2 w1).1) = Some [userMessage]
    ∧ ∃ reply, Storage.getChatHistory botId
                 (storage (App.sendMessage trim net bot botId inputValue now1 now2 w1).1)
               = Storage.getChatHistory botId (storage w1) ++ userMessage :: reply).
  { unfold App.sendMessage. rewrite submit_nonempty by done.
    unfold App.respond.
    destruct (AiClient.getAIResponse trim net bot (trim inputValue) _) as [sent [text|e]];
      cbn [fst currentChat storage App.set_storage]; rewrite Hcc; (split; [done|]).
    - eexists [_]. rewrite !getChatHistory_saveChatMessage. by rewrite <- app_assoc.
    - exists []. by rewrite getChatHistory_saveChatMessage. }
  destruct Hglobal as (Hglobal & reply & Hreply).
  split; [done|]. split; [by exists reply|].
  rewrite Hglobal, Hreply. intros [= E].
  destruct (Storage.getChatHistory botId (storage w1)) as [|m h]; [done|].
  simpl in E. injection E as _ E. by destruct h.
Qed.

(** X25. Whatever the input and whatever the backend does, a send only
    appends to the transcript of its bot: at most two messages, a user
    message and then perhaps a bot message. The other transcripts and the
    bots are untouched, and at most one request is made. *)
Theorem X25_send_only_appends net bot botId inputValue now1 now2 w :
  let w' := (App.sendMessage trim net bot botId inputValue now1 now2 w).1 in
  (∃ extra,
     Storage.getChatHistory botId (storage w')
     = Storage.getChatHistory botId (storage w) ++ extra
     ∧ (sender <$> extra) `prefix_of` ["user"; "bot"])
  ∧ (∀ other, other ≠ botId →
       Storage.getChatHistory other (storage w') = Storage.getChatHistory other (storage w))
  ∧ crave_ai_bots (storage w') = crave_ai_bots (storage w)
  ∧ (∃ sent, requests w' = requests w ++ sent ∧ length sent ≤ 1).
Proof.
  intros w'. subst w'. unfold App.sendMessage.
  destruct (decide (trim inputValue = "")) as [Hblank|Hne].
  - unfold App.submit. rewrite Hblank. cbn [fst].
    split; [exists []; split; [by rewrite app_nil_r|simpl; apply prefix_nil]|].
    split; [done|]. split; [done|]. exists []. rewrite app_nil_r. split; [done|simpl; lia].
  - rewrite submit_nonempty by done. unfold App.respond, AiClient.getAIResponse.
    rewrite chat_request_eq.
    match goal with |- context [match ?o with
                                | FetchRejected => _ | FetchBodyNotJson _ _ => _
                                | FetchResponse _ _ _ => _ end] =>
      generalize o end.
    intros outcome.
    match goal with |- context [match ?r with Ok _ => _ | Throw _ => _ end] =>
      destruct r as [text|e] end;
      cbn [fst storage requests App.set_storage].
    + split; [eexists [_; _]; split;
              [rewrite !getChatHistory_saveChatMessage; by rewrite <- app_assoc
              |done]|].
      split; [intros other Ho; by rewrite !getChatHistory_saveChatMessage_ne|].
      split; [done|]. eexists [_]. split; [done|simpl; lia].
    + split; [eexists [_]; split;
              [by rewrite getChatHistory_saveChatMessage|simpl; by apply prefix_cons, prefix_nil]|].
      split; [intros other Ho; by rewrite getChatHistory_saveChatMessage_ne|].
      split; [done|]. eexists [_]. split; [done|simpl; lia].
Qed.
End SendFrame.

Lemma X23_getAIResponse_ignores_history_witness :
  AiClient.getAIResponse Example.trim (Sample.answering " Hello! ") Example.mia "hi" []
  = AiClient.getAIResponse Example.trim (Sample.answering " Hello! ") Sample.mia_again "hi"
Example.transcript15.
Proof.
  apply (X23_getAIResponse_ignores_history Example.trim (Sample.answering " Hello! ")
Example.mia Sample.mia_again "hi" [] Example.transcript15);
reflexivity.
Defined.

Lemma X24_global_history_gets_user_messages_only_witness :
  (cc_chatHistory <$> currentChat
     (ChatPage.sendMessage Example.trim Example.chat_page (Sample.answering " Hello! ")
Example.mia "b1" " m16 " 16 17
(App.initChatPage Example.chat_page 5 Example.world15).1).1)
= Some [Example.from_user "m16" 16].
Proof.
  pose proof (X24_global_history_gets_user_messages_only Example.trim
                (Sample.answering " Hello! ") Example.chat_page Example.mia true "b1"
                " m16 " 5 16 17 Example.world15
                (App.initChatPage Example.chat_page 5 Example.world15).1 eq_refl eq_refl) as H.
  cbv zeta in H. destruct H as (_ & H).
  - vm_compute; discriminate.
  - exact (proj1 H).
Defined.

(* ===================================================================== *)
(** * Deleting a bot and its chat page *)
(* ===================================================================== *)

(** X26. After [deleteBot(id)], whatever it returned, no bot is found under
    the id, so the chat page for that id does not open: it stores no welcome
    message and sets no global chat. *)
Theorem X26_deleted_bot_has_no_chat_page id page now w :
  param_id page = Some id →
  let w1 := App.set_storage (BotStore.deleteBot id (storage w)).2 w in
  Storage.getBotById id (storage w1) = None
  ∧ ∃ status, App.initChatPage page now w1 = (w1, status)
              ∧ status ∈ [NotChatPage; NoBotId; BotNotFound].
Proof.
  intros Hp w1.
  assert (Hnone : Storage.getBotById id (storage w1) = None).
  { subst w1. unfold App.set_storage, BotStore.deleteBot. cbn [storage].
    destruct (_ <? _) eqn:Hlt; cbn [snd].
    - unfold Storage.getBotById, Storage.getAllBots. cbn.
      rewrite find_bot_without. by rewrite String.eqb_refl.
    - apply Nat.ltb_ge in Hlt.
      destruct (Storage.getBotById id (storage w)) as [b|] eqn:E; [|done].
      unfold Storage.getBotById in E. apply without_present in E. lia. }
  split; [exact Hnone|].
  unfold App.initChatPage. rewrite Hp, Hnone.
  destruct (has_chat_container page); cbn [negb]; [|eexists; split; [done|set_solver]].
  destruct id; eexists; (split; [done|set_solver]).
Qed.

Lemma X26_deleted_bot_has_no_chat_page_witness :
  Storage.getBotById "b1"
    (storage (App.set_storage (BotStore.deleteBot "b1" (storage Example.world15)).2
Example.world15))
= None
∧ ∃ status,
App.initChatPage Example.chat_page 5
(App.set_storage (BotStore.deleteBot "b1" (storage Example.world15)).2
Example.world15)
= (App.set_storage (BotStore.deleteBot "b1" (storage Example.world15)).2
Example.world15, status)
∧ status ∈ [NotChatPage; NoBotId; BotNotFound].
Proof.
  apply (X26_deleted_bot_has_no_chat_page "b1" Example.chat_page 5 Example.world15).
  reflexivity.
Defined.

(* ===================================================================== *)
(** * The page name *)
(* ===================================================================== *)

Section PageName.
Local Open Scope string_scope.
Implicit Types (s : string) (sep : ascii).

Lemma split_nonempty sep s : Url.split sep s ≠ [].
Proof.
  destruct s as [|c s]; simpl; [done|].
  destruct (Ascii.eqb c sep); [done|]. by destruct (Url.split sep s).
Qed.

(** No segment holds the separator. *)
Lemma split_segments sep s :
  Forall (fun seg => Url.occurs sep seg = false) (Url.split sep s).
Proof.
  induction s as [|c s IH]; simpl; [by constructor|].
  destruct (Ascii.eqb c sep) eqn:E; [by constructor|].
  destruct (Url.split sep s) as [|seg rest]; [repeat constructor; simpl; by rewrite E|].
  inversion IH; subst. constructor; [|done]. simpl. by rewrite E.
Qed.

(** A character that is in no part of the string is in no segment. *)
Lemma split_segments_other sep c s :
  Url.occurs c s = false →
  Forall (fun seg => Url.occurs c seg = false) (Url.split sep s).
Proof.
  induction s as [|c' s IH]; simpl; [by constructor|].
  intros H. apply orb_false_iff in H as [Hc Hs]. specialize (IH Hs).
  destruct (Ascii.eqb c' sep); [by constructor|].
  destruct (Url.split sep s) as [|seg rest]; [repeat constructor; simpl; by rewrite Hc|].
  inversion IH; subst. constructor; [|done]. simpl. by rewrite Hc.
Qed.

(** A string without the separator is its own single segment, and what
    follows a separator does not change the segments before it. *)
Lemma split_none sep s : Url.occurs sep s = false → Url.split sep s = [s].
Proof.
  induction s as [|c s IH]; simpl; [done|].
  intros H. apply orb_false_iff in H as [Hc Hs]. by rewrite Hc, IH.
Qed.

Lemma split_app sep s t :
  Url.occurs sep s = false →
  Url.split sep (s +:+ String sep t) = s :: Url.split sep t.
Proof.
  induction s as [|c s IH]; simpl.
  - intros _. by rewrite Ascii.eqb_refl.
  - intros H. apply orb_false_iff in H as [Hc Hs]. by rewrite Hc, IH.
Qed.

Lemma last_split_app s t :
  Url.occurs "/" t = false →
  last (Url.split "/" (s +:+ String "/" t)) = Some t.
Proof.
  intros Ht. induction s as [|c s IH]; simpl.
  - by rewrite split_none.
  - destruct (Ascii.eqb c "/").
    + rewrite last_cons. by rewrite IH.
    + destruct (Url.split "/" (s +:+ String "/" t)) as [|seg rest] eqn:E; [done|].
      rewrite last_cons in IH. rewrite last_cons.
      destruct (last rest) eqn:El; [done|].
      destruct rest; [|by rewrite last_cons in El; destruct (last rest)].
(* one segment only: impossible, the string holds a separator *)
exfalso. clear IH El.
assert (Hlen : ∀ u : string, (2 ≤ length (Url.split "/" (u +:+ String "/" t)))%nat).
{ clear. induction u as [|c u IHu]; simpl.
  { pose proof (split_nonempty "/" t). destruct (Url.split "/" t); [done|simpl; lia]. }
  destruct (Ascii.eqb c "/"); simpl; [lia|].
  destruct (Url.split "/" (u +:+ String "/" t)); simpl in *; lia. }
specialize (Hlen s). rewrite E in Hlen. simpl in Hlen. lia.
Qed.

(** X27. [getCurrentPage] never throws, and the name it gives is never
    empty and holds neither [/] nor [.], whatever the path is. *)
Theorem X27_getCurrentPage_gives_a_name (pathname : string) :
  ∃ page,
    Url.getCurrentPage pathname = Ok page
    ∧ page ≠ ""
    ∧ Url.occurs "/" page = false
    ∧ Url.occurs "." page = false.
Proof.
  unfold Url.getCurrentPage.
  pose proof (split_segments "/" pathname) as Hsegs.
  destruct (last (Url.split "/" pathname)) as [segment|] eqn:El.
  - assert (Hseg : Url.occurs "/" segment = false).
    { apply last_Some in El as [l Hl]. rewrite Hl in Hsegs.
      apply Forall_app in Hsegs as [_ H]. by inversion H. }
    pose proof (split_segments "." segment) as Hdot.
    pose proof (split_segments_other "." "/" segment Hseg) as Hslash.
    destruct (Url.split "." segment) as [|[|c s] rest]; simpl.
    + by eexists.
    + by eexists.
    + inversion Hdot; inversion Hslash; subst. by eexists.
  - apply last_None in El. by destruct (split_nonempty "/" pathname).
Qed.

(** X28. For a path that ends in [/name.ext] or in [/name], with no [/] and
    no [.] in the name, the page is the name; and it is [index] when the
    name is empty, as for a path that ends in [/]. *)
Theorem X28_getCurrentPage_is_the_stem (dir name ext : string) :
  Url.occurs "/" name = false →
  Url.occurs "." name = false →
  Url.occurs "/" ext = false →
  let page := if String.eqb name "" then "index" else name in
  Url.getCurrentPage (dir +:+ "/" +:+ name +:+ "." +:+ ext) = Ok page
  ∧ Url.getCurrentPage (dir +:+ "/" +:+ name) = Ok page.
Proof.
  intros Hslash Hdot Hext page. subst page.
  assert (Hocc : ∀ a b, Url.occurs "/" a = false → Url.occurs "/" b = false →
                        Url.occurs "/" (a +:+ b) = false).
  { clear. induction a as [|c a IH]; simpl; [done|].
    intros b H Hb. apply orb_false_iff in H as [Hc Ha]. by rewrite Hc, IH. }
  unfold Url.getCurrentPage. split.
  - change (dir +:+ "/" +:+ name +:+ "." +:+ ext)
      with (dir +:+ String "/" (name +:+ String "." ext)).
    rewrite last_split_app by (apply Hocc; [done|simpl; by rewrite Hext]).
    rewrite split_app by done. simpl. by destruct name.
  - change (dir +:+ "/" +:+ name) with (dir +:+ String "/" name).
    rewrite last_split_app by done.
    rewrite split_none by done. simpl. by destruct name.
Qed.
End PageName.

Lemma X28_getCurrentPage_is_the_stem_witness :
  Url.getCurrentPage "/app/chat.html" = Ok "chat"
  ∧ Url.getCurrentPage "/app/chat" = Ok "chat".
Proof.
  apply (X28_getCurrentPage_is_the_stem "/app" "chat" "html"); reflexivity.
Defined.

(* ===================================================================== *)
(** * The first run and the reset *)
(* ===================================================================== *)

Section FirstRun.
Implicit Types (b : Browser).

(** X29. The start of the application writes only the items that are
    missing: afterwards the three items are there, what was stored is
    unchanged, and the functions that read the store give what they gave
    before. Running it again changes nothing. *)
Theorem X29_initApp_fills_what_is_missing b :
  let b' := Settings.initApp b in
  (is_Some (crave_ai_bots (local b'))
   ∧ is_Some (crave_ai_chats (local b'))
   ∧ is_Some (crave_ai_settings b'))
  ∧ (Storage.getAllBots (local b') = Storage.getAllBots (local b)
     ∧ Storage.getAllChats (local b') = Storage.getAllChats (local b)
     ∧ Settings.getSettings b' = Settings.getSettings b)
  ∧ (∀ bots, crave_ai_bots (local b) = Some bots → crave_ai_bots (local b') = Some bots)
  ∧ (∀ chats, crave_ai_chats (local b) = Some chats → crave_ai_chats (local b') = Some chats)
  ∧ (∀ v, crave_ai_settings b = Some v → crave_ai_settings b' = Some v)
  ∧ Settings.initApp b' = b'.
Proof.
  intros b'. subst b'. destruct b as [[bots chats] settings].
  unfold Settings.initApp, Settings.getSettings, Storage.getAllBots, Storage.getAllChats.
  cbn [local crave_ai_bots crave_ai_chats crave_ai_settings].
  repeat split; try (by destruct bots); try (by destruct chats);
    try (by destruct settings); try (by intros ? ->).
  by destruct bots, chats, settings.
Qed.

(** X30. A confirmed reset takes the application back to its first run: the
    start that follows the reload leaves the store as on a browser that
    never ran the application, and no bot is found, every chat history is
    empty and the settings are the default ones, at once and after that
    start. A declined reset changes nothing. *)
Theorem X30_resetAllData_empties_the_store confirmed b :
  let b' := Settings.resetAllData confirmed b in
  if confirmed then
Settings.initApp b' = Settings.initApp Sample.never_run
∧ ∀ b'', b'' = b' ∨ b'' = Settings.initApp b' →
    Storage.getAllBots (local b'') = []
    ∧ (∀ id, Storage.getBotById id (local b'') = None)
    ∧ (∀ id, Storage.getChatHistory id (local b'') = [])
    ∧ Settings.getSettings b'' = Settings.DEFAULT_SETTINGS
else b' = b.
Proof.
  intros b'. subst b'. destruct confirmed; [|done].
  split; [done|]. intros b'' [-> | ->]; by repeat split.
Qed.
End FirstRun.
